(** * ParticleSet: the chunked particle store and its stepping loop

    A shallow embedding of [parcels/particleset.py].  The class keeps the
    particles in a Python list of numpy arrays ([_plist], one array per
    "bracket") next to a list of summary tuples ([_pid_mapping_bounds],
    one [(min_id, max_id, size_bracket)] per bracket).  Methods become
    functions from a [ParticleSet] value to an [outcome]: the value a
    Python call returns, the exception it raises, or the fact that one of
    its loops never exits.

    Conventions of the embedding
    - Python integers are [Z]; floating-point numbers are exact rationals
      [Q], extended by the two infinities where the source uses
      [np.infty]: sums, products and comparisons are those of [Q].  The
      one floor division of two floats in the module ([//] in
      [execute]) is not computed on [Q], where rounding would move the
      result across an integer ([0.3 // 0.1] is [2.0] in floating
      point); it is a collaborator of the embedding, [floordiv].
    - A numpy array of particles is a [list Particle]; indexing follows
      numpy: a negative index counts from the end, an index outside
      [-n, n) raises [IndexError].
    - The C mirror of the store ([_plist_c], used when [ptype.uses_jit])
      carries no information of its own and is left out, and so are the
      user-declared variables of a particle class.
    - A call that raises hands no store back: what the Python object
      looks like after an exception is not modelled.
    - The logger ([parcels.tools.loggers]) is not part of the module:
      its calls ([logger.warn_once] before each [return -1] of the
      lookups, [logger.warning_once] and [logger.info] in [execute])
      are taken to return, and are left out.
    - numpy and Python behave as they did when the module was written
      ([collections.Iterable] exists): comparing two arrays of different
      shapes with [==] is false, and the truth value of an empty array
      is false. *)

From stdpp Require Import base option list.
From Stdlib Require Import ZArith QArith Qabs Qround Lia Lqa.

Open Scope Z_scope.

(** ** Outcomes of a Python call *)

Inductive exn : Set :=
| IndexError | ValueError | AssertionError | TypeError
| RuntimeError | AttributeError | NotImplementedError.

Inductive outcome (A : Type) : Type :=
| Ok (a : A)          (* the call returns [a] *)
| Raise (e : exn)     (* the call raises [e] *)
| Loops.              (* a loop of the call never exits *)
Arguments Ok {A} a.
Arguments Raise {A} e.
Arguments Loops {A}.

#[global] Instance outcome_ret : MRet outcome := @Ok.
#[global] Instance outcome_bind : MBind outcome := fun A B f m =>
  match m with
  | Ok a => f a
  | Raise e => Raise e
  | Loops => Loops
  end.

Definition py_assert (b : bool) : outcome unit :=
  if b then Ok tt else Raise AssertionError.

(** [mapM] in the outcome monad, left to right. *)
Fixpoint traverse {A B} (f : A -> outcome B) (l : list A) : outcome (list B) :=
  match l with
  | [] => Ok []
  | x :: l' => y ← f x; ys ← traverse f l'; Ok (y :: ys)
  end.

(** ** Python lists and numpy arrays *)

(** Index normalisation shared by Python lists and numpy arrays of
    length [n]: [0 <= i < n] is itself, [-n <= i < 0] is [i + n]. *)
Definition norm_index (n : nat) (i : Z) : option nat :=
  if (0 <=? i) && (i <? Z.of_nat n) then Some (Z.to_nat i)
  else if (- Z.of_nat n <=? i) && (i <? 0) then Some (Z.to_nat (i + Z.of_nat n))
  else None.

(** [l[i]] *)
Definition py_getitem {A} (l : list A) (i : Z) : outcome A :=
  match norm_index (length l) i with
  | Some k => match l !! k with Some x => Ok x | None => Raise IndexError end
  | None => Raise IndexError
  end.

(** [l[i] = x] *)
Definition py_setitem {A} (l : list A) (i : Z) (x : A) : outcome (list A) :=
  match norm_index (length l) i with
  | Some k => Ok (<[k := x]> l)
  | None => Raise IndexError
  end.

(** [del l[i]] *)
Definition py_delitem {A} (l : list A) (i : Z) : outcome (list A) :=
  match norm_index (length l) i with
  | Some k => Ok (delete k l)
  | None => Raise IndexError
  end.

(** [l.remove(v)]: drops the first element equal to [v]. *)
Fixpoint list_remove {A} (eqb : A -> A -> bool) (v : A) (l : list A)
  : outcome (list A) :=
  match l with
  | [] => Raise ValueError
  | x :: l' => if eqb x v then Ok l' else (r ← list_remove eqb v l'; Ok (x :: r))
  end.

(** [arr[idx]] for an index array built by [np.array(local_indices)].
    An empty Python list becomes a float array, which numpy refuses as
    an index. *)
Definition np_take {A} (arr : list A) (idx : list Z) : outcome (list A) :=
  match idx with
  | [] => Raise IndexError
  | _ => traverse (py_getitem arr) idx
  end.

(** Keeps the elements whose position is not in [ks]; [i] is the
    position of the head of [l]. *)
Fixpoint drop_positions {A} (ks : list nat) (i : nat) (l : list A) : list A :=
  match l with
  | [] => []
  | x :: l' =>
      if bool_decide (i ∈ ks) then drop_positions ks (S i) l'
      else x :: drop_positions ks (S i) l'
  end.

(** [np.delete(arr, idx)] *)
Definition np_delete {A} (arr : list A) (idx : list Z) : outcome (list A) :=
  ks ← traverse (fun i => match norm_index (length arr) i with
                           | Some k => Ok k
                           | None => Raise IndexError
                           end) idx;
  Ok (drop_positions ks 0 arr).

(** ** Particles and the store *)

(** The fields of a particle the class reads or writes.  [time] is
    [None] for a particle whose time is NaN. *)
Record Particle : Type := mkParticle {
  id : Z;
  lon : Q;
  lat : Q;
  depth : Q;
  time : option Q;
  dt : Q
}.

(** [(min_id, max_id, size_bracket)] *)
Definition bracket_info : Type := Z * Z * Z.

Definition info_min (b : bracket_info) : Z := b.1.1.
Definition info_max (b : bracket_info) : Z := b.1.2.
Definition info_size (b : bracket_info) : Z := b.2.

Definition bracket_info_eqb (a b : bracket_info) : bool :=
  (info_min a =? info_min b) && (info_max a =? info_max b)
  && (info_size a =? info_size b).

(** [np.iinfo(np.int32).max] and [np.iinfo(np.int32).min] *)
Definition int32_max : Z := 2147483647.
Definition int32_min : Z := -2147483648.

(** The release template kept when [repeatdt] is set. *)
Record RepeatTemplate : Type := mkRepeat {
  repeatlon : list Q;
  repeatlat : list Q;
  repeatdepth : list Q;
  repeatpid : list Z
}.

Record ParticleSet : Type := mkParticleSet {
  _plist : list (list Particle);
  _pid_mapping_bounds : list bracket_info;
  nlist_limit : Z;
  repeatdt : option Q;
  repeat_starttime : option (option Q);   (* unset / set, possibly to None *)
  repeat_template : option RepeatTemplate
}.

Definition set_plist (s : ParticleSet) (pl : list (list Particle)) : ParticleSet :=
  mkParticleSet pl (_pid_mapping_bounds s) (nlist_limit s)
    (repeatdt s) (repeat_starttime s) (repeat_template s).

Definition set_bounds (s : ParticleSet) (bs : list bracket_info) : ParticleSet :=
  mkParticleSet (_plist s) bs (nlist_limit s)
    (repeatdt s) (repeat_starttime s) (repeat_template s).

(** [size]: the sum of the cached bracket sizes. *)
Definition size (s : ParticleSet) : Z :=
  foldl (fun n b => n + info_size b) 0 (_pid_mapping_bounds s).

(** [convert_pset_to_static_list]: the records in global-index order. *)
Definition convert_pset_to_static_list (s : ParticleSet) : list Particle :=
  concat (_plist s).

(** [local_ids] with [np.min], [np.max] and [shape[0]] of a bracket;
    numpy raises [ValueError] on an empty array. *)
Definition summary (arr : list Particle) : outcome bracket_info :=
  match arr with
  | [] => Raise ValueError
  | p :: ps =>
      Ok (foldl Z.min (id p) (id <$> ps), foldl Z.max (id p) (id <$> ps),
          Z.of_nat (length arr))
  end.

(** ** Locating a particle *)

(** What [get_list_array_index] hands back: the tuple
    [(bracket_index, slot_index)], or a bare integer. *)
Inductive index_result : Set :=
| Location (bracket_index slot_index : Z)
| Sentinel (z : Z).

(** The argument of [get_list_array_index]: a global index or a particle. *)
Inductive pdata_arg : Type :=
| PInt (pdata : Z)
| PParticle (pdata : Particle).

(** The loop of [get_list_array_index] on an integer, also the loop of
    [__getitem__]:
<<
    while pdata >= end_index:
        start_index = end_index
        end_index = start_index+self._pid_mapping_bounds[bracket_index][2]
        bracket_index += 1
>> *)
Fixpoint index_walk (fuel : nat) (bounds : list bracket_info)
    (pdata bracket_index start_index end_index : Z) : outcome (Z * Z * Z) :=
  if pdata >=? end_index then
    match fuel with
    | O => Loops
    | S fuel' =>
        let start_index := end_index in
        info ← py_getitem bounds bracket_index;
        let end_index := start_index + info_size info in
        index_walk fuel' bounds pdata (bracket_index + 1) start_index end_index
    end
  else Ok (bracket_index, start_index, end_index).

(** The loop over brackets of [get_list_array_index] on a particle:
<<
    while bracket_index < len(self._plist) and ((pdata.id < bracket_info[0]) or (pdata.id > bracket_info[1])):
        bracket_index += 1
        bracket_info = self.pid_mapping_bounds[bracket_index]
>> *)
Fixpoint bracket_walk (fuel : nat) (s : ParticleSet) (pid : Z)
    (bracket_index : Z) (info : bracket_info) : outcome (Z * bracket_info) :=
  if (bracket_index <? Z.of_nat (length (_plist s)))
     && ((pid <? info_min info) || (pid >? info_max info)) then
    match fuel with
    | O => Loops
    | S fuel' =>
        let bracket_index := bracket_index + 1 in
        info ← py_getitem (_pid_mapping_bounds s) bracket_index;
        bracket_walk fuel' s pid bracket_index info
    end
  else Ok (bracket_index, info).

(** The loop over slots: [arr] is the part of the bracket from
    [slot_index] on.
<<
    while (slot_index < self._plist[bracket_index].shape[0]) and (self._plist[bracket_index][slot_index].id != pdata.id):
        slot_index += 1
>> *)
Fixpoint slot_walk (arr : list Particle) (pid : Z) (slot_index : Z) : Z :=
  match arr with
  | [] => slot_index
  | p :: arr' => if id p =? pid then slot_index else slot_walk arr' pid (slot_index + 1)
  end.

Definition get_list_array_index (s : ParticleSet) (pdata : pdata_arg)
  : outcome index_result :=
  match pdata with
  | PInt pdata =>
      let bracket_index := 0 in
      let start_index := 0 in
      info ← py_getitem (_pid_mapping_bounds s) bracket_index;
      let end_index := info_size info in
      '(bracket_index, start_index, _) ←
        index_walk (S (length (_pid_mapping_bounds s))) (_pid_mapping_bounds s)
          pdata bracket_index start_index end_index;
      let slot_index := pdata - start_index in
      Ok (Location bracket_index slot_index)
  | PParticle pdata =>
      let bracket_index := 0 in
      info ← py_getitem (_pid_mapping_bounds s) bracket_index;
      '(bracket_index, _) ←
        bracket_walk (length (_plist s)) s (id pdata) bracket_index info;
      if bracket_index >=? Z.of_nat (length (_plist s)) then Ok (Sentinel (-1))
      else
        arr ← py_getitem (_plist s) bracket_index;
        let slot_index := slot_walk arr (id pdata) 0 in
        if slot_index >=? Z.of_nat (length arr) then Ok (Sentinel (-1))
        else Ok (Location bracket_index slot_index)
  end.

(** [located_particle] of [get_list_array_index_by_PID]: every
    [(p, bracket_index, slot_index)] whose [p.id] is [pdata]. *)
Definition located (s : ParticleSet) (pdata : Z) : list (Particle * Z * Z) :=
  concat (imap (fun bracket_index sublist =>
            filter (fun t => id t.1.1 = pdata)
              (imap (fun slot_index p =>
                       (p, Z.of_nat bracket_index, Z.of_nat slot_index)) sublist))
          (_plist s)).

Definition get_list_array_index_by_PID (s : ParticleSet) (pdata : Z)
  : outcome index_result :=
  let located_particle := located s pdata in
  if (length located_particle <? 1)%nat then Ok (Sentinel (-1))
  else if (1 <? length located_particle)%nat then Ok (Sentinel (-1))
  else
    t ← py_getitem located_particle 0;
    Ok (Location t.1.2 t.2).

(** [__getitem__] *)
Definition __getitem__ (s : ParticleSet) (key : Z) : outcome Particle :=
  let bracket_index := 0 in
  let start_index := 0 in
  info ← py_getitem (_pid_mapping_bounds s) bracket_index;
  let end_index := info_size info in
  '(bracket_index, start_index, _) ←
    index_walk (S (length (_pid_mapping_bounds s))) (_pid_mapping_bounds s)
      key bracket_index start_index end_index;
  let slot_index := key - start_index in
  arr ← py_getitem (_plist s) bracket_index;
  py_getitem arr slot_index.

(** The [particles] property; [None] is Python's [None]. *)
Definition particles (s : ParticleSet) : option (list Particle) :=
  match _plist s with
  | [] => None
  | first :: _ =>
      let result := first in
      if (1 <? length (_plist s))%nat
      then Some (foldl (fun result arr => result ++ arr) result (_plist s))
      else Some result
  end.

(** ** Mutators *)

(** [add]: the brackets and summaries of [particles] are appended. *)
Definition add (s particles : ParticleSet) : ParticleSet :=
  set_bounds (set_plist s (_plist s ++ _plist particles))
    (_pid_mapping_bounds s ++ _pid_mapping_bounds particles).

(** The [for] loop of [_merge_brackets_], over the bracket indices still
    to visit: the first two brackets whose cached size is below the
    bound, each with the array read at that moment. *)
Fixpoint scan_brackets (s : ParticleSet) (lw_bound_nlist : Z) (indices : list Z)
    (trg src : option (Z * list Particle))
  : outcome (option (Z * list Particle) * option (Z * list Particle)) :=
  match indices with
  | [] => Ok (trg, src)
  | bracket_index :: rest =>
      info ← py_getitem (_pid_mapping_bounds s) bracket_index;
      '(trg, src) ←
        (if info_size info <? lw_bound_nlist then
           match trg, src with
           | None, _ => arr ← py_getitem (_plist s) bracket_index;
                        Ok (Some (bracket_index, arr), src)
           | Some _, None => arr ← py_getitem (_plist s) bracket_index;
                             Ok (trg, Some (bracket_index, arr))
           | Some _, Some _ => Ok (trg, src)
           end
         else Ok (trg, src));
      match trg, src with
      | Some _, Some _ => Ok (trg, src)
      | _, _ => scan_brackets s lw_bound_nlist rest trg src
      end
  end.

(** One merge: the source bracket is appended to the target, the
    target's summary is recomputed, the source is deleted. *)
Definition merge_pair (s : ParticleSet) (trg src : Z * list Particle)
  : outcome ParticleSet :=
  let merged := trg.2 ++ src.2 in
  pl ← py_setitem (_plist s) trg.1 merged;
  info ← summary merged;
  bs ← py_setitem (_pid_mapping_bounds s) trg.1 info;
  pl ← py_delitem pl src.1;
  bs ← py_delitem bs src.1;
  Ok (set_bounds (set_plist s pl) bs).

(** The [while nmerges > 0] loop. *)
Fixpoint merge_loop (fuel : nat) (s : ParticleSet) : outcome ParticleSet :=
  match fuel with
  | O => Loops
  | S fuel' =>
      let lw_bound_nlist := Z.quot (nlist_limit s) 2 in
      found ← scan_brackets s lw_bound_nlist
                (seqZ 0 (Z.of_nat (length (_plist s)))) None None;
      match found with
      | (Some trg, Some src) => s' ← merge_pair s trg src; merge_loop fuel' s'
      | _ => Ok s
      end
  end.

Definition _merge_brackets_ (s : ParticleSet) : outcome ParticleSet :=
  merge_loop (S (length (_plist s))) s.

(** [_remove_]: returns the store and the removed records.  The emptied
    bracket leaves [_plist] by identity (only the array just stored at
    [bracket_index] is that object), its summary leaves
    [_pid_mapping_bounds] through [list.remove], by value. *)
Definition _remove_ (s : ParticleSet) (bracket_index : Z) (local_indices : list Z)
  : outcome (ParticleSet * list Particle) :=
  arr ← py_getitem (_plist s) bracket_index;
  return_p ← np_take arr local_indices;
  arr ← np_delete arr local_indices;
  pl ← py_setitem (_plist s) bracket_index arr;
  match arr with
  | _ :: _ =>
      info ← summary arr;
      bs ← py_setitem (_pid_mapping_bounds s) bracket_index info;
      Ok (set_bounds (set_plist s pl) bs, return_p)
  | [] =>
      if (1 <? length pl)%nat then
        pl ← py_delitem pl bracket_index;
        info ← py_getitem (_pid_mapping_bounds s) bracket_index;
        bs ← list_remove bracket_info_eqb info (_pid_mapping_bounds s);
        Ok (set_bounds (set_plist s pl) bs, return_p)
      else
        bs ← py_setitem (_pid_mapping_bounds s) bracket_index
               (int32_max, int32_min, 0);
        Ok (set_bounds (set_plist s pl) bs, return_p)
  end.

Definition remove_local_particles := _remove_.

(** The [indices] argument of [pop] and [remove]: an integer, a numpy
    array of global indices, or a Python list, which both methods take as
    the per-bracket list of local indices ([None] for an untouched
    bracket). *)
Inductive indices_arg : Type :=
| IdxInt (gindex : Z)
| IdxArray (gindices : list Z)
| IdxList (lindices : list (option (list Z))).

(** [while gindex < 0: gindex = ncounter+gindex] *)
Fixpoint wrap_loop (fuel : nat) (ncounter gindex : Z) : outcome Z :=
  if gindex <? 0 then
    match fuel with
    | O => Loops
    | S fuel' => wrap_loop fuel' ncounter (ncounter + gindex)
    end
  else Ok gindex.

Definition wrap_gindex (ncounter gindex : Z) : outcome Z :=
  wrap_loop (Z.to_nat (- gindex)) ncounter gindex.

(** The [for gindex in indices] loop filling [lindices]. *)
Fixpoint fill_lindices (s : ParticleSet) (ncounter : Z) (indices : list Z)
    (lindices : list (option (list Z))) : outcome (list (option (list Z))) :=
  match indices with
  | [] => Ok lindices
  | gindex :: rest =>
      gindex ← wrap_gindex ncounter gindex;
      loc ← get_list_array_index s (PInt gindex);
      match loc with
      | Location bracket_index slot_index =>
          cur ← py_getitem lindices bracket_index;
          lindices ← py_setitem lindices bracket_index
            (match cur with
             | None => Some [slot_index]
             | Some l => Some (l ++ [slot_index])
             end);
          fill_lindices s ncounter rest lindices
      | Sentinel _ => Raise TypeError
      end
  end.

(** The head of [pop] and [remove]: from the argument to [lindices]. *)
Definition to_lindices (s : ParticleSet) (indices : indices_arg)
  : outcome (list (option (list Z))) :=
  match indices with
  | IdxList lindices => Ok lindices
  | IdxInt gindex =>
      fill_lindices s (size s) [gindex] (replicate (length (_plist s)) None)
  | IdxArray gindices =>
      fill_lindices s (size s) gindices (replicate (length (_plist s)) None)
  end.

(** The [for bracket_index in range(len(lindices))] loop of [pop];
    [lindices] is what is left from [bracket_index] on. *)
Fixpoint pop_loop (lindices : list (option (list Z))) (bracket_index : Z)
    (s : ParticleSet) (result : option (list Particle))
  : outcome (ParticleSet * option (list Particle)) :=
  match lindices with
  | [] => Ok (s, result)
  | None :: rest => pop_loop rest (bracket_index + 1) s result
  | Some local_indices :: rest =>
      '(s, removed) ← _remove_ s bracket_index local_indices;
      let result := match result with
                    | None => Some removed
                    | Some r => Some (r ++ removed)
                    end in
      pop_loop rest (bracket_index + 1) s result
  end.

(** What [pop] returns: [None], one particle, or a list. *)
Inductive pop_value : Type :=
| PopNone
| PopParticle (p : Particle)
| PopList (l : list Particle).

Definition pop_shape (result : option (list Particle)) : pop_value :=
  match result with
  | None => PopNone
  | Some [p] => PopParticle p
  | Some l => PopList l
  end.

Definition pop (s : ParticleSet) (indices : indices_arg)
  : outcome (ParticleSet * pop_value) :=
  lindices ← to_lindices s indices;
  _ ← py_assert (length lindices =? length (_plist s))%nat;
  '(s, result) ← pop_loop lindices 0 s None;
  s ← _merge_brackets_ s;
  Ok (s, pop_shape result).

Definition remove (s : ParticleSet) (indices : indices_arg) : outcome ParticleSet :=
  lindices ← to_lindices s indices;
  _ ← py_assert (length lindices =? length (_plist s))%nat;
  '(s, _) ← pop_loop lindices 0 s None;
  _merge_brackets_ s.

(** ** Construction *)

(** The allocation loop of [__init__], returning the bracket sizes:
<<
    while end_index < lon.shape[0]:
        end_index = min(lon.shape[0], start_index + self.nlist_limit)
        self._plist.append(np.empty(end_index-start_index, dtype=pclass))
        self._pid_mapping_bounds.append((np.iinfo(np.int32).max, np.iinfo(np.int32).min, end_index-start_index))
        start_index = end_index
>> *)
Fixpoint alloc_brackets (fuel : nat) (n limit start_index end_index : Z)
    (sizes : list Z) : outcome (list Z) :=
  if end_index <? n then
    match fuel with
    | O => Loops
    | S fuel' =>
        let end_index := Z.min n (start_index + limit) in
        let sizes := sizes ++ [end_index - start_index] in
        alloc_brackets fuel' n limit end_index end_index sizes
    end
  else Ok sizes.

(** What the constructor arguments are after [convert_to_array]. *)
Record init_args : Type := mkInit {
  arg_lon : list Q;
  arg_lat : list Q;
  arg_depth : option (list Q);
  arg_time : list (option Q);
  arg_repeatdt : option Q;
  arg_pid_orig : option (list Z)
}.

(** [np.allclose(time, t0)] with numpy's default tolerances. *)
Definition allclose (times : list (option Q)) (t0 : Q) : outcome bool :=
  bs ← traverse (fun t => match t with
                          | Some t => Ok (Qle_bool (Qabs (t - t0))
                                            ((1 # 100000000) + (1 # 100000) * Qabs t0))
                          | None => Raise TypeError
                          end) times;
  Ok (forallb (fun b => b) bs).

(** The fill loop of [__init__]; the arrays hold [None] where
    [np.empty] left a slot unset.
<<
    for i in range(lon.size):
        bracket_index = int(float(i)/self.nlist_limit)
        slot_index = int(i % self.nlist_limit)
        self._plist[bracket_index][slot_index] = pclass(lon[i], lat[i], pid[i], ..., depth=depth[i], ..., time=time[i])
        bracket_info = self._pid_mapping_bounds[bracket_index]
        self._pid_mapping_bounds[bracket_index] = (min(pid[i], bracket_info[0]), max(pid[i], bracket_info[1]), bracket_info[2])
>> *)
Fixpoint fill_brackets (limit : Z) (lon lat depth : list Q) (time : list (option Q))
    (pid : list Z) (indices : list Z)
    (pl : list (list (option Particle))) (bs : list bracket_info)
  : outcome (list (list (option Particle)) * list bracket_info) :=
  match indices with
  | [] => Ok (pl, bs)
  | i :: rest =>
      let bracket_index := Z.quot i limit in
      let slot_index := i `mod` limit in
      x ← py_getitem lon i;
      y ← py_getitem lat i;
      k ← py_getitem pid i;
      z ← py_getitem depth i;
      t ← py_getitem time i;
      arr ← py_getitem pl bracket_index;
      arr ← py_setitem arr slot_index (Some (mkParticle k x y z t 0));
      pl ← py_setitem pl bracket_index arr;
      info ← py_getitem bs bracket_index;
      bs ← py_setitem bs bracket_index
             (Z.min k (info_min info), Z.max k (info_max info), info_size info);
      fill_brackets limit lon lat depth time pid rest pl bs
  end.

(** [ParticleSet(...)] on one process.  [lastID] is the class-wide
    counter [pclass.lastID]; the new value of the counter is returned
    with the set.  [mindepth] is the depth the field set reports. *)
Definition ParticleSet_init (mindepth : Q) (lastID : Z) (a : init_args)
  : outcome (ParticleSet * Z) :=
  let lon := arg_lon a in
  let lat := arg_lat a in
  let n := Z.of_nat (length lon) in
  let pid_orig := default (seqZ 0 n) (arg_pid_orig a) in
  let pid := (fun k => k + lastID) <$> pid_orig in
  let depth := default (replicate (length lon) (1 * mindepth)%Q) (arg_depth a) in
  _ ← py_assert ((length lon =? length lat)%nat && (length lon =? length depth)%nat);
  let time := match arg_time a with
              | [t] => replicate (length lon) t
              | ts => ts
              end in
  _ ← py_assert (length lon =? length time)%nat;
  let offset := match pid with
                | [] => -1
                | k :: ks => foldl Z.max k ks
                end in
  rep ← match arg_repeatdt a with
        | Some r =>
            if Qeq_bool r 0 then Ok (None, None)
            else if Qle_bool r 0 then Raise TypeError
            else
              t0 ← py_getitem time 0;
              _ ← match t0 with
                  | Some t0 =>
                      if Qeq_bool t0 0 then Ok tt
                      else (c ← allclose time t0;
                            if (c : bool) then Ok tt else Raise TypeError)
                  | None => Ok tt
                  end;
              Ok (Some t0,
                  Some (mkRepeat lon lat depth ((fun k => k - lastID) <$> pid)))
        | None => Ok (None, None)
        end;
  let lastID := offset + 1 in
  let limit := 4096 in
  sizes ← alloc_brackets (S (length lon)) n limit 0 0 [];
  let pl := (fun k => replicate (Z.to_nat k) None) <$> sizes in
  let bs := (fun k => (int32_max, int32_min, k)) <$> sizes in
  '(pl, bs) ← fill_brackets limit lon lat depth time pid (seqZ 0 n) pl bs;
  pl ← traverse (traverse (fun o => match o with
                                    | Some p => Ok p
                                    | None => Raise AttributeError
                                    end)) pl;
  Ok (mkParticleSet pl bs limit (arg_repeatdt a) rep.1 rep.2, lastID).

(** ** The stepping loop *)

(** A float that may be one of the two infinities. *)
Inductive xQ : Set :=
| NegInf
| Fin (q : Q)
| PosInf.

Definition xQ_leb (a b : xQ) : bool :=
  match a, b with
  | NegInf, _ => true
  | _, PosInf => true
  | Fin a, Fin b => Qle_bool a b
  | _, _ => false
  end.

Definition xQ_ltb (a b : xQ) : bool := negb (xQ_leb b a).

Definition xQ_eqb (a b : xQ) : bool := xQ_leb a b && xQ_leb b a.

(** Python's [min] and [max] keep the earlier argument on a tie. *)
Definition xQ_min (a b : xQ) : xQ := if xQ_ltb b a then b else a.
Definition xQ_max (a b : xQ) : xQ := if xQ_ltb a b then b else a.

(** [a + b] and [a - b] for a finite [a]. *)
Definition xQ_add (a : Q) (b : xQ) : xQ :=
  match b with
  | NegInf => NegInf
  | Fin b => Fin (a + b)
  | PosInf => PosInf
  end.

Definition xQ_sub (a : Q) (b : xQ) : xQ :=
  match b with
  | NegInf => PosInf
  | Fin b => Fin (a - b)
  | PosInf => NegInf
  end.

(** [abs(a - b) < tol]: false as soon as one side is infinite. *)
Definition within (tol : Q) (a b : xQ) : bool :=
  match a, b with
  | Fin a, Fin b => negb (Qle_bool tol (Qabs (a - b)))
  | _, _ => false
  end.

(** [np.sign] *)
Definition sign (q : Q) : Q :=
  if Qle_bool q 0 then (if Qle_bool 0 q then 0 else - (1)) else 1.

Definition Qltb (a b : Q) : bool := negb (Qle_bool b a).

(** The arguments of [execute] once the time arguments are seconds.
    [output_file] is the [outputdt] of the particle file, if there is
    one; [postIterationCallbacks] is the number of callbacks. *)
Record execute_args : Type := mkExecute {
  arg_endtime : option Q;
  arg_runtime : option Q;
  arg_dt : Q;
  arg_moviedt : option Q;
  arg_output_file : option xQ;
  arg_postIterationCallbacks : option nat;
  arg_callbackdt : option Q
}.

(** What [execute] asks of its collaborators, in order. *)
Inductive event : Type :=
| KernelExecute (endtime : xQ) (dt : Q) (execute_once : bool)
| OutputWrite (time : xQ)
| Show (time : xQ)
| Callback (k : nat)
| Release (time : xQ).

Definition is_Some_b {A} (o : option A) : bool :=
  match o with Some _ => true | None => false end.

Definition is_kernel_call (e : event) : bool :=
  match e with KernelExecute _ _ _ => true | _ => false end.

(** The variables of the loop. *)
Record loop_state : Type := mkLoop {
  pset : ParticleSet;
  lastID : Z;
  now : xQ;                 (* [time] *)
  next_prelease : xQ;
  next_input : xQ;
  next_output : xQ;
  next_movie : xQ;
  next_callback : xQ;
  trace : list event
}.

Definition add_events (st : loop_state) (es : list event) : loop_state :=
  mkLoop (pset st) (lastID st) (now st) (next_prelease st) (next_input st)
    (next_output st) (next_movie st) (next_callback st) (trace st ++ es).

Definition map_particles (f : Particle -> Particle) (s : ParticleSet) : ParticleSet :=
  set_plist s (map (map f) (_plist s)).

Definition set_time (t : option Q) (p : Particle) : Particle :=
  mkParticle (id p) (lon p) (lat p) (depth p) t (dt p).

Definition set_dt (d : Q) (p : Particle) : Particle :=
  mkParticle (id p) (lon p) (lat p) (depth p) (time p) d.

Definition set_repeat_starttime (s : ParticleSet) (t : option (option Q)) : ParticleSet :=
  mkParticleSet (_plist s) (_pid_mapping_bounds s) (nlist_limit s)
    (repeatdt s) t (repeat_template s).

Section Execute.

(** The collaborators: the kernel, the field set's input window and
    its time and depth ranges, and the floor division of two floats. *)
Variable kernel_execute : ParticleSet -> xQ -> Q -> bool -> outcome ParticleSet.
Variable computeTimeChunk : xQ -> Q -> xQ.
Variables mintime maxtime mindepth : Q.
Variable floordiv : Q -> Q -> Q.

(** The release of the loop body: a new set from the template, stamped
    with [dt], added to the set. *)
Definition release (st : loop_state) (time : Q) (dt : Q) : outcome loop_state :=
  match repeat_template (pset st) with
  | None => Raise AttributeError
  | Some tpl =>
      '(pset_new, lastID') ←
        ParticleSet_init mindepth (lastID st)
          (mkInit (repeatlon tpl) (repeatlat tpl) (Some (repeatdepth tpl))
             [Some time] None (Some (repeatpid tpl)));
      let pset_new := map_particles (set_dt dt) pset_new in
      Ok (mkLoop (add (pset st) pset_new) lastID' (now st)
            (next_prelease st) (next_input st) (next_output st)
            (next_movie st) (next_callback st)
            (trace st ++ [Release (Fin time)]))
  end.

(** One pass through the body of the [while] loop. *)
Definition loop_body (a : execute_args) (dt : Q) (endtime : Q)
    (outputdt moviedt callbackdt : xQ) (execute_once : bool)
    (st : loop_state) : outcome loop_state :=
  let tol := (1 # 1000000000000)%Q in
  let others := [next_input st; next_output st; next_movie st;
                 next_callback st; Fin endtime] in
  let time :=
    if Qltb 0 dt then foldl xQ_min (next_prelease st) others
    else foldl xQ_max (next_prelease st) others in
  s ← kernel_execute (pset st) time dt execute_once;
  let st := mkLoop s (lastID st) time (next_prelease st) (next_input st)
              (next_output st) (next_movie st) (next_callback st)
              (trace st ++ [KernelExecute time dt execute_once]) in
  st ← (if within tol time (next_prelease st) then
          match time, repeatdt (pset st) with
          | Fin t, Some r =>
              st ← release st t dt;
              Ok (mkLoop (pset st) (lastID st) (now st)
                    (xQ_add (r * sign dt) (next_prelease st))
                    (next_input st) (next_output st) (next_movie st)
                    (next_callback st) (trace st))
          | Fin _, None => Raise AttributeError
          | _, _ => Raise TypeError
          end
        else Ok st);
  let st :=
    if within tol time (next_output st) then
      mkLoop (pset st) (lastID st) (now st) (next_prelease st) (next_input st)
        (match outputdt, next_output st with
         | Fin o, Fin n => Fin (n + o * sign dt)
         | _, n => n
         end)
        (next_movie st) (next_callback st)
        (trace st ++ (if is_Some_b (arg_output_file a) then [OutputWrite time] else []))
    else st in
  let st :=
    if within tol time (next_movie st) then
      mkLoop (pset st) (lastID st) (now st) (next_prelease st) (next_input st)
        (next_output st)
        (match moviedt, next_movie st with
         | Fin m, Fin n => Fin (n + m * sign dt)
         | _, n => n
         end)
        (next_callback st) (trace st ++ [Show time])
    else st in
  let st :=
    if within tol time (next_callback st) then
      mkLoop (pset st) (lastID st) (now st) (next_prelease st) (next_input st)
        (next_output st) (next_movie st)
        (match callbackdt, next_callback st with
         | Fin c, Fin n => Fin (n + c * sign dt)
         | _, n => n
         end)
        (trace st ++ match arg_postIterationCallbacks a with
                     | Some k => Callback <$> seq 0 k
                     | None => []
                     end)
    else st in
  Ok (if xQ_eqb time (Fin endtime) then st
      else mkLoop (pset st) (lastID st) (now st) (next_prelease st)
             (computeTimeChunk time dt) (next_output st) (next_movie st)
             (next_callback st) (trace st)).

(** The [while] loop; [fuel] bounds the number of passes.
<<
  while (time < endtime and dt > 0) or (time > endtime and dt < 0) or dt == 0:
      ...
      if dt == 0:
          break
>> *)
Fixpoint step_loop (fuel : nat) (a : execute_args) (dt : Q) (endtime : Q)
    (outputdt moviedt callbackdt : xQ) (execute_once : bool)
    (st : loop_state) : outcome loop_state :=
  if (xQ_ltb (now st) (Fin endtime) && Qltb 0 dt)
     || (xQ_ltb (Fin endtime) (now st) && Qltb dt 0)
     || Qeq_bool dt 0 then
    match fuel with
    | O => Loops
    | S fuel' =>
        st ← loop_body a dt endtime outputdt moviedt callbackdt execute_once st;
        if Qeq_bool dt 0 then Ok st
        else step_loop fuel' a dt endtime outputdt moviedt callbackdt
               execute_once st
    end
  else Ok st.

(** [min] or [max] of the particle times; [ValueError] on an empty
    set, [TypeError] on a NaN that was not replaced. *)
Definition extreme_time (forward : bool) (s : ParticleSet) : outcome Q :=
  ts ← traverse (fun p => match time p with
                          | Some t => Ok t
                          | None => Raise TypeError
                          end) (concat (_plist s));
  match ts with
  | [] => Raise ValueError
  | t :: ts =>
      Ok (foldl (fun m t => if forward then (if Qltb t m then t else m)
                            else (if Qltb m t then t else m)) t ts)
  end.

(** [endtime] as derived from the arguments and the start time. *)
Definition derived_endtime (a : execute_args) (_starttime : Q) : Q :=
  match arg_runtime a, arg_endtime a with
  | Some r, _ => (_starttime + r * sign (arg_dt a))%Q
  | None, Some e => e
  | None, None => if Qle_bool 0 (arg_dt a) then maxtime else mintime
  end.

(** [abs(endtime-_starttime) < 1e-5 or dt == 0 or runtime == 0] *)
Definition single_shot (a : execute_args) (_starttime : Q) : bool :=
  negb (Qle_bool (1 # 100000) (Qabs (derived_endtime a _starttime - _starttime)))
  || Qeq_bool (arg_dt a) 0
  || match arg_runtime a with
     | Some r => Qeq_bool r 0
     | None => false
     end.

(** What [execute] has fixed when it enters the loop. *)
Record schedule : Type := mkSchedule {
  sch_starttime : Q;
  sch_dt : Q;
  sch_endtime : Q;
  sch_outputdt : xQ;
  sch_moviedt : xQ;
  sch_callbackdt : xQ;
  sch_execute_once : bool;
  sch_state : loop_state
}.

(** [execute] up to the [while] loop. *)
Definition prepare (s : ParticleSet) (lastID0 : Z) (a : execute_args)
  : outcome schedule :=
  let dt := arg_dt a in
  let outputdt := default PosInf (arg_output_file a) in
  _ ← py_assert (match arg_runtime a with Some r => Qle_bool 0 r | None => true end);
  _ ← py_assert (xQ_leb (Fin 0) outputdt);
  _ ← py_assert (match arg_moviedt a with Some m => Qle_bool 0 m | None => true end);
  let s := map_particles
             (fun p => match time p with
                       | None => set_time (Some (if Qle_bool 0 dt then mintime
                                                 else maxtime)) p
                       | Some _ => p
                       end) s in
  _ ← (match arg_runtime a, arg_endtime a with
       | Some _, Some _ => Raise RuntimeError
       | _, _ => Ok tt
       end);
  _starttime ← extreme_time (Qle_bool 0 dt) s;
  s ← match repeatdt s with
      | Some _ =>
          match repeat_starttime s with
          | None => Raise AttributeError
          | Some None => Ok (set_repeat_starttime s (Some (Some _starttime)))
          | Some (Some _) => Ok s
          end
      | None => Ok s
      end;
  let endtime := derived_endtime a _starttime in
  let execute_once := single_shot a _starttime in
  let dt := if execute_once then 0%Q else dt in
  let endtime := if execute_once then _starttime else endtime in
  let s := map_particles (set_dt dt) s in
  let tr := if is_Some_b (arg_output_file a) then [OutputWrite (Fin _starttime)]
            else [] in
  let tr := tr ++ match arg_moviedt a with
                  | Some m => if Qeq_bool m 0 then [] else [Show (Fin _starttime)]
                  | None => []
                  end in
  let moviedt := match arg_moviedt a with Some m => Fin m | None => PosInf end in
  let callbackdt :=
    match arg_callbackdt a with
    | Some c => Fin c
    | None =>
        foldl xQ_min PosInf
          ([moviedt; outputdt]
           ++ match repeatdt s with Some r => [Fin r] | None => [] end)
    end in
  let time := _starttime in
  next_prelease ←
    match repeatdt s with
    | Some r =>
        if Qeq_bool r 0 then Ok (if Qltb 0 dt then PosInf else NegInf)
        else
          match repeat_starttime s with
          | Some (Some rs) =>
              Ok (Fin (rs + (floordiv (Qabs (time - rs)) r + 1) * r * sign dt))
          | _ => Raise AttributeError
          end
    | None => Ok (if Qltb 0 dt then PosInf else NegInf)
    end;
  let next_output := if Qltb 0 dt then xQ_add time outputdt else xQ_sub time outputdt in
  let next_movie := if Qltb 0 dt then xQ_add time moviedt else xQ_sub time moviedt in
  let next_callback :=
    if Qltb 0 dt then xQ_add time callbackdt else xQ_sub time callbackdt in
  let next_input := computeTimeChunk (Fin time) (sign dt) in
  Ok (mkSchedule _starttime dt endtime outputdt moviedt callbackdt execute_once
        (mkLoop s lastID0 (Fin time) next_prelease next_input next_output
           next_movie next_callback tr)).

(** [execute]: the preparation, the loop, the last write.  Returns the
    final loop variables and the start time. *)
Definition execute (fuel : nat) (s : ParticleSet) (lastID0 : Z) (a : execute_args)
  : outcome (loop_state * Q) :=
  sch ← prepare s lastID0 a;
  st ← step_loop fuel a (sch_dt sch) (sch_endtime sch) (sch_outputdt sch)
         (sch_moviedt sch) (sch_callbackdt sch) (sch_execute_once sch)
         (sch_state sch);
  Ok (add_events st
        (if is_Some_b (arg_output_file a) then [OutputWrite (now st)] else []),
      sch_starttime sch).

End Execute.

(** ** The data-model invariant *)

(** A summary fits its bracket when the cached size is the length of the
    array and, for a non-empty bracket, the two bounds enclose every
    identity in it. *)
Definition summary_ok (arr : list Particle) (info : bracket_info) : Prop :=
  info_size info = Z.of_nat (length arr)
  /\ (0 < info_size info ->
      Forall (fun p => info_min info <= id p <= info_max info) arr).

Definition store_invariant (s : ParticleSet) : Prop :=
  Forall2 summary_ok (_plist s) (_pid_mapping_bounds s).

#[global] Instance summary_ok_dec arr info : Decision (summary_ok arr info).
Proof. unfold summary_ok. apply _. Defined.

#[global] Instance store_invariant_dec s : Decision (store_invariant s).
Proof. unfold store_invariant. apply _. Defined.

(** ** Sets built by the constructor, used in the examples *)

(** [n] particles on the equator at longitudes [0, 1, ...], time [0]. *)
Definition line (n : nat) : init_args :=
  mkInit (inject_Z <$> seqZ 0 (Z.of_nat n)) (replicate n 0%Q) None [Some 0%Q] None None.

(** A set of one particle with a set of two particles added to it. *)
Definition one_plus_two : outcome ParticleSet :=
  '(p, lastID) ← ParticleSet_init 0 0 (line 1);
  '(q, _) ← ParticleSet_init 0 lastID (line 2);
  Ok (add p q).

(** A set of two particles with two sets of one particle added to it. *)
Definition two_plus_one_plus_one : outcome ParticleSet :=
  '(p, lastID) ← ParticleSet_init 0 0 (line 2);
  '(q, lastID) ← ParticleSet_init 0 lastID (line 1);
  '(r, _) ← ParticleSet_init 0 lastID (line 1);
  Ok (add (add p q) r).

(** A set of one particle whose particle was removed, with a set of one
    particle added to it: the first bracket is empty. *)
Definition emptied_plus_one : outcome ParticleSet :=
  '(p, lastID) ← ParticleSet_init 0 0 (line 1);
  p ← remove p (IdxInt 0);
  '(q, _) ← ParticleSet_init 0 lastID (line 1);
  Ok (add p q).

(** A set of one particle [h] to which are added a set [p] of one
    particle, a set of 2048 particles, and [p] once more; then the only
    record of the last bracket is removed. *)
Definition readded_then_removed : outcome (ParticleSet * ParticleSet) :=
  '(h, lastID) ← ParticleSet_init 0 0 (line 1);
  '(p, lastID) ← ParticleSet_init 0 lastID (line 1);
  '(b, _) ← ParticleSet_init 0 lastID (line 2048);
  let s := add (add (add h p) b) p in
  s' ← remove s (IdxList [None; None; None; Some [0]]);
  Ok (s, s').

(** Five particles in brackets of sizes 2 and 3, seven particles in
    brackets of sizes 3, 2 and 2. *)
Definition two_plus_three : outcome ParticleSet :=
  '(p, lastID) ← ParticleSet_init 0 0 (line 2);
  '(q, _) ← ParticleSet_init 0 lastID (line 3);
  Ok (add p q).

Definition three_plus_two_plus_two : outcome ParticleSet :=
  '(p, lastID) ← ParticleSet_init 0 0 (line 3);
  '(q, lastID) ← ParticleSet_init 0 lastID (line 2);
  '(r, _) ← ParticleSet_init 0 lastID (line 2);
  Ok (add (add p q) r).

(** Two kernels and a field set for the examples: [advance] moves every
    particle to the end of the span, [idle] leaves the set as it is, and
    [no_input] is a field set with nothing left to load.
    [exact_floordiv] is the floor of the exact quotient, which is what
    [//] gives on floats whose quotient is an integer, as in the
    examples. *)
Definition advance (s : ParticleSet) (endtime : xQ) (dt : Q) (execute_once : bool)
  : outcome ParticleSet :=
  Ok (match endtime with
      | Fin t => map_particles (set_time (Some t)) s
      | _ => s
      end).

Definition idle (s : ParticleSet) (endtime : xQ) (dt : Q) (execute_once : bool)
  : outcome ParticleSet := Ok s.

Definition no_input (time : xQ) (dt : Q) : xQ :=
  if Qltb 0 dt then PosInf else NegInf.

Definition exact_floordiv (x y : Q) : Q := inject_Z (Qfloor (x / y)).

(** Two particles released at time 0 and again every 5 seconds, run
    backward for 10 seconds with [dt = -1]; then [execute] is called
    with [dt = 0]. *)
Definition backward_then_single_shot : outcome (loop_state * Q) :=
  '(s, lastID0) ← ParticleSet_init 0 0
                    (mkInit [0; 1]%Q [0; 0]%Q None [Some 0%Q] (Some 5%Q) None);
  '(st, _) ← execute advance no_input 0 100 0 exact_floordiv 10 s lastID0
               (mkExecute None (Some 10%Q) (- (1)) None None None None);
  execute idle no_input 0 100 0 exact_floordiv 10 (pset st) (lastID st)
    (mkExecute None None 0 None None None None).

(** ** Vocabulary of the statements *)

(** The records carrying identity [pid], in global-index order. *)
Definition carriers (s : ParticleSet) (pid : Z) : list Particle :=
  filter (fun p => id p = pid) (concat (_plist s)).

(** The cached bounds of a bracket admit an identity. *)
Definition admits (info : bracket_info) (pid : Z) : Prop :=
  info_min info <= pid <= info_max info.

#[global] Instance admits_dec info pid : Decision (admits info pid).
Proof. unfold admits. apply _. Defined.

(** The number of removals a request asks for. *)
Definition requested_in (lindices : list (option (list Z))) : nat :=
  foldr (fun o n => (length (default [] o) + n)%nat) 0%nat lindices.

Definition requested (indices : indices_arg) : nat :=
  match indices with
  | IdxInt _ => 1
  | IdxArray gindices => length gindices
  | IdxList lindices => requested_in lindices
  end.

(** What a request takes from one bracket, and what it leaves. *)
Definition at_slot (arr : list Particle) (i : Z) : option Particle :=
  norm_index (length arr) i ≫= fun k => arr !! k.

Definition picked (arr : list Particle) (o : option (list Z)) : list Particle :=
  match o with
  | None => []
  | Some local_indices => omap (at_slot arr) local_indices
  end.

Definition kept (arr : list Particle) (o : option (list Z)) : list Particle :=
  match o with
  | None => arr
  | Some local_indices =>
      drop_positions (omap (norm_index (length arr)) local_indices) 0 arr
  end.

Definition in_range (arr : list Particle) (i : Z) : Prop :=
  - Z.of_nat (length arr) <= i < Z.of_nat (length arr).

(** A request on a bracket that names slots of the bracket only and
    leaves at least one record in it. *)
Definition request_ok (arr : list Particle) (o : option (list Z)) : Prop :=
  match o with
  | None => True
  | Some local_indices =>
      local_indices <> [] /\ Forall (in_range arr) local_indices /\ kept arr o <> []
  end.

#[global] Instance request_ok_dec arr o : Decision (request_ok arr o).
Proof. unfold request_ok, in_range. destruct o; apply _. Defined.

(** The records of a request, bracket by bracket. *)
Definition picked_by_bracket (pl : list (list Particle))
    (lindices : list (option (list Z))) : list Particle :=
  concat (zip_with picked pl lindices).

Definition nonempty_brackets (s : ParticleSet) : Prop :=
  Forall (fun arr => arr <> []) (_plist s).

#[global] Instance nonempty_brackets_dec s : Decision (nonempty_brackets s).
Proof. unfold nonempty_brackets. apply _. Defined.

(** What the loop of [pop] has gathered after a request that found
    [picks], starting from [result]. *)
Definition gathered (result : option (list Particle))
    (lindices : list (option (list Z))) (picks : list Particle)
  : option (list Particle) :=
  match result with
  | Some r => Some (r ++ picks)
  | None => if (requested_in lindices =? 0)%nat then None else Some picks
  end.

(** An entry found by the scan of [_merge_brackets_] names a bracket of
    the store together with its array. *)
Definition entry_ok (s : ParticleSet) (o : option (Z * list Particle)) : Prop :=
  match o with
  | Some (i, arr) => exists k : nat, i = Z.of_nat k /\ _plist s !! k = Some arr
  | None => True
  end.

(** A global index of a request resolves to bracket [loc.1], slot
    [loc.2]: the wraparound of [pop] followed by
    [get_list_array_index]. *)
Definition resolves (s : ParticleSet) (gindex : Z) (loc : nat * Z) : Prop :=
  exists g, wrap_gindex (size s) gindex = Ok g
            /\ get_list_array_index s (PInt g) = Ok (Location (Z.of_nat loc.1) loc.2).

(** The slots of the locations that fall in bracket [b], in the order
    of the request. *)
Definition slots_in (b : nat) (locs : list (nat * Z)) : list Z :=
  snd <$> filter (fun loc => loc.1 = b) locs.

Definition slots_of (o : option (list Z)) : list Z := default [] o.

(** The request on a bracket names no slot twice, once negative slots
    are counted from the end. *)
Definition distinct_slots (arr : list Particle) (o : option (list Z)) : Prop :=
  NoDup (omap (norm_index (length arr)) (slots_of o)).

#[global] Instance distinct_slots_dec arr o : Decision (distinct_slots arr o).
Proof. unfold distinct_slots. apply _. Defined.

(** What holds of an array and its summary while the constructor fills
    the array. *)
Definition filling_ok (arr : list (option Particle)) (info : bracket_info) : Prop :=
  info_size info = Z.of_nat (length arr)
  /\ forall p, Some p ∈ arr -> info_min info <= id p <= info_max info.

(** ** Further methods of the class *)

(** [__len__] *)
Definition __len__ (s : ParticleSet) : Z := size s.

(** [__iadd__]: [add], and the set itself is handed back. *)
Definition __iadd__ (s particles : ParticleSet) : ParticleSet := add s particles.

(** The key of [__setitem__] is any Python value; the method asserts
    that it is a tuple of length two. *)
Inductive key_arg : Type :=
| KeyInt (key : Z)
| KeyTuple (key : list Z).

(** [__setitem__]: [self._plist[key[0]][key[1]] = value].  The summaries
    are not touched. *)
Definition __setitem__ (s : ParticleSet) (key : key_arg) (value : Particle)
  : outcome ParticleSet :=
  match key with
  | KeyTuple [bracket_index; slot_index] =>
      arr ← py_getitem (_plist s) bracket_index;
      arr ← py_setitem arr slot_index value;
      pl ← py_setitem (_plist s) bracket_index arr;
      Ok (set_plist s pl)
  | _ => Raise AssertionError
  end.

(** [a[i:j]] on a one-dimensional array: a negative bound counts from
    the end, and both bounds are clipped to the array. *)
Definition py_slice {A} (l : list A) (i j : Z) : list A :=
  let n := Z.of_nat (length l) in
  let clip := fun k => if k <? 0 then Z.max 0 (k + n) else Z.min k n in
  take (Z.to_nat (clip j - clip i)) (drop (Z.to_nat (clip i)) l).

(** The loop of [covert_static_array_to_list_array]:
<<
    while start_index < property_array.shape[0]:
        results.append(np.array(property_array[start_index:min(end_index, property_array.shape[0])]))
        start_index = end_index
        end_index = start_index+self._pid_mapping_bounds[bracket_index][2]
        bracket_index += 1
>> *)
Fixpoint slice_loop {A} (fuel : nat) (bounds : list bracket_info)
    (property_array : list A) (results : list (list A))
    (bracket_index start_index end_index : Z) : outcome (list (list A)) :=
  if start_index <? Z.of_nat (length property_array) then
    match fuel with
    | O => Loops
    | S fuel' =>
        let results :=
          results ++ [py_slice property_array start_index
                        (Z.min end_index (Z.of_nat (length property_array)))] in
        let start_index := end_index in
        info ← py_getitem bounds bracket_index;
        let end_index := start_index + info_size info in
        slice_loop fuel' bounds property_array results
          (bracket_index + 1) start_index end_index
    end
  else Ok results.

(** [covert_static_array_to_list_array]: one array of per-particle
    values cut into one array per bracket. *)
Definition covert_static_array_to_list_array {A} (s : ParticleSet)
    (property_array : list A) : outcome (list (list A)) :=
  let nparticles := foldl (fun n b => n + info_size b) 0 (_pid_mapping_bounds s) in
  _ ← py_assert (Z.of_nat (length property_array) =? nparticles);
  let bracket_index := 0 in
  let start_index := 0 in
  info ← py_getitem (_pid_mapping_bounds s) bracket_index;
  let end_index := info_size info in
  slice_loop (S (length (_pid_mapping_bounds s))) (_pid_mapping_bounds s)
    property_array [] bracket_index start_index end_index.

(** [convert_list_of_arrays_to_static_list]: the entries of the arrays
    that are not [None], in order. *)
Definition convert_list_of_arrays_to_static_list {A} (pset : list (option (list A)))
  : list A :=
  concat (omap (fun sublist => sublist) pset).

(** ** Vocabulary of the further statements *)

(** The arrays the constructor works on, and the record it makes of
    their [i]-th entries. *)
Definition pid_of (lastID : Z) (a : init_args) : list Z :=
  (fun k => k + lastID) <$> default (seqZ 0 (Z.of_nat (length (arg_lon a)))) (arg_pid_orig a).

Definition depth_of (mindepth : Q) (a : init_args) : list Q :=
  default (replicate (length (arg_lon a)) (1 * mindepth)%Q) (arg_depth a).

Definition time_of (a : init_args) : list (option Q) :=
  match arg_time a with
  | [t] => replicate (length (arg_lon a)) t
  | ts => ts
  end.

Definition record_of (mindepth : Q) (lastID : Z) (a : init_args) (i : nat)
  : option Particle :=
  k ← pid_of lastID a !! i;
  x ← arg_lon a !! i;
  y ← arg_lat a !! i;
  z ← depth_of mindepth a !! i;
  t ← time_of a !! i;
  Some (mkParticle k x y z t 0).

Definition records_of (mindepth : Q) (lastID : Z) (a : init_args) : list Particle :=
  omap (record_of mindepth lastID a) (seq 0 (length (arg_lon a))).

(** Arguments of the constructor whose arrays all have the length of
    [lon]; a [time] of one entry stands for that entry repeated. *)
Definition well_shaped (a : init_args) : Prop :=
  let n := length (arg_lon a) in
  length (arg_lat a) = n
  /\ default n (length <$> arg_depth a) = n
  /\ length (time_of a) = n
  /\ default n (length <$> arg_pid_orig a) = n.

#[global] Instance well_shaped_dec a : Decision (well_shaped a).
Proof. unfold well_shaped. apply _. Defined.

(** An entry found by the scan names a bracket whose cached size is
    below the bound. *)
Definition small_entry (s : ParticleSet) (lw : Z) (o : option (Z * list Particle)) : Prop :=
  match o with
  | Some (i, _) => exists info, py_getitem (_pid_mapping_bounds s) i = Ok info
                                /\ info_size info < lw
  | None => True
  end.


(** Whether the cached size of bracket [i] is below the bound. *)
Definition undersized (s : ParticleSet) (lw : Z) (i : Z) : bool :=
  match py_getitem (_pid_mapping_bounds s) i with
  | Ok info => info_size info <? lw
  | _ => false
  end.


(** What an event of the stepping loop may be in a run with time step
    [dt] towards [endtime]: a kernel call carries [dt] and the
    single-shot flag and does not go past [endtime], and an output is
    written only to an output file. *)
Definition loop_event_ok (a : execute_args) (dt endtime : Q) (once : bool)
    (e : event) : Prop :=
  match e with
  | KernelExecute t d o =>
      d = dt /\ o = once
      /\ (if Qltb 0 dt then xQ_leb t (Fin endtime) else xQ_leb (Fin endtime) t) = true
  | OutputWrite _ => is_Some_b (arg_output_file a) = true
  | _ => True
  end.

Definition is_write (e : event) : bool :=
  match e with OutputWrite _ => true | _ => false end.


(** * Properties *)

(** ** The outcome monad and the indexing primitives *)

Lemma bind_Ok {A B} (m : outcome A) (f : A -> outcome B) (b : B) :
  m ≫= f = Ok b -> exists a, m = Ok a /\ f a = Ok b.
Proof. destruct m as [a| |]; simpl; intros H; try discriminate. by exists a. Qed.

Lemma bind_ret {A B} (a : A) (f : A -> outcome B) : Ok a ≫= f = f a.
Proof. reflexivity. Qed.

Lemma norm_index_lt n i k : norm_index n i = Some k -> (k < n)%nat.
Proof.
  unfold norm_index. intros H.
  destruct (0 <=? i) eqn:E1, (i <? Z.of_nat n) eqn:E2; simpl in H;
    try (injection H as <-; lia);
    destruct (- Z.of_nat n <=? i) eqn:E3, (i <? 0) eqn:E4; simpl in H;
    try discriminate; injection H as <-; lia.
Qed.

Lemma norm_index_nat n (k : nat) : (k < n)%nat -> norm_index n (Z.of_nat k) = Some k.
Proof.
  intros H. unfold norm_index.
  destruct (0 <=? Z.of_nat k) eqn:E1; [|lia].
  destruct (Z.of_nat k <? Z.of_nat n) eqn:E2; [|lia].
  simpl. by rewrite Nat2Z.id.
Qed.

Lemma norm_index_nat_ge n (k : nat) : (n <= k)%nat -> norm_index n (Z.of_nat k) = None.
Proof.
  intros H. unfold norm_index.
  destruct (Z.of_nat k <? Z.of_nat n) eqn:E2; [lia|].
  destruct (Z.of_nat k <? 0) eqn:E3; [lia|].
  by rewrite !andb_false_r.
Qed.

Lemma norm_index_neg n i :
  - Z.of_nat n <= i < 0 -> norm_index n i = Some (Z.to_nat (i + Z.of_nat n)).
Proof.
  intros H. unfold norm_index.
  destruct (0 <=? i) eqn:E1; [lia|].
  destruct (- Z.of_nat n <=? i) eqn:E3; [|lia].
  destruct (i <? 0) eqn:E4; [|lia]. done.
Qed.

Lemma py_getitem_nat {A} (l : list A) (k : nat) x :
  l !! k = Some x -> py_getitem l (Z.of_nat k) = Ok x.
Proof.
  intros H. unfold py_getitem.
  rewrite norm_index_nat; [by rewrite H|]. by eapply lookup_lt_Some.
Qed.

Lemma py_getitem_nat_ge {A} (l : list A) (k : nat) :
  (length l <= k)%nat -> py_getitem l (Z.of_nat k) = Raise IndexError.
Proof. intros H. unfold py_getitem. by rewrite norm_index_nat_ge. Qed.

Lemma py_getitem_Ok {A} (l : list A) i x :
  py_getitem l i = Ok x ->
  exists k, norm_index (length l) i = Some k /\ l !! k = Some x.
Proof.
  unfold py_getitem. destruct (norm_index (length l) i) as [k|]; [|done].
  destruct (l !! k) eqn:E; [|done]. intros [= <-]. eauto.
Qed.

Lemma py_getitem_not_Loops {A} (l : list A) i : py_getitem l i <> Loops.
Proof.
  unfold py_getitem. destruct (norm_index (length l) i) as [k|]; [|done].
  by destruct (l !! k).
Qed.

Lemma py_getitem_last {A} (l : list A) x : py_getitem (l ++ [x]) (-1) = Ok x.
Proof.
  unfold py_getitem. rewrite norm_index_neg.
  - rewrite length_app. simpl.
    replace (Z.to_nat (-1 + Z.of_nat (length l + 1))) with (length l) by lia.
    by rewrite list_lookup_middle.
  - rewrite length_app. simpl. lia.
Qed.

Lemma py_setitem_nat {A} (l : list A) (k : nat) x :
  (k < length l)%nat -> py_setitem l (Z.of_nat k) x = Ok (<[k := x]> l).
Proof. intros H. unfold py_setitem. by rewrite norm_index_nat. Qed.

Lemma py_delitem_nat {A} (l : list A) (k : nat) :
  (k < length l)%nat -> py_delitem l (Z.of_nat k) = Ok (delete k l).
Proof. intros H. unfold py_delitem. by rewrite norm_index_nat. Qed.

(** ** The walk over the cached sizes *)

(** The walk reads one more summary on every pass and stops with
    [IndexError] past the last one: it never runs for ever. *)
Lemma index_walk_total fuel bounds pdata (b : nat) start_index end_index :
  (b <= length bounds < fuel + b)%nat ->
  index_walk fuel bounds pdata (Z.of_nat b) start_index end_index <> Loops.
Proof.
  revert b start_index end_index.
  induction fuel as [|fuel IH]; intros b st en Hlen; simpl.
  - destruct (pdata >=? en); [|done].
    exfalso. lia.
  - destruct (pdata >=? en); [|done].
    destruct (decide (b < length bounds)%nat) as [Hb|Hb].
    + destruct (lookup_lt_is_Some_2 bounds b Hb) as [info Hi].
      rewrite (py_getitem_nat _ _ _ Hi). simpl.
      replace (Z.of_nat b + 1) with (Z.of_nat (S b)) by lia.
      apply IH. lia.
    + rewrite py_getitem_nat_ge by lia. done.
Qed.

Lemma get_list_array_index_int_total s pdata :
  get_list_array_index s (PInt pdata) <> Loops.
Proof.
  unfold get_list_array_index.
  destruct (py_getitem (_pid_mapping_bounds s) 0) as [info| |] eqn:E;
    [|done|by apply py_getitem_not_Loops in E].
  pose proof (index_walk_total (S (length (_pid_mapping_bounds s)))
                (_pid_mapping_bounds s) pdata 0 0 (info_size info)) as H.
  change (Z.of_nat 0) with 0 in H.
  unfold mbind, outcome_bind.
  destruct (index_walk _ _ _ _ _ _) as [[[b st] en]| |]; try done.
  intros _. apply H; [lia|done].
Qed.

(** The other loops that run on fuel never exhaust it. *)
Lemma bracket_walk_total fuel s pid (b : nat) info :
  (length (_plist s) <= fuel + b)%nat ->
  bracket_walk fuel s pid (Z.of_nat b) info <> Loops.
Proof.
  revert b info. induction fuel as [|fuel IH]; intros b info Hfuel; simpl.
  - destruct (Z.of_nat b <? Z.of_nat (length (_plist s))) eqn:E; [lia|done].
  - destruct (_ && _); [|done].
    replace (Z.of_nat b + 1) with (Z.of_nat (S b)) by lia.
    destruct (py_getitem (_pid_mapping_bounds s) (Z.of_nat (S b))) as [i| |] eqn:E;
      simpl; [|done|by apply py_getitem_not_Loops in E].
    apply IH. lia.
Qed.

Lemma alloc_brackets_total fuel n limit start_index end_index sizes :
  0 < limit -> start_index = end_index ->
  n - end_index < Z.of_nat fuel ->
  alloc_brackets fuel n limit start_index end_index sizes <> Loops.
Proof.
  intros Hlimit. revert start_index end_index sizes.
  induction fuel as [|fuel IH]; intros st en sizes Hst Hfuel; simpl.
  - destruct (en <? n) eqn:E; [lia|done].
  - destruct (en <? n) eqn:E; [|done]. apply IH; [done|]. subst st. lia.
Qed.

(** ** The invariant and [size] *)

Lemma store_invariant_length s :
  store_invariant s -> length (_pid_mapping_bounds s) = length (_plist s).
Proof. intros H. symmetry. by eapply Forall2_length. Qed.

Lemma size_foldl (bs : list bracket_info) (n : Z) :
  foldl (fun n b => n + info_size b) n bs
  = n + foldr (fun b n => info_size b + n) 0 bs.
Proof.
  revert n. induction bs as [|b bs IH]; intros n; simpl; [lia|].
  rewrite IH. lia.
Qed.

(** Under the invariant [size] is the number of records. *)
Lemma size_is_length s :
  store_invariant s -> size s = Z.of_nat (length (concat (_plist s))).
Proof.
  unfold store_invariant, size. rewrite size_foldl.
  generalize (_plist s) (_pid_mapping_bounds s).
  induction 1 as [|arr info pl bs [Hs _] _ IH]; simpl; [done|].
  rewrite length_app. simpl in IH. lia.
Qed.

(** ** C1: resolving a global index *)

(** C1 (code defect).  The claim: for [0 <= i < size] the walk over the
    cached sizes returns the bracket and slot of the [i]-th record of the
    concatenation, and fails for [i >= size].  The walk adds the size of
    the bracket it leaves, not of the bracket it enters.  On a set of one
    particle to which a set of two was added, global index [2] is the
    record in bracket 1, slot 1; [get_list_array_index] answers bracket 2,
    slot 0, and [__getitem__] raises.  On brackets of sizes 2, 1, 1 the
    key [4], equal to [size], is answered with the last record. *)
Theorem get_list_array_index_adds_size_of_bracket_left :
  (s ← one_plus_two;
   Ok (size s, id <$> convert_pset_to_static_list s !! 2%nat,
       id <$> (_plist s !! 1%nat ≫= fun arr => arr !! 1%nat)))
    = Ok (3, Some 2, Some 2)
  /\ (s ← one_plus_two; get_list_array_index s (PInt 2)) = Ok (Location 2 0)
  /\ (s ← one_plus_two; __getitem__ s 2) = Raise IndexError
  /\ (s ← two_plus_one_plus_one; Ok (size s)) = Ok 4
  /\ (s ← two_plus_one_plus_one; get_list_array_index s (PInt 4))
       = Ok (Location 2 0)
  /\ (s ← two_plus_one_plus_one; p ← __getitem__ s 4; Ok (id p)) = Ok 3.
Proof. repeat split; vm_compute; reflexivity. Qed.

(** ** Where the walk is right *)

(** As long as the brackets the walk leaves all have the size [c] of
    bracket 0, its variables after [n] passes are those of the true
    cumulative sum. *)
Lemma index_walk_equal_sizes bounds c pdata (n b : nat) fuel :
  (n <= fuel)%nat ->
  (forall j, (b <= j < b + n)%nat ->
     exists info, bounds !! j = Some info /\ info_size info = c) ->
  Z.of_nat (b + n) * c <= pdata < Z.of_nat (b + n + 1) * c ->
  0 < c ->
  index_walk fuel bounds pdata (Z.of_nat b) (Z.of_nat b * c) (Z.of_nat (b + 1) * c)
  = Ok (Z.of_nat (b + n), Z.of_nat (b + n) * c, Z.of_nat (b + n + 1) * c).
Proof.
  revert b fuel. induction n as [|n IH]; intros b fuel Hfuel Hsizes Hpdata Hc.
  - rewrite Nat.add_0_r in *.
    assert ((pdata >=? Z.of_nat (b + 1) * c) = false) as E.
    { set (x := Z.of_nat (b + 1) * c) in *. lia. }
    destruct fuel; simpl; by rewrite E.
  - destruct fuel as [|fuel]; [lia|]. simpl.
    assert (Z.of_nat (b + 1) * c <= Z.of_nat (b + S n) * c) as Hmono
      by (apply Z.mul_le_mono_nonneg_r; lia).
    assert ((pdata >=? Z.of_nat (b + 1) * c) = true) as E.
    { set (x := Z.of_nat (b + 1) * c) in *. set (y := Z.of_nat (b + S n) * c) in *.
      lia. }
    rewrite E.
    destruct (Hsizes b) as (info & Hinfo & Hsize); [lia|].
    rewrite (py_getitem_nat _ _ _ Hinfo), bind_ret, Hsize.
    replace (Z.of_nat b + 1) with (Z.of_nat (S b)) by lia.
    replace (Z.of_nat (b + 1) * c) with (Z.of_nat (S b) * c) by (f_equal; lia).
    replace (Z.of_nat (S b) * c + c) with (Z.of_nat (S b + 1) * c) by nia.
    replace (b + S n)%nat with (S b + n)%nat by lia.
    apply IH; [lia| |by replace (S b + n)%nat with (b + S n)%nat by lia|done].
    intros j Hj. apply Hsizes. lia.
Qed.

Lemma concat_equal_sizes (pre : list (list Particle)) (c : nat) arr post (k : nat) :
  Forall (fun a => length a = c) pre ->
  concat (pre ++ arr :: post) !! (length pre * c + k)%nat = (arr ++ concat post) !! k.
Proof.
  intros Hpre. rewrite concat_app. simpl.
  assert (length (concat pre) = (length pre * c)%nat) as Hlen.
  { induction Hpre as [|a pre Ha _ IH]; [done|]. simpl. rewrite length_app. lia. }
  rewrite lookup_app_r by lia. f_equal. lia.
Qed.

(** On a store whose brackets before the one holding global index [i]
    all have the same size, and whose bracket at [i] is no larger, as
    the constructor leaves it, [__getitem__] returns the [i]-th record
    of the concatenation and [get_list_array_index] its place. *)
Lemma getitem_equal_sized_brackets s (c : nat) pre arr post (k : nat) p :
  store_invariant s ->
  _plist s = pre ++ arr :: post ->
  Forall (fun a => length a = c) pre ->
  (pre = [] \/ (length arr <= c)%nat) ->
  arr !! k = Some p ->
  let i := Z.of_nat (length pre * c + k) in
  convert_pset_to_static_list s !! (length pre * c + k)%nat = Some p
  /\ get_list_array_index s (PInt i) = Ok (Location (Z.of_nat (length pre)) (Z.of_nat k))
  /\ __getitem__ s i = Ok p.
Proof.
  intros Hinv Hpl Hpre Hsmall Hk i.
  pose proof (lookup_lt_Some _ _ _ Hk) as Hklt.
  split.
  { unfold convert_pset_to_static_list. rewrite Hpl.
    rewrite (concat_equal_sizes pre c arr post k Hpre).
    by rewrite lookup_app_l. }
  unfold store_invariant in Hinv. rewrite Hpl in Hinv.
  apply Forall2_app_inv_l in Hinv as (bpre & brest & Hfpre & Hfrest & Hbs).
  destruct brest as [|binfo bpost]; [by apply Forall2_cons_nil_inv in Hfrest|].
  apply Forall2_cons_1 in Hfrest as [[Harr _] _].
  assert (exists b st en,
            index_walk (S (length (_pid_mapping_bounds s))) (_pid_mapping_bounds s) i
              0 0 (match _pid_mapping_bounds s with
                   | info :: _ => info_size info
                   | [] => 0
                   end)
            = Ok (b, st, en)
            /\ b = Z.of_nat (length pre) /\ i - st = Z.of_nat k) as (b & st & en & Hw & -> & Hslot).
  { destruct pre as [|a0 pre'].
    - apply Forall2_nil_inv_l in Hfpre as ->. rewrite Hbs. simpl.
      destruct (i >=? info_size binfo) eqn:E; [unfold i in E; simpl in E; lia|].
      eexists _, _, _. split; [done|]. split; [done|]. unfold i. simpl. lia.
    - destruct Hsmall as [?|Hsmall]; [done|].
      assert (0 < c)%nat as Hc by lia.
      assert (forall j, (j < length (a0 :: pre'))%nat ->
                exists info, _pid_mapping_bounds s !! j = Some info
                             /\ info_size info = Z.of_nat c) as Hsizes.
      { intros j Hj. rewrite Hbs.
        destruct (lookup_lt_is_Some_2 (a0 :: pre') j Hj) as [a Ha].
        destruct (Forall2_lookup_l _ _ _ _ _ Hfpre Ha) as (info & Hinfo & [Hsz _]).
        exists info. split; [by apply lookup_app_l_Some|].
        rewrite Hsz. f_equal.
        rewrite Forall_forall in Hpre. apply Hpre.
        by eapply list_elem_of_lookup_2. }
      destruct (Hsizes 0%nat) as (info0 & Hinfo0 & Hsz0); [simpl; lia|].
      destruct (_pid_mapping_bounds s) as [|i0 bs'] eqn:Hbounds; [done|].
      injection Hinfo0 as ->. rewrite Hsz0.
      pose proof (index_walk_equal_sizes (info0 :: bs') (Z.of_nat c) i
                    (length (a0 :: pre')) 0 (S (length (info0 :: bs')))) as Hwalk.
      simpl Z.of_nat in Hwalk at 1 2. rewrite Z.mul_0_l, Z.mul_1_l in Hwalk.
      change (Z.of_nat 0) with 0 in Hwalk.
      cbn [Nat.add] in Hwalk. rewrite Hwalk.
      + eexists _, _, _. split; [done|]. split; [done|]. unfold i.
        rewrite !Nat2Z.inj_add, !Nat2Z.inj_mul. lia.
      + apply (f_equal length) in Hbs. rewrite length_app in Hbs.
        rewrite <- (Forall2_length _ _ _ Hfpre) in Hbs. simpl in *. lia.
      + intros j Hj. apply Hsizes. lia.
      + unfold i. simpl length. rewrite !Nat2Z.inj_add, !Nat2Z.inj_mul.
        set (N := Z.of_nat (S (length pre'))). set (C := Z.of_nat c).
        replace ((N + Z.of_nat 1) * C) with (N * C + C) by (simpl; ring). lia.
      + lia. }
  destruct (_pid_mapping_bounds s) as [|info0 bs'] eqn:Hbounds.
  { destruct bpre; done. }
  unfold get_list_array_index, __getitem__. rewrite Hbounds.
  change (py_getitem (info0 :: bs') 0) with (Ok info0). rewrite !bind_ret.
  rewrite Hw, !bind_ret. rewrite Hslot. split; [done|].
  rewrite Hpl.
  rewrite (py_getitem_nat _ (length pre) arr) by (by apply list_lookup_middle).
  rewrite bind_ret. by apply py_getitem_nat.
Qed.


(** ** C9: negative keys of [__getitem__] *)

Lemma getitem_negative_in_first_bracket s first rest key :
  store_invariant s -> _plist s = first :: rest -> key < 0 ->
  __getitem__ s key = py_getitem first key
  /\ get_list_array_index s (PInt key) = Ok (Location 0 key).
Proof.
  intros Hinv Hpl Hkey. unfold store_invariant in Hinv. rewrite Hpl in Hinv.
  destruct (_pid_mapping_bounds s) as [|info bs] eqn:Hbs;
    [by apply Forall2_cons_nil_inv in Hinv|].
  apply Forall2_cons_1 in Hinv as [[Hsize _] _].
  assert ((key >=? info_size info) = false) as Hge by lia.
  unfold __getitem__, get_list_array_index. rewrite Hbs, Hpl.
  change (py_getitem (info :: bs) 0) with (Ok info).
  unfold mbind, outcome_bind. simpl index_walk. rewrite Hge.
  change (py_getitem (first :: rest) 0) with (Ok first).
  by rewrite Z.sub_0_r.
Qed.

(** C9 (amended).  [__getitem__] applies no wraparound over the whole
    set: under the invariant a negative key is numpy's negative index
    inside bracket 0, so with a non-empty first bracket the key [-1] is
    the last record of that bracket, whatever follows it; [pop] and
    [remove] turn the same [-1] into [size - 1] first. *)
Theorem getitem_minus_one_is_last_of_first_bracket s arr p rest :
  store_invariant s -> _plist s = (arr ++ [p]) :: rest ->
  __getitem__ s (-1) = Ok p
  /\ get_list_array_index s (PInt (-1)) = Ok (Location 0 (-1))
  /\ wrap_gindex (size s) (-1) = Ok (size s - 1).
Proof.
  intros Hinv Hpl.
  destruct (getitem_negative_in_first_bracket s _ _ (-1) Hinv Hpl) as [H1 H2];
    [lia|].
  rewrite H1, H2, py_getitem_last. repeat split.
  pose proof (size_is_length s Hinv) as Hsz. rewrite Hpl in Hsz.
  simpl in Hsz. rewrite !length_app in Hsz. simpl in Hsz.
  unfold wrap_gindex. simpl.
  destruct (size s + -1 <? 0) eqn:E; [lia|]. reflexivity.
Qed.

Lemma getitem_minus_one_is_last_of_first_bracket_witness :
  let s := mkParticleSet
             [[mkParticle 0 0 0 0 (Some 0%Q) 0; mkParticle 1 0 0 0 (Some 0%Q) 0];
              [mkParticle 2 0 0 0 (Some 0%Q) 0]]
             [(0, 1, 2); (2, 2, 1)] 4096 None None None in
  __getitem__ s (-1) = Ok (mkParticle 1 0 0 0 (Some 0%Q) 0)
  /\ get_list_array_index s (PInt (-1)) = Ok (Location 0 (-1))
  /\ wrap_gindex (size s) (-1) = Ok (size s - 1).
Proof.
  intros s.
  apply (getitem_minus_one_is_last_of_first_bracket s
           [mkParticle 0 0 0 0 (Some 0%Q) 0] (mkParticle 1 0 0 0 (Some 0%Q) 0)
           [[mkParticle 2 0 0 0 (Some 0%Q) 0]]).
  - apply (bool_decide_unpack _). vm_compute. exact I.
  - reflexivity.
Defined.

(** C9 as stated fails on a set with two brackets whose first bracket
    is empty: there is no last record of the first bracket, and the key
    [-1] raises. *)
Lemma getitem_minus_one_empty_first_bracket :
  (s ← emptied_plus_one; Ok (length <$> _plist s)) = Ok [0%nat; 1%nat]
  /\ (s ← emptied_plus_one; __getitem__ s (-1)) = Raise IndexError.
Proof. split; vm_compute; reflexivity. Qed.

(** ** C8: the [particles] property *)

Lemma foldl_app_concat {A} (pl : list (list A)) (acc : list A) :
  foldl (fun result arr => result ++ arr) acc pl = acc ++ concat pl.
Proof.
  revert acc. induction pl as [|arr pl IH]; intros acc; simpl.
  - by rewrite app_nil_r.
  - by rewrite IH, app_assoc.
Qed.

(** C8 (amended).  With no bracket the property is [None]; with one
    bracket it is the records in global-index order; with more than one
    bracket it is the first bracket followed by all the records, of
    length [size] plus the cached size of the first bracket, and that is
    the records in global-index order exactly when the first bracket is
    empty. *)
Theorem particles_repeats_first_bracket s :
  store_invariant s ->
  match _plist s, _pid_mapping_bounds s with
  | [], _ => particles s = None
  | [first], _ => particles s = Some (convert_pset_to_static_list s)
  | first :: _ :: _, info :: _ =>
      particles s = Some (first ++ convert_pset_to_static_list s)
      /\ Z.of_nat (length (first ++ convert_pset_to_static_list s))
         = size s + info_size info
      /\ (particles s = Some (convert_pset_to_static_list s) <-> first = [])
  | _ :: _ :: _, [] => False
  end.
Proof.
  intros Hinv. pose proof (size_is_length s Hinv) as Hsz.
  unfold store_invariant in Hinv.
  unfold particles, convert_pset_to_static_list in *.
  destruct (_plist s) as [|first [|second pl]] eqn:Hpl; [done| |].
  - simpl. by rewrite app_nil_r.
  - destruct (_pid_mapping_bounds s) as [|info bs];
      [by apply Forall2_cons_nil_inv in Hinv|].
    apply Forall2_cons_1 in Hinv as [[Hsize _] _].
    assert (foldl (fun result arr => result ++ arr) first (first :: second :: pl)
            = first ++ concat (first :: second :: pl)) as ->
      by apply foldl_app_concat.
    change (1 <? length (first :: second :: pl))%nat with true. cbv iota.
    split; [done|]. split.
    + rewrite length_app. lia.
    + split.
      * intros [= H]. apply (f_equal length) in H.
        rewrite length_app in H. destruct first; [done|simpl in H; lia].
      * by intros ->.
Qed.

Lemma particles_repeats_first_bracket_witness :
  let s := mkParticleSet
             [[mkParticle 0 0 0 0 (Some 0%Q) 0; mkParticle 1 0 0 0 (Some 0%Q) 0];
              [mkParticle 2 0 0 0 (Some 0%Q) 0]]
             [(0, 1, 2); (2, 2, 1)] 4096 None None None in
  particles s
    = Some ([mkParticle 0 0 0 0 (Some 0%Q) 0; mkParticle 1 0 0 0 (Some 0%Q) 0]
            ++ convert_pset_to_static_list s)
  /\ Z.of_nat (length ([mkParticle 0 0 0 0 (Some 0%Q) 0;
                        mkParticle 1 0 0 0 (Some 0%Q) 0]
                       ++ convert_pset_to_static_list s)) = size s + 2
  /\ (particles s = Some (convert_pset_to_static_list s)
      <-> [mkParticle 0 0 0 0 (Some 0%Q) 0; mkParticle 1 0 0 0 (Some 0%Q) 0] = []).
Proof.
  intros s. apply (particles_repeats_first_bracket s).
  apply (bool_decide_unpack _). vm_compute. exact I.
Defined.

(** C8 as stated fails on the same set: it has two brackets and the
    property is exactly its one live record. *)
Lemma particles_exact_with_empty_first_bracket :
  (s ← emptied_plus_one; Ok (length (_plist s))) = Ok 2%nat
  /\ (s ← emptied_plus_one; Ok (particles s))
     = (s ← emptied_plus_one; Ok (Some (convert_pset_to_static_list s)))
  /\ (s ← emptied_plus_one; Ok (length (convert_pset_to_static_list s))) = Ok 1%nat.
Proof. repeat split; vm_compute; reflexivity. Qed.

(** ** C2: looking a particle up by identity *)

Lemma located_bracket (f : nat -> Particle -> Particle * Z * Z) pid arr :
  (forall k p, (f k p).1.1 = p) ->
  (fun t => t.1.1) <$> filter (fun t : Particle * Z * Z => id t.1.1 = pid) (imap f arr)
  = filter (fun p => id p = pid) arr.
Proof.
  revert f. induction arr as [|p arr IH]; intros f Hf; [done|].
  simpl. rewrite !filter_cons. rewrite Hf.
  destruct (decide (id p = pid)); simpl; rewrite ?Hf, IH; auto;
    intros k q; apply Hf.
Qed.

Lemma located_records_from (n : nat) pl pid :
  (fun t => t.1.1) <$>
    concat (imap (fun b sublist =>
              filter (fun t : Particle * Z * Z => id t.1.1 = pid)
                (imap (fun k p => (p, Z.of_nat (n + b), Z.of_nat k)) sublist)) pl)
  = filter (fun p => id p = pid) (concat pl).
Proof.
  revert n. induction pl as [|arr pl IH]; intros n; [done|].
  simpl. rewrite fmap_app, filter_app. f_equal.
  - by apply located_bracket.
  - rewrite <- (IH (S n)). f_equal. f_equal. apply imap_ext.
    intros b sub _. simpl. by rewrite Nat.add_succ_r.
Qed.

(** The first components of [located] are the carriers. *)
Lemma located_records s pid : (fun t => t.1.1) <$> located s pid = carriers s pid.
Proof. apply (located_records_from 0). Qed.

Lemma located_lookup_from (n : nat) pl pid t :
  t ∈ concat (imap (fun b sublist =>
              filter (fun t : Particle * Z * Z => id t.1.1 = pid)
                (imap (fun k p => (p, Z.of_nat (n + b), Z.of_nat k)) sublist)) pl) ->
  exists b k arr, t = (t.1.1, Z.of_nat (n + b), Z.of_nat k)
    /\ pl !! b = Some arr /\ arr !! k = Some t.1.1 /\ id t.1.1 = pid.
Proof.
  revert n. induction pl as [|arr pl IH]; intros n; simpl; [by intros ?%elem_of_nil|].
  rewrite elem_of_app. intros [H|H].
  - apply list_elem_of_filter in H as [Hid H].
    apply elem_of_lookup_imap in H as (k & p & -> & Hk).
    exists 0%nat, k, arr. simpl in *. by rewrite Nat.add_0_r.
  - assert (imap ((fun b sublist =>
              filter (fun t : Particle * Z * Z => id t.1.1 = pid)
                (imap (fun k p => (p, Z.of_nat (n + b), Z.of_nat k)) sublist)) ∘ S) pl
            = imap (fun b sublist =>
              filter (fun t : Particle * Z * Z => id t.1.1 = pid)
                (imap (fun k p => (p, Z.of_nat (S n + b), Z.of_nat k)) sublist)) pl)
      as Heq.
    { apply imap_ext. intros b sub _. simpl. by rewrite Nat.add_succ_r. }
    rewrite Heq in H. apply IH in H as (b & k & arr' & Ht & Hb & Hk & Hid).
    exists (S b), k, arr'. simpl. repeat split; try done.
    rewrite Ht. simpl. do 2 f_equal. lia.
Qed.

(** Every entry of [located] is a record of the store at the place it
    names. *)
Lemma located_lookup s pid t :
  t ∈ located s pid ->
  exists b k arr, t = (t.1.1, Z.of_nat b, Z.of_nat k)
    /\ _plist s !! b = Some arr /\ arr !! k = Some t.1.1 /\ id t.1.1 = pid.
Proof. intros H. by apply (located_lookup_from 0) in H. Qed.

Lemma slot_walk_spec arr pid slot_index :
  let r := slot_walk arr pid slot_index in
  slot_index <= r <= slot_index + Z.of_nat (length arr)
  /\ (r < slot_index + Z.of_nat (length arr) ->
      exists p, arr !! Z.to_nat (r - slot_index) = Some p /\ id p = pid).
Proof.
  revert slot_index. induction arr as [|p arr IH]; intros slot_index; simpl.
  - split; [lia|]. lia.
  - destruct (id p =? pid) eqn:E.
    + split; [lia|]. intros _. exists p. rewrite Z.sub_diag. simpl. split; [done|lia].
    + destruct (IH (slot_index + 1)) as [H1 H2]. split; [lia|].
      intros Hlt. destruct H2 as (q & Hq & Hid); [lia|].
      exists q. split; [|done].
      replace (Z.to_nat (slot_walk arr pid (slot_index + 1) - slot_index))
        with (S (Z.to_nat (slot_walk arr pid (slot_index + 1) - (slot_index + 1))))
        by lia.
      done.
Qed.

Lemma bracket_walk_range fuel s pid (b : Z) info b' info' :
  0 <= b ->
  bracket_walk fuel s pid b info = Ok (b', info') -> 0 <= b'.
Proof.
  revert b info. induction fuel as [|fuel IH]; intros b info Hb; simpl.
  - destruct (_ && _); [done|]. intros [= <- <-]. done.
  - destruct (_ && _).
    + destruct (py_getitem (_pid_mapping_bounds s) (b + 1)) as [i| |]; simpl; try done.
      apply IH. lia.
    + intros [= <- <-]. done.
Qed.

(** The slot loop: on a bracket without the identity it runs to the
    end of the bracket, otherwise it stops at the first record with the
    identity. *)
Lemma slot_walk_absent arr pid slot_index :
  Forall (fun p => id p <> pid) arr ->
  slot_walk arr pid slot_index = slot_index + Z.of_nat (length arr).
Proof.
  intros H. revert slot_index. induction H as [|p arr Hp _ IH]; intros slot_index; simpl.
  - lia.
  - destruct (id p =? pid) eqn:E; [lia|]. rewrite IH. lia.
Qed.

Lemma slot_walk_first arr pid slot_index (k : nat) p :
  arr !! k = Some p -> id p = pid ->
  Forall (fun p => id p <> pid) (take k arr) ->
  slot_walk arr pid slot_index = slot_index + Z.of_nat k.
Proof.
  revert slot_index k. induction arr as [|p0 arr IH]; intros slot_index k; [done|].
  destruct k as [|k]; simpl.
  - intros [= ->] Hid _. assert ((id p =? pid) = true) as -> by lia. lia.
  - intros Hk Hid [Hp0 Hrest]%Forall_cons.
    assert ((id p0 =? pid) = false) as -> by lia.
    rewrite (IH _ k); [lia|done..].
Qed.

(** The bracket loop on a particle whose identity no summary admits
    runs off the list of summaries. *)
Lemma bracket_walk_off_the_end fuel s pid (b : nat) info :
  length (_pid_mapping_bounds s) = length (_plist s) ->
  Forall (fun info => ~ admits info pid) (_pid_mapping_bounds s) ->
  _pid_mapping_bounds s !! b = Some info ->
  (length (_plist s) <= fuel + b)%nat ->
  bracket_walk fuel s pid (Z.of_nat b) info = Raise IndexError.
Proof.
  intros Hlen Hout. revert b info.
  induction fuel as [|fuel IH]; intros b info Hb Hfuel;
    pose proof (lookup_lt_Some _ _ _ Hb) as Hblt.
  - lia.
  - simpl.
    assert ((Z.of_nat b <? Z.of_nat (length (_plist s))) = true) as -> by lia.
    assert (((pid <? info_min info) || (pid >? info_max info)) = true) as ->.
    { rewrite Forall_forall in Hout.
      specialize (Hout info (list_elem_of_lookup_2 _ _ _ Hb)).
      unfold admits in Hout. apply orb_true_iff.
      destruct (decide (pid < info_min info)); [left|right]; lia. }
    simpl. replace (Z.of_nat b + 1) with (Z.of_nat (S b)) by lia.
    destruct (decide (S b < length (_pid_mapping_bounds s))%nat) as [Hlt|Hge].
    + destruct (lookup_lt_is_Some_2 _ _ Hlt) as [info' Hinfo'].
      rewrite (py_getitem_nat _ _ _ Hinfo'), bind_ret. apply IH; [done|lia].
    + rewrite py_getitem_nat_ge by lia. done.
Qed.

(** The bracket loop stops at the first bracket whose summary admits
    the identity. *)
Lemma bracket_walk_first fuel s pid (j b : nat) info info_b :
  _pid_mapping_bounds s !! j = Some info ->
  _pid_mapping_bounds s !! b = Some info_b ->
  (j <= b < length (_plist s))%nat ->
  (forall (i : nat) info', (j <= i < b)%nat ->
     _pid_mapping_bounds s !! i = Some info' -> ~ admits info' pid) ->
  admits info_b pid ->
  (b <= fuel + j)%nat ->
  bracket_walk fuel s pid (Z.of_nat j) info = Ok (Z.of_nat b, info_b).
Proof.
  intros Hj Hb Hjb Hout Hin. revert j info Hj Hjb Hout.
  assert (((pid <? info_min info_b) || (pid >? info_max info_b)) = false) as Hstop
    by (unfold admits in Hin; apply orb_false_iff; lia).
  induction fuel as [|fuel IH]; intros j info Hj Hjb Hout Hfuel.
  - assert (j = b) as -> by lia. rewrite Hb in Hj. injection Hj as <-.
    simpl. by rewrite Hstop, andb_false_r.
  - destruct (decide (j = b)) as [->|Hne].
    + rewrite Hb in Hj. injection Hj as <-. simpl. by rewrite Hstop, andb_false_r.
    + simpl.
      assert ((Z.of_nat j <? Z.of_nat (length (_plist s))) = true) as -> by lia.
      assert (((pid <? info_min info) || (pid >? info_max info)) = true) as ->.
      { specialize (Hout j info ltac:(lia) Hj). unfold admits in Hout.
        apply orb_true_iff. destruct (decide (pid < info_min info)); [left|right]; lia. }
      simpl. replace (Z.of_nat j + 1) with (Z.of_nat (S j)) by lia.
      assert (S j < length (_pid_mapping_bounds s))%nat as Hlt
        by (apply lookup_lt_Some in Hb; lia).
      destruct (lookup_lt_is_Some_2 _ _ Hlt) as [info' Hinfo'].
      rewrite (py_getitem_nat _ _ _ Hinfo'), bind_ret.
      apply IH; [done|lia| |lia].
      intros i info'' Hi. apply Hout. lia.
Qed.

(** C2 (amended).  The identity lookups report neither [NotFound] nor
    [AmbiguousIdentity].  [get_list_array_index_by_PID] never raises: it
    returns the integer [-1] when no record carries the identity and
    [-1] again when more than one does, and the bracket and slot of the
    record when exactly one does.  [get_list_array_index] on a particle
    walks the summaries: when the store has one summary per bracket and
    no summary admits the identity it raises [IndexError] (it reads one
    summary past the last); otherwise it stops at the first bracket
    whose summary admits the identity and returns [-1] when that bracket
    holds no record with the identity, and the bracket and the first
    slot of such a record when it does.  Whatever it returns is [-1] or
    the place of a record with the particle's identity. *)
Theorem identity_lookup_returns_minus_one s pid :
  (carriers s pid = [] -> get_list_array_index_by_PID s pid = Ok (Sentinel (-1)))
  /\ ((1 < length (carriers s pid))%nat ->
      get_list_array_index_by_PID s pid = Ok (Sentinel (-1)))
  /\ (forall p, carriers s pid = [p] ->
      exists b k arr,
        get_list_array_index_by_PID s pid = Ok (Location (Z.of_nat b) (Z.of_nat k))
        /\ _plist s !! b = Some arr /\ arr !! k = Some p)
  /\ (forall q r, get_list_array_index s (PParticle q) = Ok r ->
      r = Sentinel (-1)
      \/ exists b k arr p,
           r = Location (Z.of_nat b) (Z.of_nat k)
           /\ _plist s !! b = Some arr /\ arr !! k = Some p /\ id p = id q)
  /\ (forall q,
      length (_pid_mapping_bounds s) = length (_plist s) ->
      Forall (fun info => ~ admits info (id q)) (_pid_mapping_bounds s) ->
      get_list_array_index s (PParticle q) = Raise IndexError)
  /\ (forall q (b : nat) info arr,
      _pid_mapping_bounds s !! b = Some info ->
      _plist s !! b = Some arr ->
      Forall (fun info => ~ admits info (id q)) (take b (_pid_mapping_bounds s)) ->
      admits info (id q) ->
      (Forall (fun p => id p <> id q) arr ->
       get_list_array_index s (PParticle q) = Ok (Sentinel (-1)))
      /\ (forall (k : nat) p,
          arr !! k = Some p -> id p = id q ->
          Forall (fun p => id p <> id q) (take k arr) ->
          get_list_array_index s (PParticle q)
          = Ok (Location (Z.of_nat b) (Z.of_nat k)))).
Proof.
  pose proof (located_records s pid) as Hrec.
  split; [|split; [|split; [|split; [|split]]]].
  - unfold get_list_array_index_by_PID.
    intros Hc. rewrite Hc in Hrec. apply fmap_nil_inv in Hrec. by rewrite Hrec.
  - unfold get_list_array_index_by_PID.
    intros Hc. rewrite <- Hrec, length_fmap in Hc.
    destruct (located s pid) as [|t [|t' l]]; simpl in *; try lia. done.
  - unfold get_list_array_index_by_PID.
    intros p Hc. rewrite Hc in Hrec.
    destruct (located s pid) as [|t [|t' l]] eqn:Hl; try done.
    injection Hrec as Hp.
    destruct (located_lookup s pid t) as (b & k & arr & Ht & Hb & Hk & _).
    { rewrite Hl. apply list_elem_of_here. }
    exists b, k, arr. simpl. rewrite Ht. simpl. rewrite <- Hp. done.
  - intros q r. unfold get_list_array_index.
    intros (info & _ & H)%bind_Ok. apply bind_Ok in H as ([b info'] & Hw & H).
    apply bracket_walk_range in Hw; [|lia].
    destruct (b >=? Z.of_nat (length (_plist s))); [left; congruence|].
    apply bind_Ok in H as (arr & Harr & H).
    pose proof (slot_walk_spec arr (id q) 0) as [Hr Hfound]. simpl in Hr, Hfound.
    destruct (slot_walk arr (id q) 0 >=? Z.of_nat (length arr)) eqn:E;
      [left; congruence|].
    injection H as <-. right.
    destruct Hfound as (p & Hp & Hid); [lia|].
    apply py_getitem_Ok in Harr as (nb & Hnb & Hlook).
    unfold norm_index in Hnb.
    destruct ((0 <=? b) && (b <? Z.of_nat (length (_plist s)))) eqn:E1;
      [|destruct ((- Z.of_nat (length (_plist s)) <=? b) && (b <? 0)) eqn:E2;
        [lia|done]].
    injection Hnb as <-.
    exists (Z.to_nat b), (Z.to_nat (slot_walk arr (id q) 0)), arr, p.
    rewrite Z.sub_0_r in Hp. rewrite !Z2Nat.id by lia. done.
  - intros q Hlen Hout. unfold get_list_array_index.
    destruct (_pid_mapping_bounds s !! 0%nat) as [info|] eqn:Hb0.
    + pose proof (py_getitem_nat _ 0 _ Hb0) as Hg0. change (Z.of_nat 0) with 0 in Hg0.
      rewrite Hg0, bind_ret.
      pose proof (bracket_walk_off_the_end (length (_plist s)) s (id q) 0 info
                    Hlen Hout Hb0 ltac:(lia)) as Hw.
      change (Z.of_nat 0) with 0 in Hw. by rewrite Hw.
    + apply lookup_ge_None_1 in Hb0.
      pose proof (py_getitem_nat_ge (_pid_mapping_bounds s) 0 Hb0) as Hg0.
      change (Z.of_nat 0) with 0 in Hg0. by rewrite Hg0.
  - intros q b info arr Hb Harr Hout Hin.
    pose proof (lookup_lt_Some _ _ _ Hb) as Hblt.
    pose proof (lookup_lt_Some _ _ _ Harr) as Halt.
    destruct (lookup_lt_is_Some_2 (_pid_mapping_bounds s) 0 ltac:(lia)) as [info0 Hb0].
    assert (forall r,
      (if Z.of_nat b >=? Z.of_nat (length (_plist s)) then Ok (Sentinel (-1))
       else arr ← py_getitem (_plist s) (Z.of_nat b);
            let slot_index := slot_walk arr (id q) 0 in
            if slot_index >=? Z.of_nat (length arr) then Ok (Sentinel (-1))
            else Ok (Location (Z.of_nat b) slot_index)) = r ->
      get_list_array_index s (PParticle q) = r) as Hrun.
    { intros r <-. unfold get_list_array_index.
      pose proof (py_getitem_nat _ 0 _ Hb0) as Hg0. change (Z.of_nat 0) with 0 in Hg0.
      rewrite Hg0, bind_ret.
      pose proof (bracket_walk_first (length (_plist s)) s (id q) 0 b info0 info
                    Hb0 Hb ltac:(lia)) as Hw.
      change (Z.of_nat 0) with 0 in Hw. rewrite Hw; [done| |done|lia].
      intros i info' Hi Hlook. rewrite Forall_forall in Hout. apply Hout.
      apply list_elem_of_lookup. exists i. rewrite lookup_take_lt by lia. done. }
    assert ((Z.of_nat b >=? Z.of_nat (length (_plist s))) = false) as Hge by lia.
    split.
    + intros Habs. apply Hrun. rewrite Hge, (py_getitem_nat _ _ _ Harr), bind_ret.
      cbv zeta. rewrite (slot_walk_absent _ _ _ Habs).
      assert ((0 + Z.of_nat (length arr) >=? Z.of_nat (length arr)) = true) as -> by lia.
      done.
    + intros k p Hk Hid Hfirst. apply Hrun.
      rewrite Hge, (py_getitem_nat _ _ _ Harr), bind_ret.
      cbv zeta. rewrite (slot_walk_first _ _ _ k p Hk Hid Hfirst).
      apply lookup_lt_Some in Hk.
      assert ((0 + Z.of_nat k >=? Z.of_nat (length arr)) = false) as -> by lia.
      done.
Qed.

(** C2 as stated fails: on a set of two particles with identities 0 and
    1 the lookup of identity 7 returns [-1], and the lookup of a
    particle with identity 7 raises [IndexError]; the lookup of an
    identity carried twice, here after the set was added to itself,
    returns [-1], and the lookup of a particle with that identity
    returns the place of the first record.  On the set with identities 0
    and 2 that is left when the second of three particles is removed,
    the lookup of a particle with identity 1 returns [-1]. *)
Lemma identity_lookup_no_error :
  (r ← ParticleSet_init 0 0 (line 2); Ok (carriers r.1 7)) = Ok []
  /\ (r ← ParticleSet_init 0 0 (line 2); get_list_array_index_by_PID r.1 7)
     = Ok (Sentinel (-1))
  /\ (r ← ParticleSet_init 0 0 (line 2); Ok (id <$> carriers (add r.1 r.1) 1))
     = Ok [1; 1]
  /\ (r ← ParticleSet_init 0 0 (line 2); get_list_array_index_by_PID (add r.1 r.1) 1)
     = Ok (Sentinel (-1))
  /\ (r ← ParticleSet_init 0 0 (line 2);
      get_list_array_index (add r.1 r.1) (PParticle (mkParticle 1 0 0 0 None 0)))
     = Ok (Location 0 1)
  /\ (r ← ParticleSet_init 0 0 (line 2);
      get_list_array_index r.1 (PParticle (mkParticle 7 0 0 0 None 0)))
     = Raise IndexError
  /\ (r ← ParticleSet_init 0 0 (line 3); s ← remove r.1 (IdxInt 1);
      Ok (id <$> convert_pset_to_static_list s, _pid_mapping_bounds s))
     = Ok ([0; 2], [(0, 2, 2)])
  /\ (r ← ParticleSet_init 0 0 (line 3); s ← remove r.1 (IdxInt 1);
      get_list_array_index s (PParticle (mkParticle 1 0 0 0 None 0)))
     = Ok (Sentinel (-1)).
Proof. repeat split; vm_compute; reflexivity. Qed.

(** ** C6: compaction *)

Lemma scan_brackets_not_Loops s lw indices trg src :
  scan_brackets s lw indices trg src <> Loops.
Proof.
  revert trg src. induction indices as [|i rest IH]; intros trg src; simpl; [done|].
  destruct (py_getitem (_pid_mapping_bounds s) i) as [info| |] eqn:E; simpl;
    [|done|by apply py_getitem_not_Loops in E].
  destruct (info_size info <? lw).
  - destruct trg as [trg|], src as [src|]; simpl; try done;
      destruct (py_getitem (_plist s) i) as [arr| |] eqn:E'; simpl; try done;
      try (by apply py_getitem_not_Loops in E'); apply IH.
  - simpl. destruct trg, src; try done; apply IH.
Qed.

Lemma merge_pair_length s trg src s' :
  merge_pair s trg src = Ok s' ->
  S (length (_plist s')) = length (_plist s).
Proof.
  unfold merge_pair.
  intros (pl & Hpl & H)%bind_Ok. apply bind_Ok in H as (info & _ & H).
  apply bind_Ok in H as (bs & _ & H). apply bind_Ok in H as (pl' & Hdel & H).
  apply bind_Ok in H as (bs' & _ & [= <-]). simpl.
  unfold py_setitem in Hpl. destruct (norm_index _ _); [|done].
  injection Hpl as <-. unfold py_delitem in Hdel.
  destruct (norm_index _ _) as [k|] eqn:Hk; [|done]. injection Hdel as <-.
  apply norm_index_lt in Hk. rewrite length_insert in Hk.
  rewrite length_delete, length_insert by (apply lookup_lt_is_Some_2; by rewrite length_insert).
  lia.
Qed.

(** Every merge removes a bracket, so the loop of [_merge_brackets_]
    stops within as many passes as there are brackets, plus one. *)
Lemma merge_loop_total fuel s :
  (length (_plist s) < fuel)%nat -> merge_loop fuel s <> Loops.
Proof.
  revert s. induction fuel as [|fuel IH]; intros s Hlen; [lia|]. simpl.
  destruct (scan_brackets s _ _ None None) as [[trg src]| |] eqn:E; simpl;
    [|done|by apply scan_brackets_not_Loops in E].
  destruct trg as [trg|]; [|done]. destruct src as [src|]; [|done].
  destruct (merge_pair s trg src) as [s'| |] eqn:Em; simpl; [|done|].
  - apply IH. apply merge_pair_length in Em. lia.
  - unfold merge_pair in Em.
    repeat (match type of Em with
            | (?m ≫= _) = Loops =>
                let E := fresh in
                destruct m eqn:E; simpl in Em; try discriminate
            end);
      repeat match goal with
             | H : py_setitem _ _ _ = Loops |- _ =>
                 unfold py_setitem in H; destruct (norm_index _ _); discriminate
             | H : py_delitem _ _ = Loops |- _ =>
                 unfold py_delitem in H; destruct (norm_index _ _); discriminate
             | H : summary _ = Loops |- _ =>
                 unfold summary in H; destruct (_ ++ _); discriminate
             end.
Qed.

Lemma merge_brackets_total s : _merge_brackets_ s <> Loops.
Proof. apply merge_loop_total. lia. Qed.

(** When the loop returns, the scan of the returned store finds no pair
    of undersized brackets. *)
Lemma merge_loop_settled fuel s s' :
  merge_loop fuel s = Ok s' ->
  exists found,
    scan_brackets s' (Z.quot (nlist_limit s') 2)
      (seqZ 0 (Z.of_nat (length (_plist s')))) None None = Ok found
    /\ (found.1 = None \/ found.2 = None).
Proof.
  revert s. induction fuel as [|fuel IH]; intros s; simpl; [done|].
  intros ([trg src] & Hscan & H)%bind_Ok.
  destruct trg as [trg|].
  - destruct src as [src|].
    + apply bind_Ok in H as (s1 & _ & H). by apply IH in H.
    + injection H as <-. exists (Some trg, None). by split; [|right].
  - injection H as <-. exists (None, src). by split; [|left].
Qed.

(** C6.  Compaction is idempotent: on every store it stops, and on the
    store it returns a second run returns that same store, bracket for
    bracket and summary for summary. *)
Theorem merge_brackets_idempotent s :
  _merge_brackets_ s <> Loops
  /\ forall s', _merge_brackets_ s = Ok s' -> _merge_brackets_ s' = Ok s'.
Proof.
  split; [apply merge_brackets_total|].
  intros s' H. apply merge_loop_settled in H as ([trg src] & Hscan & Hnone).
  unfold _merge_brackets_. simpl. rewrite Hscan. simpl.
  destruct Hnone as [Hn|Hn]; simpl in Hn; subst; [done|]. by destruct trg.
Qed.

Lemma merge_brackets_idempotent_witness :
  let s := mkParticleSet
             [[mkParticle 0 0 0 0 (Some 0%Q) 0]; [mkParticle 5 0 0 0 (Some 0%Q) 0];
              [mkParticle 2 0 0 0 (Some 0%Q) 0; mkParticle 1 0 0 0 (Some 0%Q) 0]]
             [(0, 0, 1); (5, 5, 1); (1, 2, 2)] 4096 None None None in
  let s' := mkParticleSet
             [[mkParticle 0 0 0 0 (Some 0%Q) 0; mkParticle 5 0 0 0 (Some 0%Q) 0;
               mkParticle 2 0 0 0 (Some 0%Q) 0; mkParticle 1 0 0 0 (Some 0%Q) 0]]
             [(0, 5, 4)] 4096 None None None in
  _merge_brackets_ s = Ok s' /\ _merge_brackets_ s' = Ok s'.
Proof.
  intros s s'.
  assert (_merge_brackets_ s = Ok s') as H by (vm_compute; reflexivity).
  split; [exact H|]. exact (proj2 (merge_brackets_idempotent s) s' H).
Defined.

(** ** C10: what [pop] returns *)

Lemma traverse_length {A B} (f : A -> outcome B) l r :
  traverse f l = Ok r -> length r = length l.
Proof.
  revert r. induction l as [|x l IH]; intros r; simpl.
  - by intros [= <-].
  - intros (y & _ & H)%bind_Ok. apply bind_Ok in H as (ys & Hys & [= <-]).
    simpl. f_equal. by apply IH.
Qed.

Lemma np_take_length {A} (arr : list A) idx r :
  np_take arr idx = Ok r -> length r = length idx /\ idx <> [].
Proof.
  unfold np_take. destruct idx as [|i idx]; [done|].
  intros H%traverse_length. done.
Qed.

Lemma remove_returns_requested s b locs s' r :
  _remove_ s b locs = Ok (s', r) -> length r = length locs /\ locs <> [].
Proof.
  unfold _remove_. intros (arr & _ & H)%bind_Ok.
  apply bind_Ok in H as (ret & Htake & H). apply np_take_length in Htake.
  apply bind_Ok in H as (arr' & _ & H). apply bind_Ok in H as (pl & _ & H).
  destruct arr'.
  - destruct (1 <? length pl)%nat.
    + apply bind_Ok in H as (? & _ & H). apply bind_Ok in H as (? & _ & H).
      apply bind_Ok in H as (? & _ & H). by injection H as <- <-.
    + apply bind_Ok in H as (? & _ & H). by injection H as <- <-.
  - apply bind_Ok in H as (? & _ & H). apply bind_Ok in H as (? & _ & H).
    by injection H as <- <-.
Qed.

Lemma pop_loop_count lindices b s res s' res' :
  pop_loop lindices b s res = Ok (s', res') ->
  match res' with
  | None => res = None /\ requested_in lindices = 0%nat
  | Some l =>
      length l = (length (default [] res) + requested_in lindices)%nat
      /\ (res = None -> (0 < requested_in lindices)%nat)
  end.
Proof.
  revert b s res. induction lindices as [|o rest IH]; intros b s res; simpl.
  - intros [= <- <-]. destruct res; simpl; [split; [lia|done]|done].
  - destruct o as [locs|]; [|apply IH].
    intros ([s1 r] & Hrem & H)%bind_Ok.
    apply remove_returns_requested in Hrem as [Hlen Hne].
    apply IH in H. destruct res' as [l|].
    + destruct H as [H _]. destruct res as [r0|]; simpl in *.
      * rewrite length_app in H. split; [lia|done].
      * split; [lia|]. intros _. destruct locs; simpl; [done|lia].
    + destruct H as [H _]. by destruct res.
Qed.

Lemma requested_in_insert lindices (k : nat) cur new :
  lindices !! k = Some cur ->
  (requested_in (<[k := new]> lindices) + length (default [] cur)
   = requested_in lindices + length (default [] new))%nat.
Proof.
  revert k. induction lindices as [|o l IH]; intros k; [done|].
  destruct k as [|k]; simpl.
  - intros [= ->]. lia.
  - intros H. specialize (IH k H). lia.
Qed.

Lemma requested_in_replicate n : requested_in (replicate n None) = 0%nat.
Proof. induction n; simpl; auto. Qed.

Lemma fill_lindices_count s ncounter indices lindices r :
  fill_lindices s ncounter indices lindices = Ok r ->
  requested_in r = (requested_in lindices + length indices)%nat.
Proof.
  revert lindices. induction indices as [|g rest IH]; intros lindices; simpl.
  - intros [= <-]. lia.
  - intros (g' & _ & H)%bind_Ok. apply bind_Ok in H as (loc & _ & H).
    destruct loc as [b k|]; [|done].
    apply bind_Ok in H as (cur & Hcur & H).
    apply bind_Ok in H as (lind' & Hset & H).
    apply IH in H. rewrite H.
    apply py_getitem_Ok in Hcur as (n & Hn & Hlook).
    unfold py_setitem in Hset. rewrite Hn in Hset. injection Hset as <-.
    pose proof (requested_in_insert lindices n cur
                  (match cur with
                   | Some l => Some (l ++ [k])
                   | None => Some [k]
                   end) Hlook) as Hins.
    destruct cur as [l|]; simpl in Hins; [rewrite length_app in Hins; simpl in Hins|];
      lia.
Qed.

Lemma to_lindices_count s indices lindices :
  to_lindices s indices = Ok lindices -> requested_in lindices = requested indices.
Proof.
  destruct indices as [g|gs|l]; unfold to_lindices, requested.
  - intros H%fill_lindices_count. by rewrite requested_in_replicate in H.
  - intros H%fill_lindices_count. by rewrite requested_in_replicate in H.
  - by intros [= <-].
Qed.

(** ** Removing from one bracket *)

Lemma in_range_norm (arr : list Particle) i :
  in_range arr i ->
  exists k, norm_index (length arr) i = Some k /\ (k < length arr)%nat.
Proof.
  unfold in_range. intros H. destruct (decide (0 <= i)).
  - exists (Z.to_nat i). rewrite <- (Z2Nat.id i) at 1 by done.
    rewrite norm_index_nat by lia. split; [done|lia].
  - exists (Z.to_nat (i + Z.of_nat (length arr))).
    rewrite norm_index_neg by lia. split; [done|lia].
Qed.

Lemma traverse_getitem arr local_indices :
  Forall (in_range arr) local_indices ->
  traverse (py_getitem arr) local_indices = Ok (omap (at_slot arr) local_indices).
Proof.
  induction 1 as [|i l Hi _ IH]; simpl; [done|].
  destruct (in_range_norm arr i Hi) as (k & Hk & Hlt).
  destruct (lookup_lt_is_Some_2 arr k Hlt) as [p Hp].
  unfold py_getitem, at_slot. rewrite Hk. simpl. rewrite Hp. simpl.
  unfold py_getitem in IH. rewrite IH. done.
Qed.

Lemma traverse_norm_index (arr : list Particle) local_indices :
  Forall (in_range arr) local_indices ->
  traverse (fun i => match norm_index (length arr) i with
                     | Some k => Ok k
                     | None => Raise IndexError
                     end) local_indices
  = Ok (omap (norm_index (length arr)) local_indices).
Proof.
  induction 1 as [|i l Hi _ IH]; simpl; [done|].
  destruct (in_range_norm arr i Hi) as (k & Hk & Hlt).
  rewrite Hk. simpl. rewrite IH. done.
Qed.

Lemma foldl_min_le (x : Z) l : foldl Z.min x l <= x /\ Forall (fun y => foldl Z.min x l <= y) l.
Proof.
  revert x. induction l as [|y l IH]; intros x; simpl; [split; [lia|constructor]|].
  destruct (IH (Z.min x y)) as [H1 H2]. split; [lia|].
  constructor; [lia|done].
Qed.

Lemma foldl_max_ge (x : Z) l : x <= foldl Z.max x l /\ Forall (fun y => y <= foldl Z.max x l) l.
Proof.
  revert x. induction l as [|y l IH]; intros x; simpl; [split; [lia|constructor]|].
  destruct (IH (Z.max x y)) as [H1 H2]. split; [lia|].
  constructor; [lia|done].
Qed.

(** A recomputed summary fits the bracket it was computed from. *)
Lemma summary_fits arr info : summary arr = Ok info -> summary_ok arr info.
Proof.
  unfold summary, summary_ok. destruct arr as [|p ps]; [done|].
  intros [= <-]. split; [done|]. intros _.
  destruct (foldl_min_le (id p) (id <$> ps)) as [Hm1 Hm2].
  destruct (foldl_max_ge (id p) (id <$> ps)) as [HM1 HM2].
  unfold info_min, info_max. simpl.
  constructor; [lia|].
  rewrite Forall_forall in Hm2. rewrite Forall_forall in HM2.
  apply Forall_forall. intros q Hq.
  assert (id q ∈ id <$> ps) as Hin by (by apply list_elem_of_fmap_2).
  specialize (Hm2 _ Hin). specialize (HM2 _ Hin). simpl in *. lia.
Qed.

Lemma summary_nonempty p ps : exists info, summary (p :: ps) = Ok info.
Proof. eexists. reflexivity. Qed.

Lemma np_take_ok arr local_indices :
  local_indices <> [] -> Forall (in_range arr) local_indices ->
  np_take arr local_indices = Ok (picked arr (Some local_indices)).
Proof.
  intros Hne Hrange. unfold np_take, picked.
  destruct local_indices; [done|]. by apply traverse_getitem.
Qed.

Lemma np_delete_ok arr local_indices :
  Forall (in_range arr) local_indices ->
  np_delete arr local_indices = Ok (kept arr (Some local_indices)).
Proof.
  intros Hrange. unfold np_delete, kept.
  by rewrite traverse_norm_index, bind_ret.
Qed.

(** [_remove_] on a request that leaves the bracket non-empty: the
    records at the requested slots are returned in the order of the
    request, the bracket keeps the others, its summary is recomputed. *)
Lemma remove_keeps_bracket s (b : nat) arr local_indices :
  _plist s !! b = Some arr ->
  (b < length (_pid_mapping_bounds s))%nat ->
  request_ok arr (Some local_indices) ->
  exists info,
    summary (kept arr (Some local_indices)) = Ok info
    /\ _remove_ s (Z.of_nat b) local_indices
       = Ok (set_bounds (set_plist s (<[b := kept arr (Some local_indices)]> (_plist s)))
               (<[b := info]> (_pid_mapping_bounds s)),
             picked arr (Some local_indices)).
Proof.
  intros Hb Hbs (Hne & Hrange & Hkept).
  pose proof (lookup_lt_Some _ _ _ Hb) as Hlt.
  unfold _remove_.
  rewrite (py_getitem_nat _ _ _ Hb), bind_ret.
  rewrite (np_take_ok _ _ Hne Hrange), bind_ret.
  rewrite (np_delete_ok _ _ Hrange), bind_ret.
  rewrite (py_setitem_nat _ _ _ Hlt), bind_ret.
  destruct (kept arr (Some local_indices)) as [|p ps] eqn:Hk; [done|].
  destruct (summary_nonempty p ps) as [info Hinfo]. exists info. split; [done|].
  rewrite Hinfo, bind_ret. rewrite (py_setitem_nat _ _ _ Hbs), bind_ret. done.
Qed.

(** ** Compaction returns on a store that fits the invariant *)

Lemma scan_brackets_ok s lw indices trg src :
  length (_pid_mapping_bounds s) = length (_plist s) ->
  Forall (fun i => 0 <= i < Z.of_nat (length (_plist s))) indices ->
  entry_ok s trg -> entry_ok s src ->
  exists trg' src',
    scan_brackets s lw indices trg src = Ok (trg', src')
    /\ entry_ok s trg' /\ entry_ok s src'.
Proof.
  intros Hlen Hidx. revert trg src.
  induction Hidx as [|i rest Hi _ IH]; intros trg src Ht Hs; simpl; [eauto|].
  assert (exists k : nat, i = Z.of_nat k /\ (k < length (_plist s))%nat)
    as (k & -> & Hk) by (exists (Z.to_nat i); lia).
  destruct (lookup_lt_is_Some_2 (_pid_mapping_bounds s) k) as [info Hinfo]; [lia|].
  destruct (lookup_lt_is_Some_2 (_plist s) k Hk) as [arr Harr].
  rewrite (py_getitem_nat _ _ _ Hinfo), bind_ret.
  rewrite (py_getitem_nat _ _ _ Harr).
  destruct (info_size info <? lw).
  - destruct trg as [trg|].
    + destruct src as [src|]; rewrite !bind_ret.
      * eauto.
      * exists (Some trg), (Some (Z.of_nat k, arr)). repeat split; eauto.
        simpl. eauto.
    + rewrite !bind_ret. destruct src as [src|].
      * exists (Some (Z.of_nat k, arr)), (Some src). repeat split; simpl; eauto.
      * apply IH; simpl; eauto.
  - rewrite bind_ret. destruct trg as [trg|].
    + destruct src as [src|]; [eauto|]. by apply IH.
    + by apply IH.
Qed.

Lemma merge_pair_ok s trg src :
  store_invariant s -> nonempty_brackets s ->
  entry_ok s (Some trg) -> entry_ok s (Some src) ->
  exists s',
    merge_pair s trg src = Ok s'
    /\ store_invariant s' /\ nonempty_brackets s'
    /\ nlist_limit s' = nlist_limit s.
Proof.
  intros Hinv Hne Ht Hs. pose proof (store_invariant_length s Hinv) as Hlen.
  destruct trg as [i arr], src as [j arr'].
  destruct Ht as (k & -> & Hk), Hs as (k' & -> & Hk').
  pose proof (lookup_lt_Some _ _ _ Hk) as Hlt.
  pose proof (lookup_lt_Some _ _ _ Hk') as Hlt'.
  unfold merge_pair. simpl.
  rewrite (py_setitem_nat _ _ _ Hlt), bind_ret.
  assert (arr <> []) as Harr.
  { unfold nonempty_brackets in Hne. rewrite Forall_forall in Hne.
    apply Hne. by eapply list_elem_of_lookup_2. }
  destruct (arr ++ arr') as [|p ps] eqn:Hm; [by destruct arr|].
  destruct (summary_nonempty p ps) as [info Hinfo].
  rewrite Hinfo, bind_ret.
  rewrite py_setitem_nat by lia. rewrite bind_ret.
  rewrite !py_delitem_nat by (rewrite length_insert; lia). rewrite !bind_ret.
  eexists. split; [done|]. simpl. repeat split.
  - unfold store_invariant. simpl. apply Forall2_delete.
    apply Forall2_insert; [done|]. by apply summary_fits.
  - unfold nonempty_brackets. simpl. apply Forall_delete.
    apply Forall_insert; [done|done].
Qed.

Lemma seqZ_range (n : nat) :
  Forall (fun i => 0 <= i < Z.of_nat n) (seqZ 0 (Z.of_nat n)).
Proof.
  apply Forall_forall. intros i Hi. apply elem_of_seqZ in Hi. lia.
Qed.

Lemma merge_loop_ok fuel s :
  (length (_plist s) < fuel)%nat ->
  store_invariant s -> nonempty_brackets s ->
  exists s',
    merge_loop fuel s = Ok s'
    /\ store_invariant s' /\ nonempty_brackets s'.
Proof.
  revert s. induction fuel as [|fuel IH]; intros s Hfuel Hinv Hne; [lia|].
  simpl.
  destruct (scan_brackets_ok s (Z.quot (nlist_limit s) 2)
              (seqZ 0 (Z.of_nat (length (_plist s)))) None None)
    as (trg & src & Hscan & Ht & Hs);
    [by apply store_invariant_length|apply seqZ_range|done|done|].
  rewrite Hscan, bind_ret.
  destruct trg as [trg|]; [|eauto]. destruct src as [src|]; [|eauto].
  destruct (merge_pair_ok s trg src Hinv Hne Ht Hs) as (s1 & Hm & Hinv1 & Hne1 & _).
  rewrite Hm, bind_ret. apply IH; [|done|done].
  apply merge_pair_length in Hm. lia.
Qed.

(** On a store that fits the invariant and has no empty bracket,
    compaction returns, and what it returns is such a store again. *)
Lemma merge_brackets_ok s :
  store_invariant s -> nonempty_brackets s ->
  exists s',
    _merge_brackets_ s = Ok s'
    /\ store_invariant s' /\ nonempty_brackets s'.
Proof. intros. apply merge_loop_ok; [lia|done|done]. Qed.

(** ** C3: the order of the records [pop] returns *)

Lemma np_take_out_of_range arr local_indices :
  ~ Forall (in_range arr) local_indices ->
  np_take arr local_indices = Raise IndexError.
Proof.
  unfold np_take. destruct local_indices as [|i0 l0]; [done|].
  generalize (i0 :: l0). clear i0 l0.
  induction l as [|i l IH]; intros Hnot; [by destruct Hnot|].
  cbn [traverse]. destruct (decide (in_range arr i)) as [Hi|Hi].
  - destruct (in_range_norm arr i Hi) as (k & Hk & Hlt).
    destruct (lookup_lt_is_Some_2 arr k Hlt) as [p Hp].
    assert (py_getitem arr i = Ok p) as -> by (unfold py_getitem; by rewrite Hk, Hp).
    rewrite bind_ret.
    rewrite IH; [done|]. intros Hl. apply Hnot. by constructor.
  - assert (py_getitem arr i = Raise IndexError) as ->; [|done].
    unfold py_getitem. unfold in_range in Hi.
    destruct (norm_index (length arr) i) as [k|] eqn:Hk; [|done].
    exfalso. apply Hi. unfold norm_index in Hk.
    destruct ((0 <=? i) && (i <? Z.of_nat (length arr))) eqn:E1; [lia|].
    destruct ((- Z.of_nat (length arr) <=? i) && (i <? 0)) eqn:E2; [lia|done].
Qed.

(** The loop of [pop] over brackets whose requests leave them
    non-empty: it reaches the next bracket with the records gathered
    bracket by bracket and each bracket reduced to what it keeps. *)
Lemma pop_loop_prefix l1 l2 c1 :
  Forall2 request_ok c1 l1 ->
  forall pre c2 s res,
    _plist s = pre ++ c1 ++ c2 ->
    store_invariant s -> nonempty_brackets s ->
    exists s1,
      pop_loop (l1 ++ l2) (Z.of_nat (length pre)) s res
      = pop_loop l2 (Z.of_nat (length pre + length c1)) s1
          (gathered res l1 (picked_by_bracket c1 l1))
      /\ _plist s1 = pre ++ zip_with kept c1 l1 ++ c2
      /\ store_invariant s1 /\ nonempty_brackets s1
      /\ nlist_limit s1 = nlist_limit s.
Proof.
  induction 1 as [|arr o c1 l1 Hreq _ IH]; intros pre c2 s res Hpl Hinv Hne.
  - exists s. simpl. rewrite Nat.add_0_r. repeat split; try done.
    destruct res; simpl; [by rewrite app_nil_r|done].
  - assert (_plist s !! length pre = Some arr) as Hlook
      by (rewrite Hpl; apply list_lookup_middle; done).
    destruct o as [locs|].
    + destruct (remove_keeps_bracket s (length pre) arr locs Hlook) as
        (info & Hinfo & Hrem); [|done|].
      { rewrite (store_invariant_length s Hinv). by eapply lookup_lt_Some. }
      set (s0 := set_bounds
                   (set_plist s (<[length pre := kept arr (Some locs)]> (_plist s)))
                   (<[length pre := info]> (_pid_mapping_bounds s))) in *.
      assert (_plist s0 = (pre ++ [kept arr (Some locs)]) ++ c1 ++ c2) as Hpl0.
      { simpl. rewrite Hpl. rewrite insert_app_r_alt by lia.
        rewrite Nat.sub_diag. simpl. by rewrite <- app_assoc. }
      destruct Hreq as (Hlocs & Hrange & Hkept).
      destruct (IH (pre ++ [kept arr (Some locs)]) c2 s0
                  (match res with
                   | Some r => Some (r ++ picked arr (Some locs))
                   | None => Some (picked arr (Some locs))
                   end) Hpl0) as (s1 & Hloop & Hpl1 & Hinv1 & Hne1 & Hlim).
      { unfold store_invariant. simpl. apply Forall2_insert; [done|].
        by apply summary_fits. }
      { unfold nonempty_brackets. simpl. by apply Forall_insert. }
      exists s1. rewrite <- app_comm_cons. cbn [pop_loop].
      rewrite Hrem, bind_ret.
      rewrite length_app in Hloop. change (length [kept arr (Some locs)]) with 1%nat in Hloop.
      replace (Z.of_nat (length pre) + 1) with (Z.of_nat (length pre + 1)) by lia.
      rewrite Hloop. repeat split; try done.
      * replace (length pre + 1 + length c1)%nat
          with (length pre + length (arr :: c1))%nat by (simpl; lia).
        f_equal. unfold picked_by_bracket. cbn [zip_with concat].
        destruct res as [r|]; cbn [gathered]; [by rewrite app_assoc|].
        cbn [requested_in foldr]. destruct locs; [done|]. done.
      * rewrite Hpl1. rewrite <- app_assoc. done.
    + destruct (IH (pre ++ [arr]) c2 s res) as (s1 & Hloop & Hpl1 & Hinv1 & Hne1 & Hlim);
        [by rewrite Hpl, <- app_assoc|done|done|].
      exists s1. rewrite <- app_comm_cons. cbn [pop_loop].
      rewrite length_app in Hloop. change (length [arr]) with 1%nat in Hloop.
      replace (Z.of_nat (length pre) + 1) with (Z.of_nat (length pre + 1)) by lia.
      rewrite Hloop. repeat split; try done.
      * replace (length pre + 1 + length c1)%nat
          with (length pre + length (arr :: c1))%nat by (simpl; lia).
        done.
      * rewrite Hpl1. rewrite <- app_assoc. done.
Qed.

Lemma index_walk_bracket fuel bounds pdata b st en b' st' en' :
  0 <= b ->
  index_walk fuel bounds pdata b st en = Ok (b', st', en') -> 0 <= b'.
Proof.
  revert b st en. induction fuel as [|fuel IH]; intros b st en Hb; simpl.
  - destruct (pdata >=? en); [done|]. intros [= <- <- <-]. done.
  - destruct (pdata >=? en).
    + intros (info & _ & H)%bind_Ok. apply IH in H; lia.
    + intros [= <- <- <-]. done.
Qed.

Lemma get_list_array_index_bracket s pdata b k :
  get_list_array_index s (PInt pdata) = Ok (Location b k) -> 0 <= b.
Proof.
  unfold get_list_array_index. intros (info & _ & H)%bind_Ok.
  apply bind_Ok in H as ([[b' st'] en'] & Hw & [= <- <-]).
  by apply index_walk_bracket in Hw.
Qed.

(** [fill_lindices] appends the slot of every request to the entry of
    its bracket, so an entry lists the slots of its bracket in the order
    of the request. *)
Lemma fill_lindices_groups s gindices lindices0 lindices :
  fill_lindices s (size s) gindices lindices0 = Ok lindices ->
  Forall (fun o => o <> Some []) lindices0 ->
  exists locs,
    Forall2 (resolves s) gindices locs
    /\ length lindices = length lindices0
    /\ Forall (fun o => o <> Some []) lindices
    /\ forall (b : nat) o0, lindices0 !! b = Some o0 ->
         exists o, lindices !! b = Some o
                   /\ slots_of o = slots_of o0 ++ slots_in b locs.
Proof.
  revert lindices0. induction gindices as [|g rest IH]; intros lindices0; simpl.
  - intros [= <-] Hne. exists []. repeat split; try done.
    intros b o0 Hb. exists o0. by rewrite app_nil_r.
  - intros (g' & Hwrap & H)%bind_Ok Hne.
    apply bind_Ok in H as (loc & Hloc & H).
    destruct loc as [b k|]; [|done].
    pose proof (get_list_array_index_bracket _ _ _ _ Hloc) as Hb0.
    apply bind_Ok in H as (cur & Hcur & H).
    apply bind_Ok in H as (lind1 & Hset & H).
    apply py_getitem_Ok in Hcur as (n & Hn & Hlook).
    unfold py_setitem in Hset. rewrite Hn in Hset. injection Hset as <-.
    assert (b = Z.of_nat n) as ->.
    { unfold norm_index in Hn.
      destruct ((0 <=? b) && (b <? Z.of_nat (length lindices0))) eqn:E;
        [injection Hn as <-; lia|].
      destruct ((- Z.of_nat (length lindices0) <=? b) && (b <? 0)) eqn:E'; [lia|done]. }
    apply IH in H as (locs & Hres & Hlen & Hne' & Hslots).
    2:{ apply Forall_insert; [done|]. destruct cur as [l|]; [by destruct l|done]. }
    exists ((n, k) :: locs). repeat split.
    + constructor; [|done]. exists g'. done.
    + by rewrite Hlen, length_insert.
    + done.
    + intros b o0 Hb. destruct (decide (b = n)) as [->|Hbn].
      * rewrite Hlook in Hb. injection Hb as <-.
        destruct (Hslots n (match cur with
                            | Some l => Some (l ++ [k])
                            | None => Some [k]
                            end)) as (o & Ho & Hso).
        { apply list_lookup_insert_eq. by eapply lookup_lt_Some. }
        exists o. split; [done|]. rewrite Hso. unfold slots_in.
        rewrite filter_cons_True by done. simpl.
        destruct cur as [l|]; simpl; [by rewrite <- app_assoc|done].
      * destruct (Hslots b o0) as (o & Ho & Hso).
        { by rewrite list_lookup_insert_ne. }
        exists o. split; [done|]. rewrite Hso. unfold slots_in.
        by rewrite filter_cons_False by (simpl; congruence).
Qed.

(** For an array of global indices, the entry of a bracket in
    [lindices] is [None] when no request resolves to the bracket, and
    otherwise the slots resolved to it in the order of the request. *)
Lemma to_lindices_array_groups s gindices lindices :
  to_lindices s (IdxArray gindices) = Ok lindices ->
  exists locs,
    Forall2 (resolves s) gindices locs
    /\ length lindices = length (_plist s)
    /\ forall b : nat, (b < length (_plist s))%nat ->
         lindices !! b
         = Some (match slots_in b locs with [] => None | l => Some l end).
Proof.
  unfold to_lindices. intros H.
  apply fill_lindices_groups in H as (locs & Hres & Hlen & Hne & Hslots).
  2:{ apply Forall_forall. intros o Ho. apply elem_of_replicate in Ho as [-> _]. done. }
  exists locs. rewrite length_replicate in Hlen. repeat split; try done.
  intros b Hb. destruct (Hslots b None) as (o & Ho & Hso).
  { by apply lookup_replicate_2. }
  rewrite Ho. f_equal. simpl in Hso. rewrite <- Hso.
  rewrite Forall_forall in Hne. specialize (Hne o (list_elem_of_lookup_2 _ _ _ Ho)).
  destruct o as [[|i l]|]; done.
Qed.

(** C3 (amended).  When every request names slots of its bracket and
    leaves a record in it, [pop] returns the removed records bracket by
    bracket in ascending bracket order, the records of one bracket in the
    order they were requested, and each bracket keeps its other records.
    When the request of a bracket names a slot out of the bracket's range
    and the brackets before it were treated as above, [pop] raises
    [IndexError].  For an array of global indices the request of a
    bracket is the slots resolved to it, in the order of the array. *)
Theorem pop_returns_bracket_by_bracket s indices lindices :
  store_invariant s -> nonempty_brackets s ->
  to_lindices s indices = Ok lindices ->
  (Forall2 request_ok (_plist s) lindices ->
   exists s1 s',
     pop s indices
     = Ok (s', pop_shape (gathered None lindices
                            (picked_by_bracket (_plist s) lindices)))
     /\ _plist s1 = zip_with kept (_plist s) lindices
     /\ store_invariant s1
     /\ _merge_brackets_ s1 = Ok s'
     /\ store_invariant s')
  /\ (forall c1 arr c2 l1 local_indices l2,
        _plist s = c1 ++ arr :: c2 ->
        lindices = l1 ++ Some local_indices :: l2 ->
        length l2 = length c2 ->
        Forall2 request_ok c1 l1 ->
        ~ Forall (in_range arr) local_indices ->
        pop s indices = Raise IndexError)
  /\ (forall gindices,
        indices = IdxArray gindices ->
        exists locs,
          Forall2 (resolves s) gindices locs
          /\ forall b : nat, (b < length (_plist s))%nat ->
               lindices !! b
               = Some (match slots_in b locs with [] => None | l => Some l end)).
Proof.
  intros Hinv Hne Hlind. split; [|split].
  - intros Hreq.
    destruct (pop_loop_prefix lindices [] (_plist s) Hreq [] [] s None)
      as (s1 & Hloop & Hpl1 & Hinv1 & Hne1 & Hlim); [by rewrite app_nil_r|done|done|].
    destruct (merge_brackets_ok s1 Hinv1 Hne1) as (s2 & Hm & Hinv2 & Hne2).
    exists s1, s2. unfold pop. rewrite Hlind, bind_ret.
    rewrite (Forall2_length _ _ _ Hreq), Nat.eqb_refl. simpl py_assert.
    rewrite bind_ret. rewrite app_nil_r in Hloop.
    change (Z.of_nat (length [])) with 0 in Hloop. rewrite Hloop. simpl pop_loop.
    rewrite bind_ret, Hm, bind_ret. rewrite app_nil_r in Hpl1. done.
  - intros c1 arr c2 l1 locs l2 Hpl -> Hlen Hreq Hnot.
    destruct (pop_loop_prefix l1 (Some locs :: l2) c1 Hreq [] (arr :: c2) s None)
      as (s1 & Hloop & Hpl1 & Hinv1 & Hne1 & Hlim); [done..|].
    unfold pop. rewrite Hlind, bind_ret.
    assert (length (l1 ++ Some locs :: l2) = length (_plist s)) as ->.
    { rewrite Hpl, !length_app. simpl. rewrite (Forall2_length _ _ _ Hreq). lia. }
    rewrite Nat.eqb_refl. simpl py_assert. rewrite bind_ret.
    change (Z.of_nat (length [])) with 0 in Hloop. rewrite Hloop. simpl pop_loop.
    unfold _remove_.
    assert (_plist s1 !! length c1 = Some arr) as Hlook.
    { rewrite Hpl1. simpl. rewrite lookup_app_r; rewrite length_zip_with;
        rewrite <- (Forall2_length _ _ _ Hreq), Nat.min_id; [|done].
      by rewrite Nat.sub_diag. }
    simpl length. rewrite (py_getitem_nat _ _ _ Hlook), bind_ret.
    by rewrite np_take_out_of_range.
  - intros gindices ->.
    destruct (to_lindices_array_groups s gindices lindices Hlind)
      as (locs & Hres & _ & Hgroups).
    by exists locs.
Qed.

Lemma pop_returns_bracket_by_bracket_witness :
  let p := fun k => mkParticle k 0 0 0 (Some 0%Q) 0 in
  let s := mkParticleSet [[p 0; p 1]; [p 2; p 3]] [(0, 1, 2); (2, 3, 2)]
             4096 None None None in
  exists s1 s',
    pop s (IdxArray [2; 0]) = Ok (s', PopList [p 0; p 2])
    /\ _plist s1 = [[p 1]; [p 3]]
    /\ store_invariant s1
    /\ _merge_brackets_ s1 = Ok s'
    /\ store_invariant s'.
Proof.
  intros p s.
  refine (proj1 (pop_returns_bracket_by_bracket s (IdxArray [2; 0])
                   [Some [0]; Some [0]] _ _ _) _).
  - apply (bool_decide_unpack _). vm_compute. exact I.
  - apply (bool_decide_unpack _). vm_compute. exact I.
  - vm_compute. reflexivity.
  - apply (bool_decide_unpack _). vm_compute. exact I.
Defined.

(** C3 as stated fails.  On two brackets of two particles each, the
    request for global indices 2 then 0 returns the record of index 0
    before the record of index 2.  On brackets of sizes 1, 1, 2 the
    request of slot 1 in bracket 1, out of range for that bracket, raises
    nothing once bracket 0 has been emptied and dropped: it removes the
    last record of what was bracket 2. *)
Lemma pop_not_in_request_order :
  (r ← ParticleSet_init 0 0 (line 2); q ← ParticleSet_init 0 r.2 (line 2);
   let s := add r.1 q.1 in
   v ← pop s (IdxArray [2; 0]);
   Ok (id <$> convert_pset_to_static_list s,
       match v.2 with PopList l => id <$> l | _ => [] end))
    = Ok ([0; 1; 2; 3], [0; 2])
  /\ (r ← ParticleSet_init 0 0 (line 1); q ← ParticleSet_init 0 r.2 (line 1);
      t ← ParticleSet_init 0 q.2 (line 2);
      let s := add (add r.1 q.1) t.1 in
      v ← pop s (IdxList [Some [0]; Some [1]; None]);
      Ok (length <$> _plist s,
          match v.2 with PopList l => id <$> l | _ => [] end))
     = Ok ([1%nat; 1%nat; 2%nat], [0; 3]).
Proof. split; vm_compute; reflexivity. Qed.

(** ** Construction yields a store that fits the invariant *)

Lemma alloc_brackets_sizes fuel n limit e sizes sizes' :
  0 < limit ->
  alloc_brackets fuel n limit e e sizes = Ok sizes' ->
  Forall (fun k => 0 <= k) sizes -> Forall (fun k => 0 <= k) sizes'.
Proof.
  intros Hlimit. revert e sizes.
  induction fuel as [|fuel IH]; intros e sizes; simpl.
  - destruct (e <? n); [done|]. by intros [= <-].
  - destruct (e <? n) eqn:E; [|by intros [= <-]].
    intros H Hpos. eapply IH; [exact H|].
    apply Forall_app. split; [done|]. constructor; [lia|done].
Qed.

Lemma py_index_nonneg {A} (l : list A) i k :
  0 <= i -> norm_index (length l) i = Some k -> k = Z.to_nat i.
Proof.
  intros Hi. unfold norm_index.
  destruct ((0 <=? i) && (i <? Z.of_nat (length l))); [by intros [= <-]|].
  destruct ((- Z.of_nat (length l) <=? i) && (i <? 0)) eqn:E; [lia|done].
Qed.

Lemma fill_brackets_filling limit lon lat depth time pid indices pl bs pl' bs' :
  0 < limit ->
  Forall (fun i => 0 <= i) indices ->
  fill_brackets limit lon lat depth time pid indices pl bs = Ok (pl', bs') ->
  Forall2 filling_ok pl bs -> Forall2 filling_ok pl' bs'.
Proof.
  intros Hlimit Hidx. revert pl bs.
  induction Hidx as [|i rest Hi _ IH]; intros pl bs; simpl.
  - by intros [= <- <-].
  - intros (x & _ & H)%bind_Ok. apply bind_Ok in H as (y & _ & H).
    apply bind_Ok in H as (k & _ & H). apply bind_Ok in H as (z & _ & H).
    apply bind_Ok in H as (t & _ & H). apply bind_Ok in H as (arr & Harr & H).
    apply bind_Ok in H as (arr' & Harr' & H). apply bind_Ok in H as (pl1 & Hpl1 & H).
    apply bind_Ok in H as (info & Hinfo & H). apply bind_Ok in H as (bs1 & Hbs1 & H).
    intros Hfill. apply (IH _ _ H). clear IH H.
    assert (0 <= Z.quot i limit) as Hb by (apply Z.quot_pos; lia).
    apply py_getitem_Ok in Harr as (nb & Hnb & Hlook).
    apply py_getitem_Ok in Hinfo as (nb' & Hnb' & Hlook').
    pose proof (py_index_nonneg _ _ _ Hb Hnb) as ->.
    pose proof (py_index_nonneg _ _ _ Hb Hnb') as ->.
    unfold py_setitem in Hpl1, Hbs1, Harr'. rewrite Hnb in Hpl1. rewrite Hnb' in Hbs1.
    injection Hpl1 as <-. injection Hbs1 as <-.
    destruct (norm_index (length arr) (i `mod` limit)) as [ns|]; [|done].
    injection Harr' as <-.
    apply Forall2_insert; [done|].
    destruct (Forall2_lookup_lr _ _ _ _ _ _ Hfill Hlook Hlook') as [Hsize Hids].
    split.
    + unfold info_size in *. simpl. by rewrite length_insert.
    + intros p Hp. unfold info_min, info_max in *. simpl.
      apply list_elem_of_lookup in Hp as [j Hj].
      destruct (decide (j = ns)) as [->|Hne].
      * assert (ns < length arr)%nat as Hns.
        { apply lookup_lt_Some in Hj. by rewrite length_insert in Hj. }
        rewrite list_lookup_insert_eq in Hj by done.
        injection Hj as <-. simpl. lia.
      * rewrite list_lookup_insert_ne in Hj by done.
        specialize (Hids p (list_elem_of_lookup_2 _ _ _ Hj)). lia.
Qed.

Lemma traverse_unwrap (arr : list (option Particle)) arr' :
  traverse (fun o => match o with
                     | Some p => Ok p
                     | None => Raise AttributeError
                     end) arr = Ok arr' ->
  arr = Some <$> arr'.
Proof.
  revert arr'. induction arr as [|o arr IH]; intros arr'; simpl.
  - by intros [= <-].
  - intros (p & Hp & H)%bind_Ok. apply bind_Ok in H as (ps & Hps & [= <-]).
    destruct o as [q|]; [|done]. injection Hp as ->. simpl. f_equal. by apply IH.
Qed.

Lemma filled_fits pl bs pl' :
  Forall2 filling_ok pl bs ->
  traverse (traverse (fun o => match o with
                               | Some p => Ok p
                               | None => Raise AttributeError
                               end)) pl = Ok pl' ->
  Forall2 summary_ok pl' bs.
Proof.
  intros Hfill. revert pl'. induction Hfill as [|arr info pl bs [Hsize Hids] _ IH];
    intros pl'; simpl.
  - intros [= <-]. constructor.
  - intros (arr' & Harr & H)%bind_Ok. apply bind_Ok in H as (rest & Hrest & [= <-]).
    apply traverse_unwrap in Harr as ->. constructor; [|by apply IH].
    split; [by rewrite length_fmap in Hsize|]. intros _.
    apply Forall_forall. intros p Hp. apply Hids. by apply list_elem_of_fmap_2.
Qed.

(** Whatever the constructor returns fits the invariant. *)
Lemma ParticleSet_init_invariant mindepth lastID a s lastID' :
  ParticleSet_init mindepth lastID a = Ok (s, lastID') -> store_invariant s.
Proof.
  unfold ParticleSet_init.
  intros ([] & _ & H)%bind_Ok. apply bind_Ok in H as ([] & _ & H).
  apply bind_Ok in H as (rep & _ & H). apply bind_Ok in H as (sizes & Hsizes & H).
  apply bind_Ok in H as ([pl bs] & Hfilled & H).
  apply bind_Ok in H as (pl' & Hpl' & [= <- _]).
  unfold store_invariant. simpl.
  apply alloc_brackets_sizes in Hsizes; [|lia|constructor].
  eapply filled_fits; [|exact Hpl'].
  eapply fill_brackets_filling; [|apply Forall_forall|exact Hfilled|]; [lia| |].
  - intros i Hi. apply elem_of_seqZ in Hi. lia.
  - apply Forall2_fmap. apply Forall_Forall2_diag.
    eapply Forall_impl; [exact Hsizes|]. intros k Hk. simpl in Hk. split.
    + unfold info_size. simpl. rewrite length_replicate. lia.
    + intros p Hp. apply elem_of_replicate in Hp as [? _]. done.
Qed.

(** ** C4: the invariant under the mutators *)

Lemma add_invariant s particles :
  store_invariant s -> store_invariant particles -> store_invariant (add s particles).
Proof. unfold store_invariant. simpl. apply Forall2_app. Qed.

Lemma bracket_info_eqb_eq a b : bracket_info_eqb a b = true <-> a = b.
Proof.
  destruct a as [[a1 a2] a3], b as [[b1 b2] b3].
  unfold bracket_info_eqb, info_min, info_max, info_size. simpl.
  rewrite !andb_true_iff, !Z.eqb_eq. split.
  - intros [[-> ->] ->]. done.
  - intros [= -> -> ->]. done.
Qed.

(** [list.remove] drops the entry at [b] when no earlier entry is equal
    to it. *)
Lemma list_remove_at (bounds : list bracket_info) (b : nat) info :
  bounds !! b = Some info ->
  (forall j, (j < b)%nat -> bounds !! j <> Some info) ->
  list_remove bracket_info_eqb info bounds = Ok (delete b bounds).
Proof.
  revert b. induction bounds as [|x bounds IH]; intros b Hb Hfirst; [done|].
  simpl. destruct b as [|b].
  - injection Hb as ->.
    assert (bracket_info_eqb info info = true) as -> by (by apply bracket_info_eqb_eq).
    done.
  - destruct (bracket_info_eqb x info) eqn:E.
    + apply bracket_info_eqb_eq in E as ->. exfalso.
      apply (Hfirst 0%nat); [lia|done].
    + rewrite (IH b); [done|done|]. intros j Hj. apply (Hfirst (S j)). lia.
Qed.

Lemma delete_insert_same {A} (l : list A) (k : nat) x :
  delete k (<[k := x]> l) = delete k l.
Proof.
  revert k. induction l as [|y l IH]; intros k; [done|].
  destruct k as [|k]; simpl; [done|]. by rewrite IH.
Qed.

(** [_remove_] keeps the invariant as long as the summary of the
    bracket it works on does not already occur before that bracket. *)
Lemma remove_invariant s (b : nat) arr local_indices :
  store_invariant s ->
  _plist s !! b = Some arr ->
  local_indices <> [] -> Forall (in_range arr) local_indices ->
  (forall j, (j < b)%nat -> _pid_mapping_bounds s !! j <> _pid_mapping_bounds s !! b) ->
  exists s',
    _remove_ s (Z.of_nat b) local_indices = Ok (s', picked arr (Some local_indices))
    /\ store_invariant s'.
Proof.
  intros Hinv Hb Hne Hrange Hfirst.
  pose proof (store_invariant_length s Hinv) as Hlen.
  pose proof (lookup_lt_Some _ _ _ Hb) as Hlt.
  destruct (lookup_lt_is_Some_2 (_pid_mapping_bounds s) b) as [info Hinfo]; [lia|].
  destruct (kept arr (Some local_indices)) as [|p ps] eqn:Hk.
  - unfold _remove_.
    rewrite (py_getitem_nat _ _ _ Hb), bind_ret.
    rewrite (np_take_ok _ _ Hne Hrange), bind_ret.
    rewrite (np_delete_ok _ _ Hrange), bind_ret, Hk.
    rewrite (py_setitem_nat _ _ _ Hlt), bind_ret. cbv iota.
    rewrite length_insert. destruct (1 <? length (_plist s))%nat eqn:E.
    + rewrite py_delitem_nat by (by rewrite length_insert). rewrite bind_ret.
      rewrite (py_getitem_nat _ _ _ Hinfo), bind_ret.
      rewrite (list_remove_at _ b info Hinfo), bind_ret.
      2:{ intros j Hj. rewrite <- Hinfo. by apply Hfirst. }
      eexists. split; [done|]. unfold store_invariant. simpl.
      rewrite delete_insert_same. by apply Forall2_delete.
    + rewrite py_setitem_nat by lia. rewrite bind_ret.
      eexists. split; [done|]. unfold store_invariant. simpl.
      apply Forall2_insert; [done|]. split; [done|].
      unfold info_size. simpl. lia.
  - destruct (remove_keeps_bracket s b arr local_indices Hb) as (info' & Hi & Hrem);
      [lia| |].
    { repeat split; try done. by rewrite Hk. }
    rewrite Hrem. eexists. split; [done|]. unfold store_invariant. simpl.
    apply Forall2_insert; [done|]. by apply summary_fits.
Qed.

(** C4 (code defect).  The claim: after any sequence of construction,
    [add], [pop] and [remove] every cached size is the length of its
    bracket and the cached bounds enclose the identities of a non-empty
    bracket.  [_remove_] drops the summary of an emptied bracket with
    [list.remove], by value, where [_merge_brackets_] deletes by index.
    A set of one particle to which a set [p] of one particle, a set of
    2048 particles and [p] again are added fits the invariant, with
    summaries [(0,0,1); (1,1,1); (2,2049,2048); (1,1,1)].  Removing the
    record of the last bracket drops the summary of bracket 1 instead of
    that of bracket 3, and after compaction the bracket holding the one
    record with identity 1 is summarised as [(2, 2049, 2048)]. *)
Theorem remove_drops_summary_by_value :
  ('(s, s') ← readded_then_removed;
   Ok (length <$> _plist s, _pid_mapping_bounds s,
       bool_decide (store_invariant s),
       length <$> _plist s', _pid_mapping_bounds s',
       (fun arr : list Particle => id <$> arr) <$> _plist s' !! 1%nat,
       bool_decide (store_invariant s')))
  = Ok ([1%nat; 1%nat; 2048%nat; 1%nat],
        [(0, 0, 1); (1, 1, 1); (2, 2049, 2048); (1, 1, 1)], true,
        [2049%nat; 1%nat], [(0, 2049, 2049); (2, 2049, 2048)], Some [1], false).
Proof. vm_compute. reflexivity. Qed.

(** ** C7: negative global indices in [pop] and [remove] *)

(** The wraparound of [pop] and [remove] on a non-empty set: one pass
    for an index in [-n, 0), and it always comes to an end. *)
Lemma wrap_gindex_negative n g :
  - n <= g < 0 -> wrap_gindex n g = Ok (n + g).
Proof.
  intros H. unfold wrap_gindex.
  destruct (Z.to_nat (- g)) as [|fuel] eqn:E; [lia|]. simpl.
  destruct (g <? 0) eqn:E1; [|lia].
  destruct fuel; simpl; destruct (n + g <? 0) eqn:E2; (lia || done).
Qed.

Lemma wrap_gindex_nonnegative n g : 0 <= g -> wrap_gindex n g = Ok g.
Proof.
  intros H. unfold wrap_gindex.
  destruct (Z.to_nat (- g)); simpl; destruct (g <? 0) eqn:E; (lia || done).
Qed.

Lemma wrap_loop_total fuel n g :
  0 < n -> (Z.to_nat (- g) <= fuel)%nat -> wrap_loop fuel n g <> Loops.
Proof.
  intros Hn. revert g. induction fuel as [|fuel IH]; intros g Hfuel; simpl.
  - destruct (g <? 0) eqn:E; [lia|done].
  - destruct (g <? 0) eqn:E; [|done]. apply IH. lia.
Qed.

(** On an empty set ([ncounter = 0]) the wraparound of a negative index
    never exits, whatever the number of passes allowed. *)
Lemma wrap_loop_empty_set fuel g : g < 0 -> wrap_loop fuel 0 g = Loops.
Proof.
  revert g. induction fuel as [|fuel IH]; intros g Hg; simpl;
    destruct (g <? 0) eqn:E; try lia; [done|]. by apply IH.
Qed.

(** [remove(g)] and [pop(g)] for [-size <= g < 0] are [remove(size + g)]
    and [pop(size + g)]. *)
Lemma negative_index_wraps s g :
  - size s <= g < 0 ->
  remove s (IdxInt g) = remove s (IdxInt (size s + g))
  /\ pop s (IdxInt g) = pop s (IdxInt (size s + g)).
Proof.
  intros H.
  assert (to_lindices s (IdxInt g) = to_lindices s (IdxInt (size s + g))) as Heq.
  { unfold to_lindices, fill_lindices.
    rewrite wrap_gindex_negative by done.
    rewrite wrap_gindex_nonnegative by lia. done. }
  unfold remove, pop. by rewrite Heq.
Qed.

(** C7 (code defect).  The claim: for [-n <= g < 0] on a set of [n]
    particles [remove(g)] and [pop(g)] act on global index [g + n]; so
    [-1] on five particles removes the last one and leaves four.  The
    wraparound itself is right ([negative_index_wraps]), but [g + n] then
    goes through [get_list_array_index], whose walk adds the size of the
    bracket it leaves.  On five particles in brackets of sizes 2 and 3,
    [remove(-1)] and [pop(-1)] raise [IndexError]; on seven particles in
    brackets of sizes 3, 2, 2, [pop(-1)] returns the record of global
    index 5 and leaves the last record in the set. *)
Theorem remove_minus_one_misses_last_particle :
  (s ← two_plus_three; Ok (size s, length <$> _plist s)) = Ok (5, [2%nat; 3%nat])
  /\ (s ← two_plus_three; remove s (IdxInt (-1))) = Raise IndexError
  /\ (s ← two_plus_three; pop s (IdxInt (-1))) = Raise IndexError
  /\ (s ← three_plus_two_plus_two;
      Ok (size s, id <$> convert_pset_to_static_list s))
     = Ok (7, [0; 1; 2; 3; 4; 5; 6])
  /\ (s ← three_plus_two_plus_two; '(s', v) ← pop s (IdxInt (-1));
      Ok (match v with PopParticle p => Some (id p) | _ => None end,
          id <$> convert_pset_to_static_list s'))
     = Ok (Some 5, [0; 1; 2; 3; 4; 6]).
Proof. repeat split; vm_compute; reflexivity. Qed.

(** On a set of five particles as the constructor builds it, in one
    bracket, [-1] does remove the last particle. *)
Example remove_minus_one_after_construction :
  ('(s, _) ← ParticleSet_init 0 0 (line 5); '(s', v) ← pop s (IdxInt (-1));
   Ok (match v with PopParticle p => Some (id p) | _ => None end,
       size s', id <$> convert_pset_to_static_list s'))
    = Ok (Some 4, 4, [0; 1; 2; 3]).
Proof. vm_compute. reflexivity. Qed.

(** ** C5: single-shot runs of [execute] *)

Section SingleShot.

Variable kernel_execute : ParticleSet -> xQ -> Q -> bool -> outcome ParticleSet.
Variable computeTimeChunk : xQ -> Q -> xQ.
Variables mintime maxtime mindepth : Q.
Variable floordiv : Q -> Q -> Q.

Abbreviation loop_body := (loop_body kernel_execute computeTimeChunk mindepth).
Abbreviation step_loop := (step_loop kernel_execute computeTimeChunk mindepth).
Abbreviation prepare := (prepare computeTimeChunk mintime maxtime floordiv).
Abbreviation execute :=
  (execute kernel_execute computeTimeChunk mintime maxtime mindepth floordiv).
Abbreviation single_shot := (single_shot mintime maxtime).

Lemma bind_Ok_r {A} (m : outcome A) : m ≫= Ok = m.
Proof. by destruct m. Qed.

(** With [dt = 0] the loop is one pass through its body, whatever the
    number of passes allowed. *)
Lemma step_loop_dt_zero fuel a endtime outputdt moviedt callbackdt once st :
  step_loop (S fuel) a 0 endtime outputdt moviedt callbackdt once st
  = loop_body a 0 endtime outputdt moviedt callbackdt once st.
Proof.
  simpl. change (Qeq_bool 0 0) with true. rewrite orb_true_r.
  apply bind_Ok_r.
Qed.

Lemma filter_kernel_app (tr es : list event) :
  forallb (fun e => negb (is_kernel_call e)) es = true ->
  filter (fun e => is_kernel_call e) (tr ++ es) = filter (fun e => is_kernel_call e) tr.
Proof.
  intros H. rewrite filter_app.
  assert (filter (fun e => is_kernel_call e) es = []) as ->; [|by rewrite app_nil_r].
  induction es as [|e es IH]; [done|]. simpl in H.
  apply andb_true_iff in H as [He Hes]. rewrite filter_cons.
  destruct (decide (is_kernel_call e)) as [Hk|Hk]; [|by apply IH].
  by destruct (is_kernel_call e).
Qed.

Lemma release_events st t dt st' :
  release mindepth st t dt = Ok st' ->
  filter (fun e => is_kernel_call e) (trace st')
  = filter (fun e => is_kernel_call e) (trace st)
  /\ now st' = now st.
Proof.
  unfold release. destruct (repeat_template (pset st)); [|done].
  intros ([pset_new lastID'] & _ & [= <-])%bind_Ok. simpl.
  split; [|done]. by apply filter_kernel_app.
Qed.

(** One pass through the body calls the kernel once, for the span up
    to the new current time, which is the nearest of the pending event
    times and the end time. *)
Lemma loop_body_kernel_once a dt endtime outputdt moviedt callbackdt once st st' :
  loop_body a dt endtime outputdt moviedt callbackdt once st = Ok st' ->
  filter (fun e => is_kernel_call e) (trace st')
  = filter (fun e => is_kernel_call e) (trace st) ++ [KernelExecute (now st') dt once]
  /\ now st'
     = (if Qltb 0 dt then foldl xQ_min else foldl xQ_max) (next_prelease st)
         [next_input st; next_output st; next_movie st; next_callback st;
          Fin endtime].
Proof.
  unfold loop_body.
  set (time := if Qltb 0 dt then _ else _).
  intros (s & _ & H)%bind_Ok. apply bind_Ok in H as (st1 & H1 & [= <-]).
  assert (filter (fun e => is_kernel_call e) (trace st1)
          = filter (fun e => is_kernel_call e) (trace st)
              ++ [KernelExecute time dt once]
          /\ now st1 = time) as [Htr Hnow].
  { destruct (within _ time _); simpl in H1.
    - destruct time as [|t|]; try done.
      destruct (repeatdt s) as [r|]; [|done].
      apply bind_Ok in H1 as (st2 & Hrel & [= <-]).
      apply release_events in Hrel as [Hrel Hnow]. simpl in *.
      rewrite Hrel, filter_app. done.
    - injection H1 as <-. simpl. rewrite filter_app. done. }
  assert (time = (if Qltb 0 dt then foldl xQ_min else foldl xQ_max)
                   (next_prelease st)
                   [next_input st; next_output st; next_movie st;
                    next_callback st; Fin endtime]) as Htime
    by (unfold time; by destruct (Qltb 0 dt)).
  rewrite <- Htime. clear Htime.
  repeat match goal with
         | |- context [if ?c then _ else _] => destruct c
         end; simpl; rewrite ?Hnow;
    rewrite ?filter_kernel_app; try done;
    try (by destruct (is_Some_b _));
    try (destruct (arg_postIterationCallbacks a); [|done];
         induction (seq 0 n); done).
Qed.

(** What the preparation fixes when the run is single-shot. *)
Lemma prepare_single_shot s lastID0 a sch :
  prepare s lastID0 a = Ok sch ->
  single_shot a (sch_starttime sch) = true ->
  sch_dt sch = 0%Q /\ sch_execute_once sch = true
  /\ sch_endtime sch = sch_starttime sch
  /\ now (sch_state sch) = Fin (sch_starttime sch)
  /\ filter (fun e => is_kernel_call e) (trace (sch_state sch)) = [].
Proof.
  unfold prepare.
  intros (_ & _ & H)%bind_Ok. apply bind_Ok in H as (_ & _ & H).
  apply bind_Ok in H as (_ & _ & H). apply bind_Ok in H as (_ & _ & H).
  apply bind_Ok in H as (start & _ & H). apply bind_Ok in H as (s1 & _ & H).
  apply bind_Ok in H as (np & _ & [= <-]). simpl. intros ->.
  repeat split.
  destruct (is_Some_b (arg_output_file a)), (arg_moviedt a) as [m|];
    try destruct (Qeq_bool m 0); done.
Qed.

(** A single-shot run calls the kernel exactly once, with [dt = 0] and
    [execute_once] set, and its loop ends after that one pass: one
    pass allowed is as good as any number. *)
Lemma single_shot_kernel_once fuel s lastID0 a st start :
  execute (S fuel) s lastID0 a = Ok (st, start) ->
  single_shot a start = true ->
  filter (fun e => is_kernel_call e) (trace st) = [KernelExecute (now st) 0 true]
  /\ execute 1 s lastID0 a = Ok (st, start).
Proof.
  unfold execute. intros (sch & Hprep & H)%bind_Ok.
  apply bind_Ok in H as (st1 & Hloop & [= <- <-]). intros Hsingle.
  destruct (prepare_single_shot _ _ _ _ Hprep Hsingle)
    as (Hdt & Honce & Hend & Hnow & Htr).
  rewrite Hprep, bind_ret. rewrite Hdt in *. rewrite step_loop_dt_zero in *.
  rewrite Hloop, bind_ret. split; [|done].
  apply loop_body_kernel_once in Hloop as [Hk _].
  simpl. rewrite filter_kernel_app by (by destruct (is_Some_b _)).
  by rewrite Hk, Htr, Honce.
Qed.


Lemma xQ_leb_refl a : xQ_leb a a = true.
Proof. destruct a; simpl; try done. apply Qle_bool_iff. apply Qle_refl. Qed.

Lemma xQ_leb_trans a b c :
  xQ_leb a b = true -> xQ_leb b c = true -> xQ_leb a c = true.
Proof.
  destruct a, b, c; simpl; try done.
  rewrite !Qle_bool_iff. apply Qle_trans.
Qed.

Lemma xQ_leb_total a b : xQ_leb a b = false -> xQ_leb b a = true.
Proof.
  destruct a, b; simpl; try done. intros H. apply Qle_bool_iff.
  destruct (Qlt_le_dec q q0) as [Hlt|Hle].
  - apply Qlt_le_weak in Hlt. apply Qle_bool_iff in Hlt. congruence.
  - done.
Qed.

Lemma xQ_max_cases a b : xQ_max a b = a \/ xQ_max a b = b.
Proof. unfold xQ_max. destruct (xQ_ltb a b); auto. Qed.

Lemma xQ_max_ge a b :
  xQ_leb a (xQ_max a b) = true /\ xQ_leb b (xQ_max a b) = true.
Proof.
  unfold xQ_max, xQ_ltb. destruct (xQ_leb b a) eqn:E; simpl.
  - split; [apply xQ_leb_refl|done].
  - split; [by apply xQ_leb_total|apply xQ_leb_refl].
Qed.

Lemma foldl_xQ_max_le m x l :
  xQ_leb x m = true -> Forall (fun y => xQ_leb y m = true) l ->
  xQ_leb (foldl xQ_max x l) m = true.
Proof.
  intros Hx Hl. revert x Hx. induction Hl as [|y l Hy _ IH]; intros x Hx; [done|].
  simpl. apply IH. by destruct (xQ_max_cases x y) as [->| ->].
Qed.

Lemma foldl_xQ_max_ge x l : xQ_leb x (foldl xQ_max x l) = true.
Proof.
  revert x. induction l as [|y l IH]; intros x; simpl; [apply xQ_leb_refl|].
  eapply xQ_leb_trans; [|apply IH]. apply xQ_max_ge.
Qed.

Lemma foldl_xQ_max_last x l m : xQ_leb m (foldl xQ_max x (l ++ [m])) = true.
Proof. rewrite foldl_app. simpl. apply xQ_max_ge. Qed.

Lemma xQ_min_cases a b : xQ_min a b = a \/ xQ_min a b = b.
Proof. unfold xQ_min. destruct (xQ_ltb b a); auto. Qed.

Lemma foldl_xQ_min_ge m x l :
  xQ_leb m x = true -> Forall (fun y => xQ_leb m y = true) l ->
  xQ_leb m (foldl xQ_min x l) = true.
Proof.
  intros Hx Hl. revert x Hx. induction Hl as [|y l Hy _ IH]; intros x Hx; [done|].
  simpl. apply IH. by destruct (xQ_min_cases x y) as [->| ->].
Qed.

Lemma xQ_sub_le t c : xQ_leb (Fin 0) c = true -> xQ_leb (xQ_sub t c) (Fin t) = true.
Proof.
  destruct c as [|c|]; simpl; try done. rewrite !Qle_bool_iff. intros H. lra.
Qed.

(** As long as no release is configured, [callbackdt] is not negative
    and the field set has no input pending after the start time, a
    single-shot run leaves the current time at the start time. *)
Lemma single_shot_time_unchanged fuel s lastID0 a st start :
  execute (S fuel) s lastID0 a = Ok (st, start) ->
  single_shot a start = true ->
  repeatdt s = None ->
  match arg_callbackdt a with Some c => Qle_bool 0 c = true | None => True end ->
  (forall t, xQ_leb (computeTimeChunk (Fin t) (sign 0)) (Fin t) = true) ->
  xQ_eqb (now st) (Fin start) = true.
Proof.
  unfold execute. intros (sch & Hprep & H)%bind_Ok.
  apply bind_Ok in H as (st1 & Hloop & [= <- <-]). intros Hsingle Hrep Hcb Hin.
  destruct (prepare_single_shot _ _ _ _ Hprep Hsingle)
    as (Hdt & Honce & Hend & Hnow & Htr).
  rewrite Hdt, step_loop_dt_zero in Hloop.
  apply loop_body_kernel_once in Hloop as [_ Hnow1].
  change (Qltb 0 0) with false in Hnow1. cbv iota in Hnow1.
  change (now (add_events st1 _)) with (now st1). rewrite Hnow1, Hend.
  clear Hnow1 Htr Hnow Hend Honce.
  revert Hprep Hdt. unfold prepare.
  intros (_ & _ & H)%bind_Ok. apply bind_Ok in H as ([] & Hout & H).
  apply bind_Ok in H as ([] & Hmov & H). apply bind_Ok in H as (_ & _ & H).
  apply bind_Ok in H as (t0 & _ & H). apply bind_Ok in H as (s1 & Hs1 & H).
  apply bind_Ok in H as (np & Hnp & Hsch).
  injection Hsch as Hsch. subst sch. simpl. intros Hdt.
  cbn [sch_starttime] in Hsingle. rewrite Hsingle in *.
  simpl in Hs1. rewrite Hrep in Hs1. injection Hs1 as <-.
  simpl in Hnp. rewrite Hrep in Hnp. injection Hnp as <-.
  cbn [sch_state sch_endtime next_prelease next_input next_output next_movie
         next_callback].
  change (Qltb 0 0) with false. cbv iota.
  assert (xQ_leb (Fin 0) (default PosInf (arg_output_file a)) = true) as Hout'
    by (unfold py_assert in Hout; by destruct (xQ_leb _ _)).
  assert (xQ_leb (Fin 0) (match arg_moviedt a with
                          | Some m => Fin m
                          | None => PosInf
                          end) = true) as Hmov'.
  { unfold py_assert in Hmov. destruct (arg_moviedt a); [|done]. simpl.
    by destruct (Qle_bool 0 q). }
  unfold xQ_eqb. apply andb_true_iff. split.
  - apply (foldl_xQ_max_le (Fin t0) NegInf [_; _; _; _; _]); [done|].
    repeat constructor; try apply Hin; try apply xQ_leb_refl;
      apply xQ_sub_le; try done.
    destruct (arg_callbackdt a) as [c|]; [done|].
    simpl repeatdt. rewrite Hrep.
    apply (foldl_xQ_min_ge (Fin 0) PosInf [_; _]); [done|]. by repeat constructor.
  - apply (foldl_xQ_max_last NegInf [_; _; _; _] (Fin t0)).
Qed.

End SingleShot.

(** C5 (code defect).  The claim: a run with [dt = 0], [runtime = 0] or
    an end time equal to the start time calls the kernel once, ends its
    loop after that pass and leaves the current time at the start time.
    The first two hold on every run ([single_shot_kernel_once]), and so
    does the third as long as no event time lies after the start time
    ([single_shot_time_unchanged]).  But the loop takes the new time as
    the maximum of the pending event times and the end time, and with
    [dt = 0] the next release is put at [repeat_starttime].  Two
    particles released at time 0 with [repeatdt = 5] and run backward to
    time -10 are all at time -10; on [execute(dt=0)] the start time is
    -10, the kernel is called once for the span up to time 0, a release
    takes place, and the current time is 0 when the loop exits. *)
Theorem single_shot_moves_time_to_release_start :
  ('(st, start) ← backward_then_single_shot; Ok (start, now st, trace st))
  = Ok ((-10)%Q, Fin 0, [KernelExecute (Fin 0) 0 true; Release (Fin 0)]).
Proof. vm_compute. reflexivity. Qed.

(** ** Lists cut into pieces ([reshape]) *)

Lemma reshape_concat {A} sizes (l : list A) :
  (length l <= sum_list sizes)%nat -> concat (reshape sizes l) = l.
Proof.
  revert l. induction sizes as [|k sizes IH]; intros l; simpl.
  - intros H. destruct l; [done|simpl in H; lia].
  - intros H. rewrite IH; [apply take_drop|]. rewrite length_drop. lia.
Qed.

Lemma reshape_fmap {A B} (f : A -> B) sizes (l : list A) :
  reshape sizes (f <$> l) = map (map f) (reshape sizes l).
Proof.
  revert l. induction sizes as [|k sizes IH]; intros l; simpl; [done|].
  by rewrite <- fmap_take, <- fmap_drop, IH.
Qed.

Lemma reshape_replicate {A} sizes (x : A) :
  reshape sizes (replicate (sum_list sizes) x) = (fun k => replicate k x) <$> sizes.
Proof.
  induction sizes as [|k sizes IH]; simpl; [done|].
  rewrite take_replicate_add, drop_replicate_add, IH. done.
Qed.

Lemma reshape_lengths {A} sizes (l : list A) :
  (sum_list sizes <= length l)%nat -> length <$> reshape sizes l = sizes.
Proof.
  revert l. induction sizes as [|k sizes IH]; intros l; simpl; [done|].
  intros H. rewrite length_take, IH by (rewrite length_drop; lia). f_equal. lia.
Qed.

(** Writing slot [slot] of piece [b], when the pieces before it all
    have length [c], is writing position [b * c + slot] of the list. *)
Lemma reshape_insert {A} (c : nat) sizes (b slot k : nat) (l : list A) x :
  (forall j, (j < b)%nat -> sizes !! j = Some c) ->
  sizes !! b = Some k -> (slot < k)%nat ->
  reshape sizes l !! b = Some (take k (drop (b * c) l))
  /\ <[b := <[slot := x]> (take k (drop (b * c) l))]> (reshape sizes l)
     = reshape sizes (<[(b * c + slot)%nat := x]> l).
Proof.
  revert sizes l. induction b as [|b IH]; intros sizes l Hpre Hb Hslot.
  - destruct sizes as [|k' sizes]; [done|]. injection Hb as ->. simpl.
    split; [done|]. rewrite take_insert_lt, drop_insert_lt by done. done.
  - destruct sizes as [|k' sizes]; [done|].
    assert (k' = c) as ->.
    { specialize (Hpre 0%nat). simpl in Hpre. assert (Some k' = Some c) as [= ->] by (apply Hpre; lia). done. }
    simpl in Hb.
    destruct (IH sizes (drop c l)) as [H1 H2]; [|done|done|].
    { intros j Hj. apply (Hpre (S j)). lia. }
    rewrite drop_drop in H1, H2.
    replace (S b * c)%nat with (c + b * c)%nat by lia.
    split; [done|]. simpl. f_equal.
    + by rewrite take_insert_ge by lia.
    + rewrite drop_insert_ge by lia.
      replace (c + b * c + slot - c)%nat with (b * c + slot)%nat by lia. exact H2.
Qed.

(** ** What the constructor builds *)

Lemma alloc_brackets_exact (q : nat) (L r n : Z) :
  0 < L -> 0 < r <= L -> n = Z.of_nat q * L + r ->
  forall (d k : nat) fuel sizes, (k + d = q)%nat -> (d < fuel)%nat ->
    alloc_brackets fuel n L (Z.of_nat k * L) (Z.of_nat k * L) sizes
    = Ok (sizes ++ replicate d L ++ [r]).
Proof.
  intros HL Hr Hn. induction d as [|d IH]; intros k fuel sizes Hk Hfuel.
  - destruct fuel as [|fuel]; [lia|]. simpl.
    assert (k = q) as -> by lia.
    destruct (Z.of_nat q * L <? n) eqn:E; [|lia].
    replace (Z.min n (Z.of_nat q * L + L)) with n by lia.
    destruct fuel; simpl; destruct (n <? n) eqn:E'; try lia;
      do 3 f_equal; lia.
  - destruct fuel as [|fuel]; [lia|]. simpl.
    assert (Z.of_nat (S k) * L <= Z.of_nat q * L) as Hle
      by (apply Z.mul_le_mono_nonneg_r; lia).
    assert (Z.of_nat (S k) * L = Z.of_nat k * L + L) as Hs by lia.
    destruct (Z.of_nat k * L <? n) eqn:E; [|lia].
    replace (Z.min n (Z.of_nat k * L + L)) with (Z.of_nat (S k) * L) by lia.
    rewrite (IH (S k)) by lia. rewrite <- app_assoc. simpl. do 3 f_equal. lia.
Qed.

Lemma omap_seq_total {A} (f : nat -> option A) (s n : nat) :
  (forall i, (s <= i < s + n)%nat -> is_Some (f i)) ->
  length (omap f (seq s n)) = n
  /\ forall i, (i < n)%nat -> omap f (seq s n) !! i = f (s + i)%nat.
Proof.
  revert s. induction n as [|n IH]; intros s Hf; simpl; [split; [done|lia]|].
  destruct (Hf s) as [x Hx]; [lia|]. rewrite Hx.
  destruct (IH (S s)) as [Hlen Hlook]; [intros i Hi; apply Hf; lia|].
  simpl. split; [f_equal; exact Hlen|].
  intros [|i] Hi; simpl.
  - by rewrite Nat.add_0_r.
  - etrans; [apply Hlook; lia|]. f_equal. lia.
Qed.

Lemma well_shaped_lengths mindepth lastID a :
  well_shaped a ->
  length (arg_lat a) = length (arg_lon a)
  /\ length (depth_of mindepth a) = length (arg_lon a)
  /\ length (time_of a) = length (arg_lon a)
  /\ length (pid_of lastID a) = length (arg_lon a).
Proof.
  intros (Hlat & Hdepth & Htime & Hpid). repeat split; try done.
  - unfold depth_of. destruct (arg_depth a); simpl in *; [done|apply length_replicate].
  - unfold pid_of. rewrite length_fmap.
    destruct (arg_pid_orig a); simpl in *; [done|].
    rewrite length_seqZ. lia.
Qed.

Lemma records_of_lookup mindepth lastID a :
  well_shaped a ->
  length (records_of mindepth lastID a) = length (arg_lon a)
  /\ forall i, (i < length (arg_lon a))%nat ->
       records_of mindepth lastID a !! i = record_of mindepth lastID a i
       /\ is_Some (record_of mindepth lastID a i).
Proof.
  intros Hshape.
  destruct (well_shaped_lengths mindepth lastID a Hshape) as (Hlat & Hdepth & Htime & Hpid).
  assert (forall i, (i < length (arg_lon a))%nat ->
            is_Some (record_of mindepth lastID a i)) as Hsome.
  { intros i Hi. unfold record_of.
    destruct (lookup_lt_is_Some_2 (pid_of lastID a) i) as [k ->]; [lia|].
    destruct (lookup_lt_is_Some_2 (arg_lon a) i) as [x ->]; [lia|].
    destruct (lookup_lt_is_Some_2 (arg_lat a) i) as [y ->]; [lia|].
    destruct (lookup_lt_is_Some_2 (depth_of mindepth a) i) as [z ->]; [lia|].
    destruct (lookup_lt_is_Some_2 (time_of a) i) as [t ->]; [lia|].
    simpl. eauto. }
  destruct (omap_seq_total (record_of mindepth lastID a) 0 (length (arg_lon a)))
    as [Hlen Hlook]; [intros i Hi; apply Hsome; lia|].
  split; [done|]. intros i Hi. split; [by apply Hlook|by apply Hsome].
Qed.

Lemma sizes_lookup (L q r m : nat) :
  (0 < L)%nat -> (0 < r <= L)%nat -> (m < q * L + r)%nat ->
  exists k,
    (forall j, (j < m / L)%nat -> (replicate q L ++ [r]) !! j = Some L)
    /\ (replicate q L ++ [r]) !! (m / L)%nat = Some k
    /\ (m mod L < k)%nat /\ (m / L * L + k <= q * L + r)%nat
    /\ (m / L * L + m mod L = m)%nat /\ (m / L <= q)%nat.
Proof.
  intros HL Hr Hm.
  pose proof (Nat.div_mod_eq m L) as Hdm.
  pose proof (Nat.mod_upper_bound m L ltac:(lia)) as Hmod.
  assert (m / L < S q)%nat as Hb by (apply Nat.Div0.div_lt_upper_bound; lia).
  assert (forall j, (j < q)%nat -> (replicate q L ++ [r]) !! j = Some L) as Hfull.
  { intros j Hj. rewrite lookup_app_l by (rewrite length_replicate; lia).
    by apply lookup_replicate_2. }
  destruct (decide (m / L < q)%nat) as [Hlt|Hge].
  - exists L. repeat split; try lia.
    + intros j Hj. apply Hfull. lia.
    + by apply Hfull.
    + assert (S (m / L) * L <= q * L)%nat by (apply Nat.mul_le_mono_r; lia). lia.
  - assert (m / L = q)%nat as Hq by lia. exists r. rewrite Hq in *. repeat split; try lia.
    + intros j Hj. by apply Hfull.
    + rewrite lookup_app_r by (rewrite length_replicate; lia).
      rewrite length_replicate, Nat.sub_diag. done.
Qed.

(** The fill loop from index [m] on: the arrays end as the wanted
    records [ps], cut into the allocated reshape. *)
Lemma fill_brackets_exact (L q r : nat) lons lats depths times pids
    (ps : list Particle) :
  (0 < L)%nat -> (0 < r <= L)%nat ->
  length ps = (q * L + r)%nat ->
  (forall (i : nat) p, ps !! i = Some p ->
     py_getitem lons (Z.of_nat i) = Ok (lon p)
     /\ py_getitem lats (Z.of_nat i) = Ok (lat p)
     /\ py_getitem pids (Z.of_nat i) = Ok (id p)
     /\ py_getitem depths (Z.of_nat i) = Ok (depth p)
     /\ py_getitem times (Z.of_nat i) = Ok (time p)
     /\ dt p = 0%Q) ->
  forall (d m : nat) bs, (m + d = length ps)%nat -> length bs = S q ->
    exists bs',
      fill_brackets (Z.of_nat L) lons lats depths times pids
        (seqZ (Z.of_nat m) (Z.of_nat d))
        (reshape (replicate q L ++ [r]) ((Some <$> take m ps) ++ replicate d None)) bs
      = Ok (map (map Some) (reshape (replicate q L ++ [r]) ps), bs')
      /\ length bs' = length bs.
Proof.
  intros HL Hr Hlen Hget. induction d as [|d IH]; intros m bs Hm Hbs.
  - exists bs. simpl. rewrite app_nil_r, take_ge by lia. by rewrite reshape_fmap.
  - rewrite seqZ_cons by lia.
    replace (Z.pred (Z.of_nat (S d))) with (Z.of_nat d) by lia.
    replace (Z.succ (Z.of_nat m)) with (Z.of_nat (S m)) by lia.
    destruct (lookup_lt_is_Some_2 ps m) as [p Hp]; [lia|].
    destruct (Hget m p Hp) as (Hx & Hy & Hk & Hz & Ht & Hdt).
    destruct (sizes_lookup L q r m HL Hr) as (k & Hpre & Hsz & Hslot & Hfit & Hdm & Hbq);
      [lia|].
    set (G := (Some <$> take m ps) ++ replicate (S d) None).
    assert (length G = (q * L + r)%nat) as HG.
    { unfold G. rewrite length_app, length_fmap, length_take, length_replicate. lia. }
    destruct (reshape_insert L (replicate q L ++ [r]) (m / L) (m mod L) k G (Some p)
                Hpre Hsz Hslot) as [Hlook Hins].
    cbn [fill_brackets].
    rewrite Z.quot_div_nonneg, <- Nat2Z.inj_div, <- Nat2Z.inj_mod by lia.
    rewrite Hx, Hy, Hk, Hz, Ht. rewrite !bind_ret.
    rewrite (py_getitem_nat _ _ _ Hlook), bind_ret.
    rewrite py_setitem_nat, bind_ret
      by (rewrite length_take, length_drop; lia).
    rewrite py_setitem_nat, bind_ret
      by (rewrite length_reshape, length_app, length_replicate; simpl; lia).
    destruct (lookup_lt_is_Some_2 bs (m / L)) as [info Hinfo]; [lia|].
    rewrite (py_getitem_nat _ _ _ Hinfo), bind_ret.
    rewrite py_setitem_nat, bind_ret by lia.
    assert (mkParticle (id p) (lon p) (lat p) (depth p) (time p) 0 = p)
      as -> by (destruct p; simpl in *; by subst).
    rewrite Hins, Hdm.
    assert (<[m := Some p]> G = (Some <$> take (S m) ps) ++ replicate d None) as ->.
    { unfold G. rewrite insert_app_r_alt by (rewrite length_fmap, length_take; lia).
      rewrite length_fmap, length_take.
      replace (m - m `min` length ps)%nat with 0%nat by lia.
      rewrite (take_S_r _ _ _ Hp), fmap_app, <- app_assoc. done. }
    destruct (IH (S m) (<[(m / L)%nat :=
                            (Z.min (id p) (info_min info), Z.max (id p) (info_max info),
                             info_size info)]> bs)) as (bs' & Hfill & Hlen');
      [lia|by rewrite length_insert|].
    exists bs'. split; [done|]. by rewrite Hlen', length_insert.
Qed.

Lemma traverse_unwrap_Some (pl : list (list Particle)) :
  traverse (traverse (fun o : option Particle =>
                        match o with
                        | Some p => Ok p
                        | None => Raise AttributeError
                        end)) (map (map Some) pl) = Ok pl.
Proof.
  induction pl as [|arr pl IH]; simpl; [done|].
  assert (traverse (fun o : option Particle =>
                      match o with
                      | Some p => Ok p
                      | None => Raise AttributeError
                      end) (map Some arr) = Ok arr) as ->.
  { induction arr as [|p arr IHa]; simpl; [done|]. by rewrite IHa. }
  rewrite bind_ret, IH. done.
Qed.

(** The identity counter the constructor leaves. *)
Lemma py_getitem_lookup {A} (l : list A) (i : nat) x :
  l !! i = Some x -> py_getitem l (Z.of_nat i) = Ok x.
Proof. apply py_getitem_nat. Qed.

(** On well-shaped arguments without a release interval the constructor
    returns: the brackets are the wanted records cut into reshape of
    4096, the last piece holding what is left. *)
Lemma ParticleSet_init_exact mindepth lastID a :
  well_shaped a -> arg_repeatdt a = None ->
  exists sizes bs,
    ParticleSet_init mindepth lastID a
    = Ok (mkParticleSet (reshape sizes (records_of mindepth lastID a)) bs 4096
            None None None,
          match pid_of lastID a with
          | [] => -1
          | k :: ks => foldl Z.max k ks
          end + 1)
    /\ length bs = length sizes
    /\ ((arg_lon a = [] /\ sizes = [])
        \/ exists q r, sizes = replicate q 4096%nat ++ [r] /\ (0 < r <= 4096)%nat
                       /\ length (arg_lon a) = (q * 4096 + r)%nat).
Proof.
  intros Hshape Hrep.
  destruct (well_shaped_lengths mindepth lastID a Hshape) as (Hlat & Hdepth & Htime & Hpid).
  destruct (records_of_lookup mindepth lastID a Hshape) as [Hlen Hrec].
  unfold ParticleSet_init. fold (pid_of lastID a) (depth_of mindepth a) (time_of a).
  rewrite Hlat, Hdepth, Htime, !Nat.eqb_refl. simpl py_assert. rewrite !bind_ret.
  rewrite Hrep, bind_ret.
  destruct (decide (length (arg_lon a) = 0%nat)) as [Hz|Hnz].
  - exists [], []. apply nil_length_inv in Hz.
    split; [|split; [done|by left]].
    unfold records_of. rewrite Hz. done.
  - set (n := length (arg_lon a)) in *.
    set (q := ((n - 1) / 4096)%nat). set (r := (n - q * 4096)%nat).
    pose proof (Nat.div_mod_eq (n - 1) 4096) as Hdm.
    pose proof (Nat.mod_upper_bound (n - 1) 4096 ltac:(lia)) as Hmod.
    assert (0 < r <= 4096)%nat as Hr by (unfold r, q; lia).
    assert (n = q * 4096 + r)%nat as Hn by (unfold r, q; lia).
    pose proof (alloc_brackets_exact q 4096 (Z.of_nat r) (Z.of_nat n)
                  ltac:(lia) ltac:(lia) ltac:(lia) q 0 (S n) [] ltac:(lia) ltac:(lia))
      as Halloc.
    change (Z.of_nat 0 * 4096) with 0 in Halloc. rewrite Halloc, bind_ret.
    cbn [app].
    assert ((replicate q 4096 ++ [Z.of_nat r] : list Z)
            = Z.of_nat <$> (replicate q 4096%nat ++ [r])) as Hsizes.
    { rewrite fmap_app, fmap_replicate. done. }
    rewrite Hsizes. rewrite <- !list_fmap_compose.
    destruct (fill_brackets_exact 4096 q r (arg_lon a) (arg_lat a) (depth_of mindepth a)
                (time_of a) (pid_of lastID a) (records_of mindepth lastID a)
                ltac:(lia) Hr ltac:(lia)) with (d := n) (m := 0%nat)
                (bs := ((fun k : Z => (int32_max, int32_min, k)) ∘ Z.of_nat)
                         <$> (replicate q 4096%nat ++ [r]))
      as (bs' & Hfill & Hbs').
    { intros i p Hp. pose proof (lookup_lt_Some _ _ _ Hp) as Hi.
      destruct (Hrec i) as [Heq _]; [lia|]. rewrite Hp in Heq. symmetry in Heq.
      unfold record_of in Heq.
      destruct (pid_of lastID a !! i) as [k|] eqn:Ek; [|done].
      destruct (arg_lon a !! i) as [x|] eqn:Ex; [|done].
      destruct (arg_lat a !! i) as [y|] eqn:Ey; [|done].
      destruct (depth_of mindepth a !! i) as [z|] eqn:Ez; [|done].
      destruct (time_of a !! i) as [t|] eqn:Et; [|done].
      simpl in Heq. injection Heq as <-. simpl.
      rewrite (py_getitem_nat _ _ _ Ek), (py_getitem_nat _ _ _ Ex),
        (py_getitem_nat _ _ _ Ey), (py_getitem_nat _ _ _ Ez), (py_getitem_nat _ _ _ Et).
      done. }
    { lia. }
    { rewrite length_fmap, length_app, length_replicate. simpl. lia. }
    assert (((fun k : Z => replicate (Z.to_nat k) (@None Particle)) ∘ Z.of_nat)
              <$> (replicate q 4096%nat ++ [r])
            = reshape (replicate q 4096%nat ++ [r])
                ((Some <$> take 0 (records_of mindepth lastID a)) ++ replicate n None))
      as Hpl.
    { simpl take. simpl fmap at 2. cbn [app].
      assert (n = sum_list (replicate q 4096%nat ++ [r])) as Hsum.
      { rewrite sum_list_with_app, sum_list_replicate. simpl. lia. }
      rewrite Hsum at 1. rewrite reshape_replicate. apply list_fmap_ext.
      intros _ k _. simpl. by rewrite Nat2Z.id. }
    rewrite Hpl. change (Z.of_nat 4096) with 4096 in Hfill.
    change (Z.of_nat 0) with 0 in Hfill. rewrite Hfill, bind_ret.
    rewrite traverse_unwrap_Some, bind_ret.
    exists (replicate q 4096%nat ++ [r]), bs'. split; [done|]. split.
    + by rewrite Hbs', length_fmap.
    + right. exists q, r. done.
Qed.

Lemma foldl_max_seqZ (c x m : Z) (d : nat) :
  foldl Z.max x ((fun k => k + c) <$> seqZ m (Z.of_nat d))
  = if decide (d = 0%nat) then x else Z.max x (m + Z.of_nat d - 1 + c).
Proof.
  induction d as [|d IH]; [done|].
  rewrite seqZ_S, fmap_app, foldl_app, IH. simpl.
  destruct (decide (d = 0%nat)); destruct (decide (S d = 0%nat)); lia.
Qed.

Lemma fill_brackets_shape limit lon lat depth time pid indices pl bs pl' bs' :
  fill_brackets limit lon lat depth time pid indices pl bs = Ok (pl', bs') ->
  length <$> pl' = length <$> pl /\ length bs' = length bs.
Proof.
  revert pl bs. induction indices as [|i rest IH]; intros pl bs; simpl.
  - by intros [= <- <-].
  - intros (x & _ & H)%bind_Ok. apply bind_Ok in H as (y & _ & H).
    apply bind_Ok in H as (k & _ & H). apply bind_Ok in H as (z & _ & H).
    apply bind_Ok in H as (t & _ & H). apply bind_Ok in H as (arr & Harr & H).
    apply bind_Ok in H as (arr' & Harr' & H). apply bind_Ok in H as (pl1 & Hpl1 & H).
    apply bind_Ok in H as (info & Hinfo & H). apply bind_Ok in H as (bs1 & Hbs1 & H).
    apply IH in H as [-> ->].
    apply py_getitem_Ok in Harr as (nb & Hnb & Hlook).
    unfold py_setitem in Hpl1, Hbs1, Harr'. rewrite Hnb in Hpl1.
    injection Hpl1 as <-.
    destruct (norm_index (length bs) _); [|done]. injection Hbs1 as <-.
    destruct (norm_index (length arr) _); [|done]. injection Harr' as <-.
    split; [|by rewrite length_insert].
    rewrite list_fmap_insert, length_insert.
    apply list_insert_id. by rewrite list_lookup_fmap, Hlook.
Qed.

Lemma traverse_unwrap_shape (pl : list (list (option Particle))) pl' :
  traverse (traverse (fun o => match o with
                               | Some p => Ok p
                               | None => Raise AttributeError
                               end)) pl = Ok pl' ->
  length <$> pl' = length <$> pl.
Proof.
  revert pl'. induction pl as [|arr pl IH]; intros pl'; simpl.
  - by intros [= <-].
  - intros (arr' & Harr & H)%bind_Ok. apply bind_Ok in H as (rest & Hrest & [= <-]).
    apply traverse_length in Harr. simpl. f_equal; [done|by apply IH].
Qed.

(** The bracket lengths of whatever the constructor returns: as many
    full brackets of 4096 as fit, then one bracket with the rest. *)
Lemma ParticleSet_init_shape mindepth lastID a s next_id :
  ParticleSet_init mindepth lastID a = Ok (s, next_id) ->
  (_plist s = [] /\ arg_lon a = [])
  \/ exists q r, length <$> _plist s = replicate q 4096%nat ++ [r]
                 /\ (0 < r <= 4096)%nat /\ length (arg_lon a) = (q * 4096 + r)%nat.
Proof.
  unfold ParticleSet_init.
  intros ([] & _ & H)%bind_Ok. apply bind_Ok in H as ([] & _ & H).
  apply bind_Ok in H as (rep & _ & H). apply bind_Ok in H as (sizes & Hsizes & H).
  apply bind_Ok in H as ([pl bs] & Hfilled & H).
  apply bind_Ok in H as (pl' & Hpl' & [= <- _]). simpl.
  apply fill_brackets_shape in Hfilled as [Hshape _].
  apply traverse_unwrap_shape in Hpl'. rewrite Hshape in Hpl'. clear Hshape.
  rewrite <- list_fmap_compose in Hpl'.
  destruct (decide (length (arg_lon a) = 0%nat)) as [Hz|Hnz].
  - left. rewrite Hz in Hsizes. simpl in Hsizes. injection Hsizes as <-.
    split; [by destruct pl'|by apply nil_length_inv].
  - right. set (n := length (arg_lon a)) in *.
    set (q := ((n - 1) / 4096)%nat). set (r := (n - q * 4096)%nat).
    pose proof (Nat.div_mod_eq (n - 1) 4096) as Hdm.
    pose proof (Nat.mod_upper_bound (n - 1) 4096 ltac:(lia)) as Hmod.
    assert (0 < r <= 4096)%nat as Hr by (unfold r, q; lia).
    assert (n = q * 4096 + r)%nat as Hn by (unfold r, q; lia).
    pose proof (alloc_brackets_exact q 4096 (Z.of_nat r) (Z.of_nat n)
                  ltac:(lia) ltac:(lia) ltac:(lia) q 0 (S n) [] ltac:(lia) ltac:(lia))
      as Halloc.
    change (Z.of_nat 0 * 4096) with 0 in Halloc. rewrite Halloc in Hsizes.
    injection Hsizes as <-. exists q, r. split; [|done].
    rewrite Hpl'. cbn [app]. rewrite fmap_app, fmap_replicate. simpl.
    rewrite length_replicate, Nat2Z.id. done.
Qed.



Lemma records_of_ids mindepth lastID a :
  well_shaped a -> id <$> records_of mindepth lastID a = pid_of lastID a.
Proof.
  intros Hshape.
  destruct (well_shaped_lengths mindepth lastID a Hshape) as (Hlat & Hdepth & Htime & Hpid).
  destruct (records_of_lookup mindepth lastID a Hshape) as [Hlen Hrec].
  apply list_eq. intros i. rewrite list_lookup_fmap.
  destruct (decide (i < length (arg_lon a))%nat) as [Hi|Hi].
  - destruct (Hrec i Hi) as [-> _]. unfold record_of.
    destruct (lookup_lt_is_Some_2 (pid_of lastID a) i) as [k ->]; [lia|].
    destruct (lookup_lt_is_Some_2 (arg_lon a) i) as [x ->]; [lia|].
    destruct (lookup_lt_is_Some_2 (arg_lat a) i) as [y ->]; [lia|].
    destruct (lookup_lt_is_Some_2 (depth_of mindepth a) i) as [z ->]; [lia|].
    destruct (lookup_lt_is_Some_2 (time_of a) i) as [t ->]; [lia|].
    done.
  - rewrite !lookup_ge_None_2 by lia. done.
Qed.

(** X2.  With the default [pid_orig] the identities of a new set are
    consecutive from the class-wide counter, in the order of the
    arguments, and the counter moves on by the number of particles;
    constructing a set of no particles, however, puts the counter at 0
    whatever it was. *)
Theorem constructor_numbers_from_counter mindepth lastID a :
  well_shaped a -> arg_repeatdt a = None -> arg_pid_orig a = None ->
  exists s next_id,
    ParticleSet_init mindepth lastID a = Ok (s, next_id)
    /\ id <$> convert_pset_to_static_list s
       = (fun k => k + lastID) <$> seqZ 0 (Z.of_nat (length (arg_lon a)))
    /\ next_id = if decide (arg_lon a = []) then 0
                 else lastID + Z.of_nat (length (arg_lon a)).
Proof.
  intros Hshape Hrep Hpid.
  destruct (ParticleSet_init_exact mindepth lastID a Hshape Hrep)
    as (sizes & bs & Hinit & Hbs & Hsizes).
  destruct (records_of_lookup mindepth lastID a Hshape) as [Hlen Hrec].
  eexists _, _. split; [exact Hinit|].
  assert (pid_of lastID a
          = (fun k => k + lastID) <$> seqZ 0 (Z.of_nat (length (arg_lon a)))) as Hpids
    by (unfold pid_of; by rewrite Hpid).
  split.
  - unfold convert_pset_to_static_list. simpl. rewrite reshape_concat.
    + by rewrite records_of_ids.
    + rewrite Hlen. destruct Hsizes as [[-> ->]|(q & r & -> & Hr & ->)]; [done|].
      rewrite sum_list_with_app, sum_list_replicate. simpl. lia.
  - rewrite Hpids. destruct (arg_lon a) as [|x l]; [done|]. simpl length.
    rewrite seqZ_cons by lia. rewrite fmap_cons.
    replace (Z.pred (Z.of_nat (S (length l)))) with (Z.of_nat (length l)) by lia.
    rewrite foldl_max_seqZ. destruct (decide (x :: l = [])); [done|].
    destruct (decide (length l = 0%nat)); lia.
Qed.

Lemma constructor_numbers_from_counter_witness :
  exists s next_id,
    ParticleSet_init 0 7 (mkInit [1; 2]%Q [3; 4]%Q None [Some 5%Q] None None)
    = Ok (s, next_id)
    /\ id <$> convert_pset_to_static_list s = [7; 8]
    /\ next_id = 9.
Proof.
  apply (constructor_numbers_from_counter 0 7
           (mkInit [1; 2]%Q [3; 4]%Q None [Some 5%Q] None None)).
  - apply (bool_decide_unpack _). vm_compute. exact I.
  - reflexivity.
  - reflexivity.
Defined.

(** A store whose brackets have lengths [c, ..., c, r] splits at the
    bracket of global index [i]. *)
Lemma equal_sized_split (pl : list (list Particle)) (c q r i : nat) :
  length <$> pl = replicate q c ++ [r] ->
  (0 < c)%nat -> (0 < r <= c)%nat -> (i < q * c + r)%nat ->
  exists arr,
    pl = take (i / c) pl ++ arr :: drop (S (i / c)) pl
    /\ length (take (i / c) pl) = (i / c)%nat
    /\ Forall (fun a => length a = c) (take (i / c) pl)
    /\ (i mod c < length arr <= c)%nat.
Proof.
  intros Hl Hc Hr Hi.
  destruct (sizes_lookup c q r i Hc Hr Hi) as (k & Hpre & Hsz & Hslot & Hfit & Hdm & Hbq).
  assert (length pl = S q) as Hlen.
  { rewrite <- (length_fmap length), Hl, length_app, length_replicate. simpl. lia. }
  destruct (lookup_lt_is_Some_2 pl (i / c)) as [arr Harr]; [lia|].
  exists arr. split; [by rewrite take_drop_middle|].
  split; [rewrite length_take; lia|]. split.
  - apply Forall_forall. intros a Ha. apply list_elem_of_lookup in Ha as [j Hj].
    pose proof (lookup_lt_Some _ _ _ Hj) as Hjlt. rewrite length_take in Hjlt.
    rewrite lookup_take_lt in Hj by lia.
    assert ((length <$> pl) !! j = Some (length a)) as Hla
      by (by rewrite list_lookup_fmap, Hj).
    rewrite Hl, Hpre in Hla by lia. by injection Hla.
  - assert ((length <$> pl) !! (i / c)%nat = Some (length arr)) as Hla
      by (by rewrite list_lookup_fmap, Harr).
    rewrite Hl, Hsz in Hla. injection Hla as <-. split; [done|].
    destruct (decide (i / c < q)%nat) as [Hlt|Hge].
    + rewrite lookup_app_l in Hsz by (rewrite length_replicate; lia).
      apply lookup_replicate in Hsz as [-> _]. done.
    + rewrite lookup_app_r in Hsz by (rewrite length_replicate; lia).
      rewrite length_replicate in Hsz.
      destruct (i / c - q)%nat; [|by destruct n]. injection Hsz as <-. lia.
Qed.

(** X3.  On a set as the constructor returns it, [pset[i]] is the
    [i]-th record in global-index order, for every [i] below the number
    of records, and [get_list_array_index] places it in bracket
    [i / 4096] at slot [i mod 4096]. *)
Theorem getitem_after_construction mindepth lastID a s next_id (i : nat) p :
  ParticleSet_init mindepth lastID a = Ok (s, next_id) ->
  convert_pset_to_static_list s !! i = Some p ->
  __getitem__ s (Z.of_nat i) = Ok p
  /\ get_list_array_index s (PInt (Z.of_nat i))
     = Ok (Location (Z.of_nat (i / 4096)) (Z.of_nat (i mod 4096))).
Proof.
  intros Hinit Hp.
  pose proof (ParticleSet_init_invariant _ _ _ _ _ Hinit) as Hinv.
  pose proof (lookup_lt_Some _ _ _ Hp) as Hi.
  destruct (ParticleSet_init_shape _ _ _ _ _ Hinit) as [[Hnil _]|(q & r & Hl & Hr & _)].
  { unfold convert_pset_to_static_list in Hp. by rewrite Hnil in Hp. }
  assert (length (convert_pset_to_static_list s) = (q * 4096 + r)%nat) as Hn.
  { unfold convert_pset_to_static_list.
    assert (length (concat (_plist s)) = sum_list (length <$> _plist s)) as ->.
    { generalize (_plist s). intros pl.
      induction pl as [|x pl IH]; simpl; [done|]. rewrite length_app, IH. done. }
    rewrite Hl, sum_list_with_app, sum_list_replicate. simpl. lia. }
  destruct (equal_sized_split (_plist s) 4096 q r i Hl ltac:(lia) Hr ltac:(lia))
    as (arr & Hsplit & Hlen & Hpre & Hslot).
  pose proof (Nat.div_mod_eq i 4096) as Hdm.
  destruct (lookup_lt_is_Some_2 arr (i mod 4096)) as [p' Hp']; [lia|].
  destruct (getitem_equal_sized_brackets s 4096 _ arr _ (i mod 4096) p'
              Hinv Hsplit Hpre ltac:(right; lia) Hp') as (Hst & Hgla & Hget).
  rewrite Hlen in Hst, Hgla, Hget.
  replace (i / 4096 * 4096 + i mod 4096)%nat with i in Hst, Hgla, Hget by lia.
  rewrite Hp in Hst. injection Hst as ->. done.
Qed.

Lemma getitem_after_construction_witness :
  let a := mkInit [1; 2]%Q [3; 4]%Q None [Some 5%Q] None None in
  let s := mkParticleSet [[mkParticle 7 1 3 (1 * 0) (Some 5%Q) 0;
                           mkParticle 8 2 4 (1 * 0) (Some 5%Q) 0]]
             [(7, 8, 2)] 4096 None None None in
  ParticleSet_init 0 7 a = Ok (s, 9)
  /\ __getitem__ s 1 = Ok (mkParticle 8 2 4 (1 * 0) (Some 5%Q) 0)
  /\ get_list_array_index s (PInt 1) = Ok (Location 0 1).
Proof.
  intros a s.
  assert (ParticleSet_init 0 7 a = Ok (s, 9)) as H by (vm_compute; reflexivity).
  split; [exact H|].
  apply (getitem_after_construction 0 7 a s 9 1
           (mkParticle 8 2 4 (1 * 0) (Some 5%Q) 0) H).
  reflexivity.
Defined.

(** The walk over [n] brackets of size [c] that all lie before
    [pdata]. *)
Lemma index_walk_run bounds c pdata (n b : nat) fuel :
  (forall j, (b <= j < b + n)%nat ->
     exists info, bounds !! j = Some info /\ info_size info = c) ->
  Z.of_nat (b + n) * c <= pdata -> 0 <= c ->
  index_walk (n + fuel) bounds pdata (Z.of_nat b) (Z.of_nat b * c) (Z.of_nat (b + 1) * c)
  = index_walk fuel bounds pdata (Z.of_nat (b + n)) (Z.of_nat (b + n) * c)
      (Z.of_nat (b + n + 1) * c).
Proof.
  revert b. induction n as [|n IH]; intros b Hsizes Hpdata Hc.
  - by rewrite Nat.add_0_r.
  - assert (Z.of_nat (b + 1) * c <= Z.of_nat (b + S n) * c) as Hmono
      by (apply Z.mul_le_mono_nonneg_r; lia).
    assert ((pdata >=? Z.of_nat (b + 1) * c) = true) as E.
    { set (x := Z.of_nat (b + 1) * c) in *. set (y := Z.of_nat (b + S n) * c) in *.
      lia. }
    change (S n + fuel)%nat with (S (n + fuel)). cbn [index_walk]. rewrite E.
    destruct (Hsizes b) as (info & Hinfo & Hsize); [lia|].
    rewrite (py_getitem_nat _ _ _ Hinfo), bind_ret, Hsize.
    replace (Z.of_nat b + 1) with (Z.of_nat (S b)) by lia.
    replace (Z.of_nat (b + 1) * c) with (Z.of_nat (S b) * c) by (f_equal; lia).
    replace (Z.of_nat (S b) * c + c) with (Z.of_nat (S b + 1) * c) by lia.
    replace (b + S n)%nat with (S b + n)%nat by lia.
    apply IH; [|by replace (S b + n)%nat with (b + S n)%nat by lia|done].
    intros j Hj. apply Hsizes. lia.
Qed.

(** X4.  On a set as the constructor returns it, a key at or past the
    number of particles makes [__getitem__] raise [IndexError]; on a
    set of no particles every key does. *)
Theorem getitem_past_the_end_after_construction mindepth lastID a s next_id key :
  ParticleSet_init mindepth lastID a = Ok (s, next_id) ->
  size s <= key ->
  __getitem__ s key = Raise IndexError.
Proof.
  intros Hinit Hkey.
  pose proof (ParticleSet_init_invariant _ _ _ _ _ Hinit) as Hinv.
  pose proof (store_invariant_length s Hinv) as Hblen.
  pose proof (size_is_length s Hinv) as Hsize.
  destruct (ParticleSet_init_shape _ _ _ _ _ Hinit) as [[Hnil _]|(q & r & Hl & Hr & _)].
  { unfold __getitem__. rewrite Hnil in Hblen.
    destruct (_pid_mapping_bounds s); [done|done]. }
  assert (length (_plist s) = S q) as Hlen.
  { rewrite <- (length_fmap length), Hl, length_app, length_replicate. simpl. lia. }
  assert (length (concat (_plist s)) = (q * 4096 + r)%nat) as Hn.
  { assert (length (concat (_plist s)) = sum_list (length <$> _plist s)) as ->.
    { generalize (_plist s). intros pl.
      induction pl as [|x pl IH]; simpl; [done|]. rewrite length_app, IH. done. }
    rewrite Hl, sum_list_with_app, sum_list_replicate. simpl. lia. }
  assert (forall j k, (replicate q 4096%nat ++ [r]) !! j = Some k ->
            exists info arr, _pid_mapping_bounds s !! j = Some info
                             /\ _plist s !! j = Some arr
                             /\ info_size info = Z.of_nat k /\ length arr = k) as Hinfo.
  { intros j k Hj. rewrite <- Hl, list_lookup_fmap in Hj.
    destruct (_plist s !! j) as [arr|] eqn:Harr; [|done]. injection Hj as <-.
    destruct (Forall2_lookup_l _ _ _ _ _ Hinv Harr) as (info & Hi & [Hsz _]).
    by exists info, arr. }
  destruct (Hinfo q r) as (infoq & arrq & Hbq & Hpq & Hsq & Hlq).
  { rewrite lookup_app_r by (rewrite length_replicate; lia).
    by rewrite length_replicate, Nat.sub_diag. }
  assert (forall j, (0 <= j < 0 + q)%nat ->
            exists info, _pid_mapping_bounds s !! j = Some info
                         /\ info_size info = 4096) as Hfull.
  { intros j Hj. destruct (Hinfo j 4096%nat) as (info & arr & Hb & _ & Hs & _).
    - rewrite lookup_app_l by (rewrite length_replicate; lia).
      apply lookup_replicate_2. lia.
    - exists info. split; [done|]. rewrite Hs. done. }
  assert (exists info0, _pid_mapping_bounds s !! 0%nat = Some info0
                        /\ info_size info0 = (if decide (q = 0%nat) then Z.of_nat r else 4096))
    as (info0 & Hb0 & Hs0).
  { destruct (decide (q = 0%nat)) as [->|Hq].
    - exists infoq. done.
    - apply Hfull. lia. }
  pose proof (py_getitem_nat _ 0 _ Hb0) as Hg0. change (Z.of_nat 0) with 0 in Hg0.
  unfold __getitem__. rewrite Hg0, bind_ret. rewrite Hblen, Hlen.
  destruct (decide (q = 0%nat)) as [->|Hq].
  - rewrite Hb0 in Hbq. injection Hbq as ->. rewrite Hs0.
    simpl in Hn. cbn [index_walk].
    destruct (key >=? Z.of_nat r) eqn:E; [|lia].
    rewrite Hg0, bind_ret, Hsq.
    destruct (key >=? Z.of_nat r + Z.of_nat r) eqn:E'.
    + change (0 + 1) with (Z.of_nat 1). rewrite py_getitem_nat_ge by lia. done.
    + rewrite bind_ret. change (0 + 1) with (Z.of_nat 1).
      rewrite py_getitem_nat_ge by lia. done.
  - rewrite Hs0.
    pose proof (index_walk_run (_pid_mapping_bounds s) 4096 key q 0 2 Hfull) as Hrun.
    change (Z.of_nat 0) with 0 in Hrun. change (Z.of_nat (0 + 1) * 4096) with 4096 in Hrun.
    change (0 * 4096) with 0 in Hrun. cbn [Nat.add] in Hrun.
    replace (S (S q)) with (q + 2)%nat by lia. rewrite Hrun by lia. clear Hrun.
    cbn [index_walk].
    destruct (key >=? Z.of_nat (q + 1) * 4096) eqn:E.
    + rewrite (py_getitem_nat _ _ _ Hbq), bind_ret, Hsq.
      destruct (key >=? Z.of_nat (q + 1) * 4096 + Z.of_nat r) eqn:E'.
      * replace (Z.of_nat q + 1) with (Z.of_nat (S q)) by lia.
        rewrite py_getitem_nat_ge by lia. done.
      * rewrite bind_ret. replace (Z.of_nat q + 1) with (Z.of_nat (S q)) by lia.
        rewrite py_getitem_nat_ge by lia. done.
    + rewrite bind_ret, (py_getitem_nat _ _ _ Hpq), bind_ret.
      replace (key - Z.of_nat q * 4096) with (Z.of_nat (Z.to_nat (key - Z.of_nat q * 4096)))
        by lia.
      apply py_getitem_nat_ge. lia.
Qed.

Lemma getitem_past_the_end_after_construction_witness :
  let a := mkInit [1; 2]%Q [3; 4]%Q None [Some 5%Q] None None in
  let s := mkParticleSet [[mkParticle 7 1 3 (1 * 0) (Some 5%Q) 0;
                           mkParticle 8 2 4 (1 * 0) (Some 5%Q) 0]]
             [(7, 8, 2)] 4096 None None None in
  ParticleSet_init 0 7 a = Ok (s, 9) /\ __getitem__ s 2 = Raise IndexError.
Proof.
  intros a s.
  assert (ParticleSet_init 0 7 a = Ok (s, 9)) as H by (vm_compute; reflexivity).
  split; [exact H|].
  apply (getitem_past_the_end_after_construction 0 7 a s 9 2 H).
  vm_compute. discriminate.
Defined.

(** ** [add], [__setitem__] and the lookups *)

Lemma py_getitem_app_l {A} (l l' : list A) i x :
  0 <= i -> py_getitem l i = Ok x -> py_getitem (l ++ l') i = Ok x.
Proof.
  intros Hi (k & Hk & Hx)%py_getitem_Ok.
  pose proof (py_index_nonneg _ _ _ Hi Hk) as ->.
  rewrite <- (Z2Nat.id i) by done. apply py_getitem_nat. by apply lookup_app_l_Some.
Qed.

Lemma index_walk_app fuel fuel' bounds bounds' pdata b st en r :
  0 <= b -> (fuel <= fuel')%nat ->
  index_walk fuel bounds pdata b st en = Ok r ->
  index_walk fuel' (bounds ++ bounds') pdata b st en = Ok r.
Proof.
  revert fuel' b st en. induction fuel as [|fuel IH]; intros fuel' b st en Hb Hfuel; simpl.
  - destruct (pdata >=? en) eqn:E; [done|]. intros [= <-].
    destruct fuel'; simpl; by rewrite E.
  - destruct (pdata >=? en) eqn:E.
    + intros (info & Hinfo & H)%bind_Ok.
      destruct fuel' as [|fuel']; [lia|]. simpl. rewrite E.
      rewrite (py_getitem_app_l _ _ _ _ Hb Hinfo), bind_ret.
      apply IH; [lia|lia|done].
    + intros [= <-]. destruct fuel'; simpl; by rewrite E.
Qed.

(** X5.  [add] (and [__iadd__]) appends: the brackets of the added set
    follow those of the set, none is merged, so the records of the added
    set follow the records of the set, [size] is the sum of the two
    sizes, and the invariant of the two sets carries over. *)
Theorem add_appends_the_records s particles :
  _plist (add s particles) = _plist s ++ _plist particles
  /\ _plist (__iadd__ s particles) = _plist (add s particles)
  /\ convert_pset_to_static_list (add s particles)
     = convert_pset_to_static_list s ++ convert_pset_to_static_list particles
  /\ size (add s particles) = size s + size particles
  /\ __len__ (add s particles) = __len__ s + __len__ particles
  /\ (store_invariant s -> store_invariant particles ->
      store_invariant (add s particles)).
Proof.
  split; [done|]. split; [done|]. split.
  { unfold convert_pset_to_static_list. simpl. apply concat_app. }
  assert (size (add s particles) = size s + size particles) as Hsize.
  { unfold size. simpl. rewrite foldl_app, !size_foldl. lia. }
  split; [done|]. split; [done|]. apply add_invariant.
Qed.

(** X6.  [add] does not disturb what is in the set: a key that
    [__getitem__] resolved to a record before the call resolves to the
    same record after it, and [get_list_array_index] gives the same
    place. *)
Theorem add_keeps_resolved_keys s particles key :
  (forall p, __getitem__ s key = Ok p -> __getitem__ (add s particles) key = Ok p)
  /\ (forall loc, get_list_array_index s (PInt key) = Ok loc ->
        get_list_array_index (add s particles) (PInt key) = Ok loc).
Proof.
  split.
  - intros p. unfold __getitem__.
    intros (info & Hinfo & H)%bind_Ok.
    apply bind_Ok in H as ([[b st] en] & Hw & H).
    apply bind_Ok in H as (arr & Harr & H).
    assert (0 <= b) as Hb by (eapply index_walk_bracket; [|exact Hw]; lia).
    unfold add, set_bounds, set_plist. cbn [_plist _pid_mapping_bounds].
    rewrite (py_getitem_app_l _ _ 0 _ ltac:(lia) Hinfo), bind_ret.
    rewrite (index_walk_app (S (length (_pid_mapping_bounds s)))
               (S (length (_pid_mapping_bounds s ++ _pid_mapping_bounds particles)))
               _ (_pid_mapping_bounds particles) _ 0 _ _ _
               ltac:(lia) ltac:(rewrite length_app; lia) Hw), bind_ret.
    rewrite (py_getitem_app_l _ _ _ _ Hb Harr), bind_ret. done.
  - intros loc. unfold get_list_array_index.
    intros (info & Hinfo & H)%bind_Ok.
    apply bind_Ok in H as ([[b st] en] & Hw & H).
    unfold add, set_bounds, set_plist. cbn [_plist _pid_mapping_bounds].
    rewrite (py_getitem_app_l _ _ 0 _ ltac:(lia) Hinfo), bind_ret.
    rewrite (index_walk_app (S (length (_pid_mapping_bounds s)))
               (S (length (_pid_mapping_bounds s ++ _pid_mapping_bounds particles)))
               _ (_pid_mapping_bounds particles) _ 0 _ _ _
               ltac:(lia) ltac:(rewrite length_app; lia) Hw), bind_ret.
    done.
Qed.

Lemma py_getitem_insert {A} (l : list A) i (k : nat) x :
  norm_index (length l) i = Some k -> py_getitem (<[k := x]> l) i = Ok x.
Proof.
  intros Hk. unfold py_getitem. rewrite length_insert, Hk.
  rewrite list_lookup_insert_eq; [done|]. by eapply norm_index_lt.
Qed.

(** X7.  Writing a record through the place [get_list_array_index]
    gives for a key, and then reading the key with [__getitem__], gives
    the record written.  [__setitem__] changes neither the summaries nor
    the length of any bracket, so [size] is unchanged. *)
Theorem setitem_then_getitem s key b k value s' :
  get_list_array_index s (PInt key) = Ok (Location b k) ->
  __setitem__ s (KeyTuple [b; k]) value = Ok s' ->
  __getitem__ s' key = Ok value
  /\ _pid_mapping_bounds s' = _pid_mapping_bounds s
  /\ size s' = size s
  /\ length <$> _plist s' = length <$> _plist s.
Proof.
  unfold get_list_array_index, __setitem__, __getitem__.
  intros (info & Hinfo & H)%bind_Ok.
  apply bind_Ok in H as ([[b' st] en] & Hw & [= <- <-]).
  intros (arr & Harr & H)%bind_Ok.
  apply bind_Ok in H as (arr' & Harr' & H).
  apply bind_Ok in H as (pl & Hpl & [= <-]).
  unfold set_plist. cbn [_plist _pid_mapping_bounds].
  apply py_getitem_Ok in Harr as (nb & Hnb & Hlook).
  unfold py_setitem in Harr', Hpl. rewrite Hnb in Hpl. injection Hpl as <-.
  destruct (norm_index (length arr) (key - st)) as [nk|] eqn:Hnk; [|done].
  injection Harr' as <-.
  pose proof (norm_index_lt _ _ _ Hnb) as Hnblt.
  pose proof (norm_index_lt _ _ _ Hnk) as Hnklt.
  split; [|split; [done|split; [done|]]].
  - rewrite Hinfo, bind_ret, Hw, bind_ret.
    rewrite (py_getitem_insert _ _ _ _ Hnb), bind_ret.
    by apply py_getitem_insert.
  - rewrite list_fmap_insert, length_insert.
    apply list_insert_id. by rewrite list_lookup_fmap, Hlook.
Qed.

Lemma setitem_then_getitem_witness :
  let p := fun k => mkParticle k 0 0 0 (Some 0%Q) 0 in
  let s := mkParticleSet [[p 0; p 1]; [p 2; p 3]] [(0, 1, 2); (2, 3, 2)]
             4096 None None None in
  let s' := mkParticleSet [[p 0; p 1]; [p 2; p 9]] [(0, 1, 2); (2, 3, 2)]
             4096 None None None in
  __getitem__ s' 3 = Ok (p 9)
  /\ _pid_mapping_bounds s' = _pid_mapping_bounds s
  /\ size s' = size s
  /\ length <$> _plist s' = length <$> _plist s.
Proof.
  intros p s s'.
  apply (setitem_then_getitem s 3 1 1 (p 9) s'); reflexivity.
Defined.

Lemma located_complete_from (n : nat) pl pid (b k : nat) arr p :
  pl !! b = Some arr -> arr !! k = Some p -> id p = pid ->
  (p, Z.of_nat (n + b), Z.of_nat k)
  ∈ concat (imap (fun b sublist =>
              filter (fun t : Particle * Z * Z => id t.1.1 = pid)
                (imap (fun k p => (p, Z.of_nat (n + b), Z.of_nat k)) sublist)) pl).
Proof.
  revert n b. induction pl as [|arr0 pl IH]; intros n b Hb Hk Hid; [done|].
  simpl. rewrite elem_of_app. destruct b as [|b].
  - left. injection Hb as ->. apply list_elem_of_filter. split; [done|].
    apply elem_of_lookup_imap. exists k, p. done.
  - right. simpl in Hb.
    assert (imap ((fun b sublist =>
              filter (fun t : Particle * Z * Z => id t.1.1 = pid)
                (imap (fun k p => (p, Z.of_nat (n + b), Z.of_nat k)) sublist)) ∘ S) pl
            = imap (fun b sublist =>
              filter (fun t : Particle * Z * Z => id t.1.1 = pid)
                (imap (fun k p => (p, Z.of_nat (S n + b), Z.of_nat k)) sublist)) pl)
      as ->.
    { apply imap_ext. intros b' sub _. simpl. by rewrite Nat.add_succ_r. }
    replace (n + S b)%nat with (S n + b)%nat by lia. by apply IH.
Qed.

Lemma particle_lookup_location s q b k :
  get_list_array_index s (PParticle q) = Ok (Location b k) ->
  exists (nb nk : nat) arr p,
    b = Z.of_nat nb /\ k = Z.of_nat nk
    /\ _plist s !! nb = Some arr /\ arr !! nk = Some p /\ id p = id q.
Proof.
  unfold get_list_array_index.
  intros (info & _ & H)%bind_Ok. apply bind_Ok in H as ([b' info'] & Hw & H).
  apply bracket_walk_range in Hw; [|lia].
  destruct (b' >=? Z.of_nat (length (_plist s))); [done|].
  apply bind_Ok in H as (arr & Harr & H).
  pose proof (slot_walk_spec arr (id q) 0) as [Hr Hfound]. simpl in Hr, Hfound.
  destruct (slot_walk arr (id q) 0 >=? Z.of_nat (length arr)) eqn:E; [done|].
  injection H as <- <-.
  destruct Hfound as (p & Hp & Hid); [lia|].
  apply py_getitem_Ok in Harr as (nb & Hnb & Hlook).
  pose proof (py_index_nonneg _ _ _ Hw Hnb) as ->.
  exists (Z.to_nat b'), (Z.to_nat (slot_walk arr (id q) 0)), arr, p.
  rewrite Z.sub_0_r in Hp. rewrite !Z2Nat.id by lia. done.
Qed.

(** X8.  The two identity lookups agree: when exactly one record
    carries the identity of a particle, a place that
    [get_list_array_index] returns for the particle is the place
    [get_list_array_index_by_PID] returns for its identity, and it is
    the place of that record. *)
Theorem identity_lookups_agree s q p b k :
  carriers s (id q) = [p] ->
  get_list_array_index s (PParticle q) = Ok (Location b k) ->
  get_list_array_index_by_PID s (id q) = Ok (Location b k)
  /\ exists arr, _plist s !! Z.to_nat b = Some arr /\ arr !! Z.to_nat k = Some p.
Proof.
  intros Hc (nb & nk & arr & p' & -> & -> & Hb & Hk & Hid)%particle_lookup_location.
  pose proof (located_records s (id q)) as Hrec. rewrite Hc in Hrec.
  assert ((p', Z.of_nat nb, Z.of_nat nk) ∈ located s (id q)) as Hin
    by exact (located_complete_from 0 (_plist s) (id q) nb nk arr p' Hb Hk Hid).
  destruct (located s (id q)) as [|t [|t' l]] eqn:Hl; try done.
  apply list_elem_of_singleton in Hin. injection Hrec as Hp. subst t. simpl in Hp. subst p'.
  split.
  - unfold get_list_array_index_by_PID. rewrite Hl. done.
  - exists arr. by rewrite !Nat2Z.id.
Qed.

Lemma identity_lookups_agree_witness :
  let p := fun k => mkParticle k 0 0 0 (Some 0%Q) 0 in
  let s := mkParticleSet [[p 0; p 1]; [p 2; p 3]] [(0, 1, 2); (2, 3, 2)]
             4096 None None None in
  get_list_array_index_by_PID s 3 = Ok (Location 1 1)
  /\ exists arr, _plist s !! 1%nat = Some arr /\ arr !! 1%nat = Some (p 3).
Proof.
  intros p s.
  apply (identity_lookups_agree s (mkParticle 3 5 5 5 None 0) (p 3) 1 1); reflexivity.
Defined.

(** ** [pop] and [remove] on a set of one bracket *)

Lemma drop_positions_passed {A} (j i : nat) (l : list A) :
  (j < i)%nat -> drop_positions [j] i l = l.
Proof.
  revert i. induction l as [|x l IH]; intros i Hi; simpl; [done|].
  rewrite bool_decide_eq_false_2 by (rewrite list_elem_of_singleton; lia).
  by rewrite IH by lia.
Qed.

Lemma drop_positions_single {A} (j i : nat) (l : list A) :
  (i <= j)%nat -> drop_positions [j] i l = delete (j - i)%nat l.
Proof.
  revert i. induction l as [|x l IH]; intros i Hi; simpl; [done|].
  destruct (decide (i = j)) as [->|Hne].
  - rewrite bool_decide_eq_true_2 by (by apply list_elem_of_singleton).
    rewrite Nat.sub_diag. simpl. apply drop_positions_passed. lia.
  - rewrite bool_decide_eq_false_2 by (rewrite list_elem_of_singleton; lia).
    rewrite IH by lia. replace (j - i)%nat with (S (j - S i)) by lia. done.
Qed.

(** Compaction has nothing to merge in a set of one bracket. *)
Lemma merge_brackets_one_bracket s arr info :
  _plist s = [arr] -> _pid_mapping_bounds s = [info] -> _merge_brackets_ s = Ok s.
Proof.
  intros Hpl Hbs. unfold _merge_brackets_. rewrite Hpl. cbn [length merge_loop].
  rewrite Hpl. change (seqZ 0 (Z.of_nat (length [arr]))) with [0].
  cbn [scan_brackets]. rewrite Hbs, Hpl.
  change (py_getitem [info] 0) with (Ok info). rewrite bind_ret.
  destruct (info_size info <? _); reflexivity.
Qed.

Lemma one_bracket_summary s arr :
  store_invariant s -> _plist s = [arr] ->
  exists info, _pid_mapping_bounds s = [info] /\ info_size info = Z.of_nat (length arr)
               /\ size s = Z.of_nat (length arr).
Proof.
  intros Hinv Hpl. pose proof (size_is_length s Hinv) as Hsize.
  unfold store_invariant in Hinv. rewrite Hpl in Hinv, Hsize.
  destruct (_pid_mapping_bounds s) as [|info bs] eqn:Hbs;
    [by apply Forall2_cons_nil_inv in Hinv|].
  apply Forall2_cons_1 in Hinv as [[Hsz _] Hrest].
  apply Forall2_nil_inv_l in Hrest as ->.
  exists info. simpl in Hsize. rewrite app_nil_r in Hsize. done.
Qed.

Lemma to_lindices_one_bracket s arr (k : nat) :
  store_invariant s -> _plist s = [arr] -> (k < length arr)%nat ->
  to_lindices s (IdxInt (Z.of_nat k)) = Ok [Some [Z.of_nat k]].
Proof.
  intros Hinv Hpl Hk.
  destruct (one_bracket_summary s arr Hinv Hpl) as (info & Hbs & Hsz & Hsize).
  unfold to_lindices, fill_lindices. rewrite wrap_gindex_nonnegative by lia.
  rewrite bind_ret. unfold get_list_array_index. rewrite Hbs, Hpl.
  change (py_getitem [info] 0) with (Ok info). rewrite bind_ret.
  cbn [length index_walk].
  destruct (Z.of_nat k >=? info_size info) eqn:E; [lia|].
  rewrite bind_ret. simpl. by rewrite Z.sub_0_r.
Qed.

(** X9.  On a set of one bracket holding more than one record, as the
    constructor builds it for up to 4096 particles, [pop(k)] for a [k]
    below the number of records returns the record at [k], and so does
    [pop(k - n)] with the negative index counted from the end;
    [remove(k)] leaves the same set.  The set keeps the other records
    in their order, its summary fits them, and [size] is one less. *)
Theorem pop_from_one_bracket s arr (k : nat) p :
  store_invariant s -> _plist s = [arr] -> arr !! k = Some p ->
  (1 < length arr)%nat ->
  exists s',
    pop s (IdxInt (Z.of_nat k)) = Ok (s', PopParticle p)
    /\ pop s (IdxInt (Z.of_nat k - Z.of_nat (length arr))) = Ok (s', PopParticle p)
    /\ remove s (IdxInt (Z.of_nat k)) = Ok s'
    /\ _plist s' = [delete k arr]
    /\ store_invariant s'
    /\ size s' = size s - 1.
Proof.
  intros Hinv Hpl Hk Hlen. pose proof (lookup_lt_Some _ _ _ Hk) as Hklt.
  destruct (one_bracket_summary s arr Hinv Hpl) as (info & Hbs & Hsz & Hsize).
  pose proof (to_lindices_one_bracket s arr k Hinv Hpl Hklt) as Hlind.
  assert (kept arr (Some [Z.of_nat k]) = delete k arr) as Hkept.
  { unfold kept. simpl. rewrite norm_index_nat by done. simpl.
    rewrite drop_positions_single by lia. by rewrite Nat.sub_0_r. }
  assert (picked arr (Some [Z.of_nat k]) = [p]) as Hpicked.
  { unfold picked, at_slot. simpl. rewrite norm_index_nat by done. simpl.
    by rewrite Hk. }
  destruct (remove_keeps_bracket s 0 arr [Z.of_nat k]) as (info' & Hinfo' & Hrem).
  { by rewrite Hpl. }
  { rewrite Hbs. simpl. lia. }
  { split; [done|]. split.
    - constructor; [unfold in_range; lia|constructor].
    - rewrite Hkept. intros Hnil. apply (f_equal length) in Hnil.
      rewrite length_delete in Hnil by eauto. simpl in Hnil. lia. }
  rewrite Hkept, Hpicked in Hrem. rewrite Hkept in Hinfo'.
  change (Z.of_nat 0) with 0 in Hrem. rewrite Hpl, Hbs in Hrem. simpl in Hrem.
  set (s' := set_bounds (set_plist s [delete k arr]) [info']) in *.
  assert (_merge_brackets_ s' = Ok s') as Hmerge
    by (by apply (merge_brackets_one_bracket s' (delete k arr) info')).
  assert (store_invariant s') as Hinv'.
  { unfold store_invariant. simpl. constructor; [|constructor]. by apply summary_fits. }
  assert (pop s (IdxInt (Z.of_nat k)) = Ok (s', PopParticle p)) as Hpop.
  { unfold pop. rewrite Hlind, bind_ret, Hpl. simpl py_assert. rewrite bind_ret.
    cbn [pop_loop]. rewrite Hrem, bind_ret. cbn [pop_loop]. rewrite bind_ret.
    rewrite Hmerge. done. }
  exists s'. split; [done|]. split.
  { destruct (negative_index_wraps s (Z.of_nat k - Z.of_nat (length arr))) as [_ ->];
      [lia|].
    rewrite Hsize. replace (Z.of_nat (length arr) + (Z.of_nat k - Z.of_nat (length arr)))
      with (Z.of_nat k) by lia. done. }
  split.
  { unfold remove. rewrite Hlind, bind_ret, Hpl. simpl py_assert. rewrite bind_ret.
    cbn [pop_loop]. rewrite Hrem, bind_ret. cbn [pop_loop]. rewrite bind_ret.
    done. }
  split; [done|]. split; [done|].
  rewrite (size_is_length s' Hinv'), Hsize. simpl. rewrite app_nil_r.
  rewrite length_delete by eauto. lia.
Qed.

Lemma pop_from_one_bracket_witness :
  let p := fun k => mkParticle k 0 0 0 (Some 0%Q) 0 in
  let s := mkParticleSet [[p 0; p 1; p 2]] [(0, 2, 3)] 4096 None None None in
  exists s',
    pop s (IdxInt 1) = Ok (s', PopParticle (p 1))
    /\ pop s (IdxInt (-2)) = Ok (s', PopParticle (p 1))
    /\ remove s (IdxInt 1) = Ok s'
    /\ _plist s' = [[p 0; p 2]]
    /\ store_invariant s'
    /\ size s' = size s - 1.
Proof.
  intros p s.
  apply (pop_from_one_bracket s [p 0; p 1; p 2] 1 (p 1)).
  - apply (bool_decide_unpack _). vm_compute. exact I.
  - reflexivity.
  - reflexivity.
  - simpl. lia.
Defined.

(** X10.  Removing the only record of a set leaves one empty bracket
    behind, summarised as [(int32 max, int32 min, 0)]: the set has size
    0 and still one bracket, and the [particles] property is the empty
    array, not [None]. *)
Theorem pop_the_only_particle s p :
  store_invariant s -> _plist s = [[p]] ->
  exists s',
    pop s (IdxInt 0) = Ok (s', PopParticle p)
    /\ pop s (IdxInt (-1)) = Ok (s', PopParticle p)
    /\ remove s (IdxInt 0) = Ok s'
    /\ _plist s' = [[]]
    /\ _pid_mapping_bounds s' = [(int32_max, int32_min, 0)]
    /\ size s' = 0
    /\ particles s' = Some []
    /\ store_invariant s'.
Proof.
  intros Hinv Hpl.
  destruct (one_bracket_summary s [p] Hinv Hpl) as (info & Hbs & Hsz & Hsize).
  pose proof (to_lindices_one_bracket s [p] 0 Hinv Hpl ltac:(simpl; lia)) as Hlind.
  change (Z.of_nat 0) with 0 in Hlind.
  set (s' := set_bounds (set_plist s [[]]) [(int32_max, int32_min, 0)]).
  assert (_remove_ s 0 [0] = Ok (s', [p])) as Hrem.
  { unfold _remove_. rewrite Hpl, Hbs. reflexivity. }
  assert (_merge_brackets_ s' = Ok s') as Hmerge
    by (by apply (merge_brackets_one_bracket s' [] (int32_max, int32_min, 0))).
  assert (pop s (IdxInt 0) = Ok (s', PopParticle p)) as Hpop.
  { unfold pop. rewrite Hlind, bind_ret, Hpl. simpl py_assert. rewrite bind_ret.
    cbn [pop_loop]. rewrite Hrem, bind_ret. cbn [pop_loop]. rewrite bind_ret.
    rewrite Hmerge. done. }
  exists s'. split; [done|]. split.
  { destruct (negative_index_wraps s (-1)) as [_ ->]; [simpl in Hsize; lia|].
    rewrite Hsize. done. }
  split.
  { unfold remove. rewrite Hlind, bind_ret, Hpl. simpl py_assert. rewrite bind_ret.
    cbn [pop_loop]. rewrite Hrem, bind_ret. cbn [pop_loop]. rewrite bind_ret.
    done. }
  repeat split; try done.
  unfold store_invariant. simpl. constructor; [|constructor].
  split; [done|]. unfold info_size. simpl. lia.
Qed.

Lemma pop_the_only_particle_witness :
  let p := mkParticle 4 0 0 0 (Some 0%Q) 0 in
  let s := mkParticleSet [[p]] [(4, 4, 1)] 4096 None None None in
  exists s',
    pop s (IdxInt 0) = Ok (s', PopParticle p)
    /\ pop s (IdxInt (-1)) = Ok (s', PopParticle p)
    /\ remove s (IdxInt 0) = Ok s'
    /\ _plist s' = [[]]
    /\ _pid_mapping_bounds s' = [(int32_max, int32_min, 0)]
    /\ size s' = 0
    /\ particles s' = Some []
    /\ store_invariant s'.
Proof.
  intros p s. apply (pop_the_only_particle s p).
  - apply (bool_decide_unpack _). vm_compute. exact I.
  - reflexivity.
Defined.

(** X11.  On a set of size 0 the wraparound of a negative index in
    [pop] and [remove] adds 0 for ever: [pop()] with its default index
    [-1], and [remove(-1)], never return, however many passes the loop
    is given. *)
Theorem negative_index_on_empty_set_never_returns s gindex :
  size s = 0 -> gindex < 0 ->
  (forall fuel, wrap_loop fuel (size s) gindex = Loops)
  /\ pop s (IdxInt gindex) = Loops
  /\ remove s (IdxInt gindex) = Loops.
Proof.
  intros Hsize Hg. rewrite Hsize.
  split; [intros fuel; by apply wrap_loop_empty_set|].
  assert (to_lindices s (IdxInt gindex) = Loops) as Hl.
  { unfold to_lindices, fill_lindices, wrap_gindex.
    rewrite Hsize, wrap_loop_empty_set by done. done. }
  unfold pop, remove. by rewrite Hl.
Qed.

Lemma negative_index_on_empty_set_never_returns_witness :
  let s := mkParticleSet [[]] [(int32_max, int32_min, 0)] 4096 None None None in
  (forall fuel, wrap_loop fuel (size s) (-1) = Loops)
  /\ pop s (IdxInt (-1)) = Loops
  /\ remove s (IdxInt (-1)) = Loops.
Proof.
  intros s. apply (negative_index_on_empty_set_never_returns s (-1)).
  - reflexivity.
  - lia.
Defined.

(** X12.  On a set of one bracket an index at or past the number of
    records makes [pop], [remove] and [__getitem__] raise
    [IndexError]. *)
Theorem index_past_the_end_of_one_bracket s arr gindex :
  store_invariant s -> _plist s = [arr] -> Z.of_nat (length arr) <= gindex ->
  pop s (IdxInt gindex) = Raise IndexError
  /\ remove s (IdxInt gindex) = Raise IndexError
  /\ __getitem__ s gindex = Raise IndexError.
Proof.
  intros Hinv Hpl Hg.
  destruct (one_bracket_summary s arr Hinv Hpl) as (info & Hbs & Hsz & Hsize).
  assert (to_lindices s (IdxInt gindex) = Raise IndexError) as Hl.
  { unfold to_lindices, fill_lindices. rewrite wrap_gindex_nonnegative by lia.
    rewrite bind_ret. unfold get_list_array_index. rewrite Hbs, Hpl.
    change (py_getitem [info] 0) with (Ok info). rewrite bind_ret.
    cbn [length index_walk].
    destruct (gindex >=? info_size info) eqn:E; [|lia].
    change (py_getitem [info] 0) with (Ok info). rewrite bind_ret.
    destruct (gindex >=? info_size info + info_size info) eqn:E'; reflexivity. }
  split; [unfold pop; by rewrite Hl|]. split; [unfold remove; by rewrite Hl|].
  unfold __getitem__. rewrite Hbs, Hpl.
  change (py_getitem [info] 0) with (Ok info). rewrite bind_ret.
  cbn [length index_walk].
  destruct (gindex >=? info_size info) eqn:E; [|lia].
  change (py_getitem [info] 0) with (Ok info). rewrite bind_ret.
  destruct (gindex >=? info_size info + info_size info) eqn:E'; reflexivity.
Qed.

Lemma index_past_the_end_of_one_bracket_witness :
  let p := fun k => mkParticle k 0 0 0 (Some 0%Q) 0 in
  let s := mkParticleSet [[p 0; p 1; p 2]] [(0, 2, 3)] 4096 None None None in
  pop s (IdxInt 3) = Raise IndexError
  /\ remove s (IdxInt 3) = Raise IndexError
  /\ __getitem__ s 3 = Raise IndexError.
Proof.
  intros p s.
  apply (index_past_the_end_of_one_bracket s [p 0; p 1; p 2] 3).
  - apply (bool_decide_unpack _). vm_compute. exact I.
  - reflexivity.
  - simpl. lia.
Defined.

(** ** [covert_static_array_to_list_array] *)

Lemma py_slice_nonneg {A} (l : list A) i j :
  0 <= i <= j -> j <= Z.of_nat (length l) ->
  py_slice l i j = take (Z.to_nat (j - i)) (drop (Z.to_nat i) l).
Proof.
  intros Hi Hj. unfold py_slice.
  destruct (i <? 0) eqn:E1; [lia|]. destruct (j <? 0) eqn:E2; [lia|].
  by rewrite !Z.min_l by lia.
Qed.

Lemma invariant_sizes_nonneg s :
  store_invariant s -> Forall (fun info => 0 <= info_size info) (_pid_mapping_bounds s).
Proof.
  unfold store_invariant. generalize (_plist s) (_pid_mapping_bounds s).
  induction 1 as [|arr info pl bs [Hs _] _ IH]; constructor; [lia|done].
Qed.

Lemma omap_Some {A} (l : list A) : omap (fun x : option A => x) (Some <$> l) = l.
Proof. induction l as [|x l IH]; simpl; [done|by f_equal]. Qed.

Lemma slice_loop_total {A} fuel bounds (property_array : list A) results (b : nat) st en :
  (0 < fuel)%nat -> (length bounds < fuel + b)%nat ->
  slice_loop fuel bounds property_array results (Z.of_nat b) st en <> Loops.
Proof.
  revert results b st en.
  induction fuel as [|fuel IH]; intros results b st en Hpos Hfuel; [lia|]. simpl.
  destruct (st <? _); [|done].
  destruct (decide (b < length bounds)%nat) as [Hb|Hb].
  - destruct (lookup_lt_is_Some_2 bounds b Hb) as [info Hi].
    rewrite (py_getitem_nat _ _ _ Hi), bind_ret.
    replace (Z.of_nat b + 1) with (Z.of_nat (S b)) by lia. apply IH; lia.
  - rewrite py_getitem_nat_ge by lia. done.
Qed.

(** The pieces cut so far are a prefix of the array, and each pass
    appends the next stretch of it. *)
Lemma slice_loop_flattens {A} fuel bounds (property_array : list A) results b st en res :
  Forall (fun info => 0 <= info_size info) bounds ->
  0 <= st <= en ->
  concat results = take (Z.to_nat st) property_array ->
  slice_loop fuel bounds property_array results b st en = Ok res ->
  concat res = property_array.
Proof.
  intros Hpos. revert results b st en.
  induction fuel as [|fuel IH]; intros results b st en Hst Hcat; simpl.
  - destruct (st <? _) eqn:E; [done|]. intros [= <-].
    rewrite Hcat. apply take_ge. lia.
  - destruct (st <? _) eqn:E.
    + intros (info & Hinfo & H)%bind_Ok.
      apply py_getitem_Ok in Hinfo as (k & _ & Hk).
      rewrite Forall_forall in Hpos.
      pose proof (Hpos info (list_elem_of_lookup_2 _ _ _ Hk)) as Hc.
      apply IH in H; [done|lia|].
      rewrite concat_app, Hcat. simpl. rewrite app_nil_r.
      rewrite py_slice_nonneg by lia. rewrite take_take_drop.
      destruct (decide (en <= Z.of_nat (length property_array))).
      * f_equal. lia.
      * rewrite !take_ge by lia. done.
    + intros [= <-]. rewrite Hcat. apply take_ge. lia.
Qed.

(** X13.  Under the invariant, whatever list of arrays
    [covert_static_array_to_list_array] returns flattens back, with
    [convert_list_of_arrays_to_static_list], to the array it was given:
    no value is lost, repeated or reordered.  The call never runs for
    ever. *)
Theorem covert_results_flatten_back {A} s (property_array : list A) results :
  store_invariant s ->
  covert_static_array_to_list_array s property_array = Ok results ->
  convert_list_of_arrays_to_static_list (Some <$> results) = property_array
  /\ forall other : list A, covert_static_array_to_list_array s other <> Loops.
Proof.
  intros Hinv H. split.
  - unfold convert_list_of_arrays_to_static_list. rewrite omap_Some.
    unfold covert_static_array_to_list_array in H.
    apply bind_Ok in H as (_ & _ & H). apply bind_Ok in H as (info & Hinfo & H).
    apply py_getitem_Ok in Hinfo as (k & _ & Hk).
    pose proof (invariant_sizes_nonneg s Hinv) as Hpos.
    eapply slice_loop_flattens; [exact Hpos| | |exact H].
    + rewrite Forall_forall in Hpos.
      pose proof (Hpos info (list_elem_of_lookup_2 _ _ _ Hk)). lia.
    + done.
  - intros other. unfold covert_static_array_to_list_array.
    destruct (_ =? _); simpl py_assert; [|done]. rewrite bind_ret.
    destruct (py_getitem (_pid_mapping_bounds s) 0) as [info| |] eqn:E;
      [|done|by apply py_getitem_not_Loops in E].
    rewrite bind_ret. apply (slice_loop_total _ _ _ _ 0); lia.
Qed.

Lemma covert_results_flatten_back_witness :
  let p := fun k => mkParticle k 0 0 0 (Some 0%Q) 0 in
  let s := mkParticleSet [[p 0; p 1]; [p 2]] [(0, 1, 2); (2, 2, 1)]
             4096 None None None in
  convert_list_of_arrays_to_static_list (Some <$> [[10; 11]; [12]]) = [10; 11; 12]
  /\ forall other : list Z, covert_static_array_to_list_array s other <> Loops.
Proof.
  intros p s.
  apply (covert_results_flatten_back s [10; 11; 12] [[10; 11]; [12]]).
  - apply (bool_decide_unpack _). vm_compute. exact I.
  - reflexivity.
Defined.

Lemma concat_equal_length {A} (vals : list (list A)) (c : nat) :
  Forall (fun v => length v = c) vals -> length (concat vals) = (length vals * c)%nat.
Proof.
  induction 1 as [|v vals Hv _ IH]; [done|]. simpl. rewrite length_app. lia.
Qed.

(** The loop on a set whose brackets have lengths [c, ..., c, r], from
    bracket [j] on. *)
Lemma slice_loop_equal_sizes {A} bounds (c q r : nat) (vpre : list (list A)) vlast :
  (0 < r <= c)%nat ->
  length vpre = q -> Forall (fun v => length v = c) vpre -> length vlast = r ->
  (forall j, (j < q)%nat ->
     exists info, bounds !! j = Some info /\ info_size info = Z.of_nat c) ->
  (exists info, bounds !! q = Some info) ->
  forall (d j : nat) fuel en,
    (j + d = q)%nat -> (d < fuel)%nat ->
    (d = 0%nat -> Z.of_nat (q * c + r) <= en) ->
    ((0 < d)%nat -> en = Z.of_nat (S j * c)) ->
    slice_loop fuel bounds (concat (vpre ++ [vlast])) (take j (vpre ++ [vlast]))
      (Z.of_nat j) (Z.of_nat (j * c)) en
    = Ok (vpre ++ [vlast]).
Proof.
  intros Hr Hq Hpre Hlast Hfull Hq'.
  assert (length (concat (vpre ++ [vlast])) = (q * c + r)%nat) as Hn.
  { rewrite concat_app, length_app, (concat_equal_length vpre c Hpre). simpl. rewrite app_nil_r. lia. }
  assert (forall j, (j <= q)%nat ->
            drop (j * c) (concat (vpre ++ [vlast]))
            = concat (drop j (vpre ++ [vlast]))) as Hdrop.
  { intros j Hj.
    rewrite <- (take_drop j (vpre ++ [vlast])) at 1. rewrite concat_app.
    rewrite drop_app_length'; [done|].
    rewrite (concat_equal_length _ c).
    - rewrite length_take, length_app. simpl. lia.
    - rewrite take_app_le by lia. by apply Forall_take. }
  induction d as [|d IH]; intros j fuel en Hj Hfuel Hen0 Hen.
  - assert (j = q) as -> by lia. destruct fuel as [|fuel]; [lia|]. cbn [slice_loop].
    rewrite Hn. specialize (Hen0 eq_refl).
    pose proof (Hdrop q (le_n q)) as Hdq. clear Hdrop Hen.
    set (m := (q * c)%nat) in *. clearbody m.
    assert ((Z.of_nat m <? Z.of_nat (m + r)) = true) as -> by (apply Z.ltb_lt; lia).
    rewrite Z.min_r by lia. rewrite py_slice_nonneg by lia.
    replace (Z.to_nat (Z.of_nat m)) with m by lia.
    replace (Z.to_nat (Z.of_nat (m + r) - Z.of_nat m)) with r by lia.
    rewrite Hdq. rewrite drop_app_length' by done. simpl concat. rewrite app_nil_r.
    rewrite (take_ge vlast) by lia.
    rewrite take_app_length' by done.
    destruct Hq' as [info Hinfo].
    rewrite (py_getitem_nat _ _ _ Hinfo), bind_ret.
    assert ((en <? Z.of_nat (m + r)) = false) as E by (apply Z.ltb_ge; lia).
    destruct fuel; simpl; rewrite Hn, E; done.
  - destruct fuel as [|fuel]; [lia|]. cbn [slice_loop].
    rewrite Hn. specialize (Hen ltac:(lia)). subst en.
    assert (S j * c <= q * c)%nat as Hle by (apply Nat.mul_le_mono_r; lia).
    pose proof (Hdrop j ltac:(lia)) as Hdj.
    destruct (lookup_lt_is_Some_2 vpre j) as [v Hv]; [lia|].
    assert ((vpre ++ [vlast]) !! j = Some v) as Hv' by (by apply lookup_app_l_Some).
    assert (length v = c) as Hvc.
    { rewrite Forall_forall in Hpre. apply Hpre. by eapply list_elem_of_lookup_2. }
    destruct (Hfull j) as (info & Hinfo & Hsz); [lia|].
    specialize (IH (S j) fuel (Z.of_nat (S j * c) + Z.of_nat c)).
    rewrite Nat.mul_succ_l in *.
    set (m := (j * c)%nat) in *. set (n := (q * c)%nat) in *.
    assert (S j = q -> n = (m + c)%nat) as Hjq
      by (intros <-; unfold n, m; by rewrite Nat.mul_succ_l).
    assert (S (S j) * c = m + c + c)%nat as Hss by (unfold m; lia).
    clearbody m n.
    assert ((Z.of_nat m <? Z.of_nat (n + r)) = true) as -> by (apply Z.ltb_lt; lia).
    rewrite Z.min_l by lia.
    rewrite py_slice_nonneg by lia.
    replace (Z.to_nat (Z.of_nat m)) with m by lia.
    replace (Z.to_nat (Z.of_nat (m + c) - Z.of_nat m)) with c by lia.
    rewrite Hdj, (drop_S _ _ _ Hv'). simpl concat.
    rewrite (take_app_length' v) by (symmetry; exact Hvc).
    rewrite <- (take_S_r _ _ _ Hv').
    rewrite (py_getitem_nat _ _ _ Hinfo), bind_ret, Hsz.
    replace (Z.of_nat j + 1) with (Z.of_nat (S j)) by lia.
    apply IH; [lia|lia| |].
    + intros ->. rewrite Hjq by lia. lia.
    + intros _. lia.
Qed.

(** X14.  On a set whose brackets before the last all have the length
    of the first and whose last bracket is not empty and no longer, as
    the constructor builds it, [covert_static_array_to_list_array]
    undoes the flattening: a list of per-bracket arrays of the shape of
    the set, flattened, is cut back into that very list. *)
Theorem covert_inverts_flattening {A} s (c : nat) pre last (vals : list (list A)) :
  store_invariant s ->
  _plist s = pre ++ [last] ->
  Forall (fun arr => length arr = c) pre ->
  (0 < length last <= c)%nat ->
  Forall2 (fun (v : list A) (arr : list Particle) => length v = length arr)
    vals (_plist s) ->
  covert_static_array_to_list_array s (concat vals) = Ok vals.
Proof.
  intros Hinv Hpl Hpre Hlast Hvals.
  pose proof (size_is_length s Hinv) as Hsize.
  pose proof (store_invariant_length s Hinv) as Hblen.
  rewrite Hpl in Hvals.
  apply Forall2_app_inv_r in Hvals as (vpre & vrest & Hvpre & Hvrest & ->).
  destruct vrest as [|vlast vrest]; [by apply Forall2_nil_cons_inv in Hvrest|].
  apply Forall2_cons_1 in Hvrest as [Hvlast Hnil].
  apply Forall2_nil_inv_r in Hnil as ->.
  assert (length vpre = length pre) as Hq by (by eapply Forall2_length).
  assert (Forall (fun v => length v = c) vpre) as Hvc.
  { apply Forall_forall. intros v Hv. apply list_elem_of_lookup in Hv as [j Hj].
    destruct (Forall2_lookup_l _ _ _ _ _ Hvpre Hj) as (arr & Harr & ->).
    rewrite Forall_forall in Hpre. apply Hpre. by eapply list_elem_of_lookup_2. }
  assert (forall j arr, _plist s !! j = Some arr ->
            exists info, _pid_mapping_bounds s !! j = Some info
                         /\ info_size info = Z.of_nat (length arr)) as Hinfo.
  { intros j arr Harr.
    destruct (Forall2_lookup_l _ _ _ _ _ Hinv Harr) as (info & Hi & [Hsz _]). eauto. }
  assert (forall j, (j < length pre)%nat ->
            exists info, _pid_mapping_bounds s !! j = Some info
                         /\ info_size info = Z.of_nat c) as Hfull.
  { intros j Hj. destruct (lookup_lt_is_Some_2 pre j Hj) as [arr Harr].
    destruct (Hinfo j arr) as (info & Hi & Hsz).
    { rewrite Hpl. by apply lookup_app_l_Some. }
    exists info. split; [done|]. rewrite Hsz. f_equal.
    rewrite Forall_forall in Hpre. apply Hpre. by eapply list_elem_of_lookup_2. }
  destruct (Hinfo (length pre) last) as (infoq & Hiq & Hsq).
  { rewrite Hpl. by apply list_lookup_middle. }
  assert (length (concat (vpre ++ [vlast])) = (length pre * c + length last)%nat) as Hn.
  { rewrite concat_app, length_app, (concat_equal_length vpre c Hvc). simpl. rewrite app_nil_r. lia. }
  assert (length (concat (_plist s)) = (length pre * c + length last)%nat) as Hn'.
  { rewrite Hpl, concat_app, length_app, (concat_equal_length pre c Hpre). simpl. rewrite app_nil_r. lia. }
  unfold covert_static_array_to_list_array. fold (size s).
  rewrite Hsize, Hn, Hn', Z.eqb_refl. simpl py_assert. rewrite bind_ret.
  destruct (_pid_mapping_bounds s !! 0%nat) as [info0|] eqn:Hb0.
  2:{ apply lookup_ge_None_1 in Hb0. rewrite Hblen, Hpl, length_app in Hb0.
      simpl in Hb0. lia. }
  pose proof (py_getitem_nat _ 0 _ Hb0) as Hg0. change (Z.of_nat 0) with 0 in Hg0.
  rewrite Hg0, bind_ret.
  pose proof (slice_loop_equal_sizes (_pid_mapping_bounds s) c (length pre) (length last)
                vpre vlast Hlast Hq Hvc Hvlast Hfull (ex_intro _ infoq Hiq)
                (length pre) 0 (S (length (_pid_mapping_bounds s))) (info_size info0))
    as Hloop.
  change (Z.of_nat 0) with 0 in Hloop. change (Z.of_nat (0 * c)) with 0 in Hloop.
  apply Hloop; [lia|rewrite Hblen, Hpl, length_app; simpl; lia| |].
  - intros Hz. rewrite Hz in Hiq. rewrite Hb0 in Hiq. injection Hiq as ->.
    rewrite Hsq, Hz. lia.
  - intros Hpos. destruct (Hfull 0%nat Hpos) as (info & Hi & Hsz).
    rewrite Hb0 in Hi. injection Hi as ->. rewrite Hsz. lia.
Qed.

Lemma covert_inverts_flattening_witness :
  let p := fun k => mkParticle k 0 0 0 (Some 0%Q) 0 in
  let s := mkParticleSet [[p 0; p 1]; [p 2; p 3]; [p 4]]
             [(0, 1, 2); (2, 3, 2); (4, 4, 1)] 4096 None None None in
  covert_static_array_to_list_array s (concat [[10; 11]; [12; 13]; [14]])
  = Ok [[10; 11]; [12; 13]; [14]].
Proof.
  intros p s.
  apply (covert_inverts_flattening s 2 [[p 0; p 1]; [p 2; p 3]] [p 4]
           [[10; 11]; [12; 13]; [14]]).
  - apply (bool_decide_unpack _). vm_compute. exact I.
  - reflexivity.
  - repeat constructor.
  - simpl. lia.
  - repeat constructor.
Defined.

Lemma slice_loop_runs_off {A} bounds (property_array : list A) :
  Forall (fun info => 0 <= info_size info) bounds ->
  forall rest (b : nat) st en results fuel,
    drop b bounds = rest ->
    0 <= st <= en ->
    match rest with
    | [] => st < Z.of_nat (length property_array)
    | _ => en + foldr (fun b n => info_size b + n) 0 (removelast rest)
           < Z.of_nat (length property_array)
    end ->
    (length rest < fuel)%nat ->
    slice_loop fuel bounds property_array results (Z.of_nat b) st en
    = Raise IndexError.
Proof.
  intros Hpos. induction rest as [|info rest IH];
    intros b st en results fuel Hdrop Hst Hlt Hfuel;
    (destruct fuel as [|fuel]; [simpl in Hfuel; lia|]); cbn [slice_loop].
  - assert ((st <? Z.of_nat (length property_array)) = true) as -> by lia.
    rewrite py_getitem_nat_ge; [done|].
    apply (f_equal length) in Hdrop. rewrite length_drop in Hdrop. simpl in Hdrop. lia.
  - assert (bounds !! b = Some info) as Hb.
    { rewrite <- (Nat.add_0_r b), <- lookup_drop, Hdrop. done. }
    assert (0 <= foldr (fun b n => info_size b + n) 0 (removelast (info :: rest)))
      as Hsum.
    { assert (Forall (fun info => 0 <= info_size info) (removelast (info :: rest)))
        as Hp.
      { rewrite removelast_firstn_len. apply Forall_take.
        rewrite <- Hdrop. by apply Forall_drop. }
      revert Hp. generalize (removelast (info :: rest)). intros l Hp.
      induction Hp as [|x l Hx _ IHl]; simpl; lia. }
    assert ((st <? Z.of_nat (length property_array)) = true) as -> by lia.
    rewrite (py_getitem_nat _ _ _ Hb), bind_ret.
    replace (Z.of_nat b + 1) with (Z.of_nat (S b)) by lia.
    rewrite Forall_forall in Hpos.
    pose proof (Hpos info (list_elem_of_lookup_2 _ _ _ Hb)) as Hc.
    apply IH.
    + rewrite (drop_S _ _ _ Hb) in Hdrop. by injection Hdrop.
    + lia.
    + destruct rest as [|info' rest']; simpl in Hlt |- *; lia.
    + simpl in Hfuel. lia.
Qed.

(** X15.  [covert_static_array_to_list_array] adds, like
    [get_list_array_index], the size of the bracket it leaves.  Under
    the invariant, on a set whose first bracket is smaller than its
    last, it raises [IndexError] on every array of the right length.
    An array whose length is not [size] is refused with
    [AssertionError], and on a set without brackets the empty array
    raises [IndexError]. *)
Theorem covert_fails_when_first_bracket_is_smaller {A} s first mid last
    (property_array : list A) :
  store_invariant s ->
  _pid_mapping_bounds s = first :: mid ++ [last] ->
  info_size first < info_size last ->
  (Z.of_nat (length property_array) = size s ->
   covert_static_array_to_list_array s property_array = Raise IndexError)
  /\ (Z.of_nat (length property_array) <> size s ->
      covert_static_array_to_list_array s property_array = Raise AssertionError)
  /\ (forall s0 : ParticleSet,
        _pid_mapping_bounds s0 = [] ->
        covert_static_array_to_list_array s0 (@nil A) = Raise IndexError).
Proof.
  intros Hinv Hbs Hlt. split; [|split].
  3: { intros s0 H0. unfold covert_static_array_to_list_array. by rewrite H0. }
  - intros Hlen. pose proof (invariant_sizes_nonneg s Hinv) as Hpos.
    unfold covert_static_array_to_list_array. fold (size s).
    rewrite Hlen, Z.eqb_refl. simpl py_assert. rewrite bind_ret.
    rewrite Hbs. change (py_getitem (first :: mid ++ [last]) 0) with (Ok first).
    rewrite bind_ret. rewrite <- Hbs.
    apply (slice_loop_runs_off _ _ Hpos (_pid_mapping_bounds s) 0); [done| | |lia].
    + rewrite Forall_forall in Hpos. specialize (Hpos first).
      rewrite Hbs in Hpos. specialize (Hpos ltac:(apply list_elem_of_here)). lia.
    + rewrite Hlen. unfold size. rewrite size_foldl, Hbs.
      rewrite app_comm_cons, removelast_last, foldr_app. simpl.
      assert (forall x l, foldr (fun b n => info_size b + n) x l
                          = x + foldr (fun b n => info_size b + n) 0 l) as Hf.
      { intros x l. induction l as [|y l IHl]; simpl; lia. }
      rewrite (Hf (info_size last + 0)). lia.
  - intros Hlen. unfold covert_static_array_to_list_array. fold (size s).
    destruct (Z.of_nat (length property_array) =? size s) eqn:E; [lia|done].
Qed.

Lemma covert_fails_when_first_bracket_is_smaller_witness :
  let p := fun k => mkParticle k 0 0 0 (Some 0%Q) 0 in
  let s := mkParticleSet [[p 0]; [p 1; p 2]] [(0, 0, 1); (1, 2, 2)]
             4096 None None None in
  (Z.of_nat (length [10; 11; 12]) = size s ->
   covert_static_array_to_list_array s [10; 11; 12] = Raise IndexError)
  /\ (Z.of_nat (length [10; 11; 12]) <> size s ->
      covert_static_array_to_list_array s [10; 11; 12] = Raise AssertionError)
  /\ (forall s0 : ParticleSet,
        _pid_mapping_bounds s0 = [] ->
        covert_static_array_to_list_array s0 (@nil Z) = Raise IndexError).
Proof.
  intros p s.
  apply (covert_fails_when_first_bracket_is_smaller s (0, 0, 1) [] (1, 2, 2)
           [10; 11; 12]).
  - apply (bool_decide_unpack _). vm_compute. exact I.
  - reflexivity.
  - unfold info_size. simpl. lia.
Defined.

(** ** What compaction keeps *)

Lemma concat_Permutation {A} (l l' : list (list A)) :
  l ≡ₚ l' -> concat l ≡ₚ concat l'.
Proof.
  induction 1 as [|x l l' _ IH|x y l|l l' l'' _ IH1 _ IH2]; simpl.
  - done.
  - by rewrite IH.
  - rewrite !app_assoc. by rewrite (Permutation_app_comm y x).
  - by rewrite IH1.
Qed.

(** Appending bracket [j] to bracket [i] and deleting bracket [j] keeps
    the records. *)
Lemma concat_merge_Permutation {A} (pl : list (list A)) (i j : nat) a b :
  i <> j -> pl !! i = Some a -> pl !! j = Some b ->
  concat (delete j (<[i := a ++ b]> pl)) ≡ₚ concat pl.
Proof.
  intros Hij Hi Hj.
  pose proof (lookup_lt_Some _ _ _ Hi) as Hilt.
  assert (<[i := a ++ b]> pl !! j = Some b) as Hj'
    by (by rewrite list_lookup_insert_ne).
  assert (<[i := a ++ b]> pl !! i = Some (a ++ b)) as Hi'
    by (by apply list_lookup_insert_eq).
  pose proof (concat_Permutation _ _ (delete_Permutation _ _ _ Hj')) as H1.
  pose proof (concat_Permutation _ _ (delete_Permutation _ _ _ Hi')) as H2.
  pose proof (concat_Permutation _ _ (delete_Permutation _ _ _ Hi)) as H3.
  rewrite delete_insert_same in H2. simpl in H1, H2, H3.
  apply (Permutation_app_inv_l b). rewrite <- H1, H2, H3.
  rewrite <- !app_assoc. rewrite !app_assoc. by rewrite (Permutation_app_comm b a).
Qed.

Lemma scan_brackets_found s lw indices trg src trg' src' :
  scan_brackets s lw indices trg src = Ok (trg', src') ->
  NoDup indices ->
  (forall t, trg = Some t -> t.1 ∉ indices) ->
  (forall t u, trg = Some t -> src = Some u -> t.1 <> u.1) ->
  (trg = None -> src = None) ->
  small_entry s lw trg -> small_entry s lw src ->
  small_entry s lw trg' /\ small_entry s lw src'
  /\ (forall t u, trg' = Some t -> src' = Some u -> t.1 <> u.1)
  /\ (trg' = None -> src' = None).
Proof.
  revert trg src. induction indices as [|i rest IH]; intros trg src; simpl.
  - intros [= <- <-]. done.
  - intros (info & Hinfo & H)%bind_Ok Hnd Hout Hne Hts Ht Hs.
    apply NoDup_cons in Hnd as [Hi Hnd].
    apply bind_Ok in H as ([trg1 src1] & Hstep & H).
    assert (small_entry s lw trg1 /\ small_entry s lw src1
            /\ (forall t u, trg1 = Some t -> src1 = Some u -> t.1 <> u.1)
            /\ (forall t, trg1 = Some t -> t.1 ∉ rest)
            /\ (trg1 = None -> src1 = None)) as (Ht1 & Hs1 & Hne1 & Hout1 & Hts1).
    { destruct (info_size info <? lw) eqn:E.
      - destruct trg as [t|].
        + pose proof (Hout t eq_refl) as Hti. apply not_elem_of_cons in Hti as [Hti Htr].
          destruct src as [u|].
          * injection Hstep as <- <-. repeat split; try done.
            by intros t' [= <-].
          * apply bind_Ok in Hstep as (arr & _ & [= <- <-]).
            repeat split; try done.
            -- simpl. exists info. split; [done|lia].
            -- by intros t' u [= <-] [= <-].
            -- by intros t' [= <-].
        + rewrite (Hts eq_refl) in *.
          apply bind_Ok in Hstep as (arr & _ & [= <- <-]).
          repeat split; try done.
          * simpl. exists info. split; [done|lia].
          * by intros t' [= <-].
      - injection Hstep as <- <-. repeat split; try done.
        intros t' -> . pose proof (Hout t' eq_refl) as Hti.
        by apply not_elem_of_cons in Hti as [_ ?]. }
    destruct trg1 as [t1|]; [destruct src1 as [u1|]|].
    + injection H as <- <-. done.
    + by apply (IH _ _ H).
    + by apply (IH _ _ H).
Qed.

(** One merge on two distinct entries of a store that fits the
    invariant and has no empty bracket. *)
Lemma merge_pair_exact s (i j : nat) a b :
  store_invariant s -> nonempty_brackets s ->
  _plist s !! i = Some a -> _plist s !! j = Some b -> i <> j ->
  exists s',
    merge_pair s (Z.of_nat i, a) (Z.of_nat j, b) = Ok s'
    /\ _plist s' = delete j (<[i := a ++ b]> (_plist s))
    /\ store_invariant s' /\ nonempty_brackets s'
    /\ nlist_limit s' = nlist_limit s.
Proof.
  intros Hinv Hne Hi Hj Hij. pose proof (store_invariant_length s Hinv) as Hlen.
  pose proof (lookup_lt_Some _ _ _ Hi) as Hlt.
  pose proof (lookup_lt_Some _ _ _ Hj) as Hlt'.
  unfold merge_pair. simpl.
  rewrite (py_setitem_nat _ _ _ Hlt), bind_ret.
  assert (a <> []) as Ha.
  { unfold nonempty_brackets in Hne. rewrite Forall_forall in Hne.
    apply Hne. by eapply list_elem_of_lookup_2. }
  destruct (a ++ b) as [|p ps] eqn:Hm; [by destruct a|].
  destruct (summary_nonempty p ps) as [info Hinfo].
  rewrite Hinfo, bind_ret.
  rewrite py_setitem_nat by lia. rewrite bind_ret.
  rewrite !py_delitem_nat by (rewrite length_insert; lia). rewrite !bind_ret.
  eexists. split; [done|]. simpl. repeat split.
  - unfold store_invariant. simpl. apply Forall2_delete.
    apply Forall2_insert; [done|]. by apply summary_fits.
  - unfold nonempty_brackets. simpl. apply Forall_delete.
    apply Forall_insert; [done|done].
Qed.

Lemma entry_ok_Some s i arr :
  entry_ok s (Some (i, arr)) -> exists k : nat, i = Z.of_nat k /\ _plist s !! k = Some arr.
Proof. done. Qed.

(** The loop of [_merge_brackets_] on a store that fits the invariant
    and has no empty bracket: it returns such a store, holding the same
    records, and no bracket it merged grew past [nlist_limit]. *)
Lemma merge_loop_keeps fuel s :
  (length (_plist s) < fuel)%nat ->
  store_invariant s -> nonempty_brackets s ->
  exists s',
    merge_loop fuel s = Ok s'
    /\ store_invariant s' /\ nonempty_brackets s'
    /\ nlist_limit s' = nlist_limit s
    /\ concat (_plist s') ≡ₚ concat (_plist s)
    /\ (Forall (fun arr => Z.of_nat (length arr) <= nlist_limit s) (_plist s) ->
        Forall (fun arr => Z.of_nat (length arr) <= nlist_limit s) (_plist s')).
Proof.
  revert s. induction fuel as [|fuel IH]; intros s Hfuel Hinv Hne; [lia|].
  pose proof (store_invariant_length s Hinv) as Hlen.
  simpl.
  destruct (scan_brackets_ok s (Z.quot (nlist_limit s) 2)
              (seqZ 0 (Z.of_nat (length (_plist s)))) None None)
    as (trg & src & Hscan & Ht & Hs);
    [done|apply seqZ_range|done|done|].
  destruct (scan_brackets_found _ _ _ _ _ _ _ Hscan (NoDup_seqZ _ _))
    as (Hts & Hss & Hdist & _); try done.
  rewrite Hscan, bind_ret.
  destruct trg as [[i a]|]; [|by exists s]. destruct src as [[j b]|]; [|by exists s].
  apply entry_ok_Some in Ht as (ki & -> & Hki).
  apply entry_ok_Some in Hs as (kj & -> & Hkj).
  assert (ki <> kj) as Hij.
  { intros ->. by apply (Hdist _ _ eq_refl eq_refl). }
  destruct (merge_pair_exact s ki kj a b Hinv Hne Hki Hkj Hij)
    as (s1 & Hm & Hpl1 & Hinv1 & Hne1 & Hlim1).
  rewrite Hm, bind_ret.
  destruct (IH s1) as (s' & Hloop & Hinv' & Hne' & Hlim' & Hperm & Hcap);
    [|done|done|].
  { apply merge_pair_length in Hm. lia. }
  exists s'. split; [done|]. split; [done|]. split; [done|].
  split; [congruence|]. split.
  - rewrite Hperm, Hpl1. by apply concat_merge_Permutation.
  - intros Hall. rewrite Hlim1 in Hcap. apply Hcap. rewrite Hpl1.
    apply Forall_delete. apply Forall_insert; [done|].
    destruct Hts as (infoi & Hgi & Hsi). destruct Hss as (infoj & Hgj & Hsj).
    apply py_getitem_Ok in Hgi as (ni & Hni & Hbi).
    apply py_getitem_Ok in Hgj as (nj & Hnj & Hbj).
    rewrite norm_index_nat in Hni by (rewrite Hlen; by eapply lookup_lt_Some).
    injection Hni as <-.
    rewrite norm_index_nat in Hnj by (rewrite Hlen; by eapply lookup_lt_Some).
    injection Hnj as <-.
    destruct (Forall2_lookup_lr _ _ _ _ _ _ Hinv Hki Hbi) as [Hza _].
    destruct (Forall2_lookup_lr _ _ _ _ _ _ Hinv Hkj Hbj) as [Hzb _].
    rewrite length_app.
    assert (0 <= nlist_limit s) as Hpos.
    { destruct (decide (0 <= nlist_limit s)); [done|].
      assert (Z.quot (nlist_limit s) 2 <= 0); [|lia].
      apply Z.quot_le_upper_bound; lia. }
    rewrite Z.quot_div_nonneg in Hsi, Hsj by lia.
    pose proof (Z.mul_div_le (nlist_limit s) 2 ltac:(lia)). lia.
Qed.

(** X16.  On a store that fits the invariant and has no empty bracket
    compaction returns, and it loses, repeats and invents no record: the
    records of the store it returns are those of the store it was given,
    up to their order; [size] is unchanged, the summaries fit, and the
    number of brackets has not grown. *)
Theorem compaction_keeps_the_records s :
  store_invariant s -> nonempty_brackets s ->
  exists s',
    _merge_brackets_ s = Ok s'
    /\ convert_pset_to_static_list s' ≡ₚ convert_pset_to_static_list s
    /\ size s' = size s
    /\ store_invariant s' /\ nonempty_brackets s'
    /\ (length (_plist s') <= length (_plist s))%nat.
Proof.
  intros Hinv Hne.
  destruct (merge_loop_keeps (S (length (_plist s))) s ltac:(lia) Hinv Hne)
    as (s' & Hloop & Hinv' & Hne' & Hlim & Hperm & _).
  exists s'. split; [done|]. split; [done|]. split.
  { rewrite (size_is_length s Hinv), (size_is_length s' Hinv').
    f_equal. by apply Permutation_length. }
  split; [done|]. split; [done|].
  clear Hperm Hinv' Hne' Hlim Hinv Hne. revert Hloop.
  generalize (S (length (_plist s))). intros fuel. revert s.
  induction fuel as [|fuel IH]; intros s; simpl; [done|].
  intros ([trg src] & _ & H)%bind_Ok.
  destruct trg as [trg|]; [|injection H as <-; lia].
  destruct src as [src|]; [|injection H as <-; lia].
  apply bind_Ok in H as (s1 & Hm & H). apply merge_pair_length in Hm.
  apply IH in H. lia.
Qed.

Lemma compaction_keeps_the_records_witness :
  let p := fun k => mkParticle k 0 0 0 (Some 0%Q) 0 in
  let s := mkParticleSet [[p 0]; [p 5]; [p 2; p 1]] [(0, 0, 1); (5, 5, 1); (1, 2, 2)]
             4096 None None None in
  exists s',
    _merge_brackets_ s = Ok s'
    /\ convert_pset_to_static_list s' ≡ₚ convert_pset_to_static_list s
    /\ size s' = size s
    /\ store_invariant s' /\ nonempty_brackets s'
    /\ (length (_plist s') <= length (_plist s))%nat.
Proof.
  intros p s. apply (compaction_keeps_the_records s).
  - apply (bool_decide_unpack _). vm_compute. exact I.
  - apply (bool_decide_unpack _). vm_compute. exact I.
Defined.

(** A scan that finds no second undersized bracket has met at most one
    of them, and none when it started with a target. *)
Lemma scan_brackets_few s lw indices trg trg' :
  scan_brackets s lw indices trg None = Ok (trg', None) ->
  (length (filter (fun i => undersized s lw i = true) indices)
   <= match trg with Some _ => 0 | None => 1 end)%nat.
Proof.
  revert trg. induction indices as [|i rest IH]; intros trg; simpl.
  - intros _. destruct trg; simpl; lia.
  - intros (info & Hinfo & H)%bind_Ok.
    assert (undersized s lw i = (info_size info <? lw)) as Hu
      by (unfold undersized; by rewrite Hinfo).
    destruct (info_size info <? lw) eqn:E.
    + rewrite filter_cons_True by done.
      destruct trg as [t|].
      * apply bind_Ok in H as ([trg1 src1] & Hstep & H).
        apply bind_Ok in Hstep as (arr & _ & [= <- <-]). done.
      * apply bind_Ok in H as ([trg1 src1] & Hstep & H).
        apply bind_Ok in Hstep as (arr & _ & [= <- <-]).
        apply IH in H. simpl in *. lia.
    + rewrite filter_cons_False by (rewrite Hu; done).
      rewrite bind_ret in H. destruct trg as [t|]; by apply IH in H.
Qed.

Lemma length_le_1_eq {A} (l : list A) x y :
  (length l <= 1)%nat -> x ∈ l -> y ∈ l -> x = y.
Proof.
  destruct l as [|z [|z' l]]; simpl; intros Hl Hx Hy; try lia.
  - by apply elem_of_nil in Hx.
  - apply list_elem_of_singleton in Hx, Hy. congruence.
Qed.

(** X17.  After compaction of a store that fits the invariant and has
    no empty bracket, at most one bracket holds fewer than
    [nlist_limit / 2] records; and when no bracket held more than
    [nlist_limit] records before, none does after. *)
Theorem compaction_leaves_one_undersized_bracket s :
  store_invariant s -> nonempty_brackets s ->
  exists s',
    _merge_brackets_ s = Ok s'
    /\ nlist_limit s' = nlist_limit s
    /\ (forall (i j : nat) a b,
          _plist s' !! i = Some a -> _plist s' !! j = Some b ->
          Z.of_nat (length a) < Z.quot (nlist_limit s) 2 ->
          Z.of_nat (length b) < Z.quot (nlist_limit s) 2 ->
          i = j)
    /\ (Forall (fun arr => Z.of_nat (length arr) <= nlist_limit s) (_plist s) ->
        Forall (fun arr => Z.of_nat (length arr) <= nlist_limit s) (_plist s')).
Proof.
  intros Hinv Hne.
  destruct (merge_loop_keeps (S (length (_plist s))) s ltac:(lia) Hinv Hne)
    as (s' & Hloop & Hinv' & Hne' & Hlim & _ & Hcap).
  exists s'. split; [done|]. split; [done|]. split; [|done].
  destruct (merge_loop_settled _ _ _ Hloop) as ([trg src] & Hscan & Hnone).
  destruct (scan_brackets_found _ _ _ _ _ _ _ Hscan (NoDup_seqZ _ _))
    as (_ & _ & _ & Hts); try done.
  assert (src = None) as -> by (destruct Hnone as [H|H]; simpl in H; auto).
  apply scan_brackets_few in Hscan. rewrite Hlim in Hscan.
  pose proof (store_invariant_length s' Hinv') as Hlen.
  intros i j a b Hi Hj Ha Hb.
  assert (forall (k : nat) arr, _plist s' !! k = Some arr ->
            Z.of_nat (length arr) < Z.quot (nlist_limit s) 2 ->
            Z.of_nat k ∈ filter (fun i => undersized s' (Z.quot (nlist_limit s) 2) i = true)
                           (seqZ 0 (Z.of_nat (length (_plist s'))))) as Hin.
  { intros k arr Hk Hsmall. apply list_elem_of_filter. split.
    - destruct (Forall2_lookup_l _ _ _ _ _ Hinv' Hk) as (info & Hinfo & [Hsz _]).
      unfold undersized. rewrite (py_getitem_nat _ _ _ Hinfo). lia.
    - apply elem_of_seqZ. apply lookup_lt_Some in Hk. lia. }
  apply Nat2Z.inj.
  eapply length_le_1_eq; [exact Hscan|by eapply Hin|by eapply Hin].
Qed.

Lemma compaction_leaves_one_undersized_bracket_witness :
  let p := fun k => mkParticle k 0 0 0 (Some 0%Q) 0 in
  let s := mkParticleSet [[p 0]; [p 5]; [p 2; p 1]] [(0, 0, 1); (5, 5, 1); (1, 2, 2)]
             4096 None None None in
  exists s',
    _merge_brackets_ s = Ok s'
    /\ nlist_limit s' = nlist_limit s
    /\ (forall (i j : nat) a b,
          _plist s' !! i = Some a -> _plist s' !! j = Some b ->
          Z.of_nat (length a) < Z.quot (nlist_limit s) 2 ->
          Z.of_nat (length b) < Z.quot (nlist_limit s) 2 ->
          i = j)
    /\ (Forall (fun arr => Z.of_nat (length arr) <= nlist_limit s) (_plist s) ->
        Forall (fun arr => Z.of_nat (length arr) <= nlist_limit s) (_plist s')).
Proof.
  intros p s. apply (compaction_leaves_one_undersized_bracket s).
  - apply (bool_decide_unpack _). vm_compute. exact I.
  - apply (bool_decide_unpack _). vm_compute. exact I.
Defined.

(** ** Runs of [execute] *)

Lemma xQ_min_le a b :
  xQ_leb (xQ_min a b) a = true /\ xQ_leb (xQ_min a b) b = true.
Proof.
  unfold xQ_min, xQ_ltb. destruct (xQ_leb a b) eqn:E; simpl.
  - split; [apply xQ_leb_refl|done].
  - split; [by apply xQ_leb_total|apply xQ_leb_refl].
Qed.

Lemma foldl_xQ_min_le x l : xQ_leb (foldl xQ_min x l) x = true.
Proof.
  revert x. induction l as [|y l IH]; intros x; simpl; [apply xQ_leb_refl|].
  eapply xQ_leb_trans; [apply IH|]. apply xQ_min_le.
Qed.

Lemma foldl_xQ_min_elem x l m :
  m ∈ l -> xQ_leb (foldl xQ_min x l) m = true.
Proof.
  revert x. induction l as [|y l IH]; intros x Hm; [by apply elem_of_nil in Hm|].
  simpl. apply elem_of_cons in Hm as [->|Hm].
  - eapply xQ_leb_trans; [apply foldl_xQ_min_le|]. apply xQ_min_le.
  - by apply IH.
Qed.

Section Runs.

Variable kernel_execute : ParticleSet -> xQ -> Q -> bool -> outcome ParticleSet.
Variable computeTimeChunk : xQ -> Q -> xQ.
Variables mintime maxtime mindepth : Q.
Variable floordiv : Q -> Q -> Q.

Abbreviation release := (release mindepth).
Abbreviation loop_body := (loop_body kernel_execute computeTimeChunk mindepth).
Abbreviation step_loop := (step_loop kernel_execute computeTimeChunk mindepth).
Abbreviation prepare := (prepare computeTimeChunk mintime maxtime floordiv).
Abbreviation execute :=
  (execute kernel_execute computeTimeChunk mintime maxtime mindepth floordiv).
Abbreviation single_shot := (single_shot mintime maxtime).
Abbreviation derived_endtime := (derived_endtime mintime maxtime).

(** One pass of the loop appends to the trace: the kernel call first,
    then what the pass fires. *)
Lemma loop_body_events a dt endtime outputdt moviedt callbackdt once st st' :
  loop_body a dt endtime outputdt moviedt callbackdt once st = Ok st' ->
  exists es, trace st' = trace st ++ es
             /\ Forall (loop_event_ok a dt endtime once) es.
Proof.
  unfold loop_body.
  set (time := if Qltb 0 dt then _ else _).
  intros (s & _ & H)%bind_Ok. apply bind_Ok in H as (st1 & H1 & [= <-]).
  assert (loop_event_ok a dt endtime once (KernelExecute time dt once)) as Hk.
  { simpl. split; [done|]. split; [done|]. unfold time.
    destruct (Qltb 0 dt).
    - apply foldl_xQ_min_elem. do 4 apply list_elem_of_further.
      apply list_elem_of_here.
    - exact (foldl_xQ_max_last (next_prelease st)
               [next_input st; next_output st; next_movie st; next_callback st]
               (Fin endtime)). }
  assert (exists es1, trace st1 = trace st ++ es1
                      /\ Forall (loop_event_ok a dt endtime once) es1)
    as (es1 & Htr & Hes1).
  { destruct (within _ time _); simpl in H1.
    - destruct time as [|t|]; try done.
      destruct (repeatdt s) as [r|]; [|done].
      apply bind_Ok in H1 as (st2 & Hrel & [= <-]).
      unfold release in Hrel. simpl in Hrel.
      destruct (repeat_template s); [|done].
      apply bind_Ok in Hrel as ([pset_new lastID'] & _ & [= <-]). simpl.
      exists [KernelExecute (Fin t) dt once; Release (Fin t)].
      split; [by rewrite <- app_assoc|].
      constructor; [exact Hk|]. constructor; [done|constructor].
    - injection H1 as <-. simpl. exists [KernelExecute time dt once].
      split; [done|]. constructor; [exact Hk|constructor]. }
  assert (Forall (loop_event_ok a dt endtime once)
            (if is_Some_b (arg_output_file a) then [OutputWrite time] else [])) as Hout.
  { destruct (is_Some_b (arg_output_file a)) eqn:E; [|constructor].
    constructor; [exact E|constructor]. }
  assert (Forall (loop_event_ok a dt endtime once)
            (match arg_postIterationCallbacks a with
             | Some k => Callback <$> seq 0 k
             | None => []
             end)) as Hcb.
  { destruct (arg_postIterationCallbacks a) as [k|]; [|constructor].
    apply Forall_fmap. apply Forall_forall. done. }
  repeat match goal with
         | |- context [if ?c then _ else _] => destruct c
         end; simpl; rewrite Htr, <- ?app_assoc;
    (eexists; split; [reflexivity|]);
    rewrite ?Forall_app; repeat split; try done;
    try (constructor; [done|constructor]); constructor.
Qed.

Lemma step_loop_events fuel a dt endtime outputdt moviedt callbackdt once st st' :
  step_loop fuel a dt endtime outputdt moviedt callbackdt once st = Ok st' ->
  exists es, trace st' = trace st ++ es
             /\ Forall (loop_event_ok a dt endtime once) es.
Proof.
  revert st. induction fuel as [|fuel IH]; intros st; simpl.
  - destruct (_ || _); [done|]. intros [= <-]. exists []. by rewrite app_nil_r.
  - destruct (_ || _).
    + intros (st1 & Hbody & H)%bind_Ok.
      apply loop_body_events in Hbody as (es1 & Htr1 & Hes1).
      destruct (Qeq_bool dt 0).
      * injection H as <-. eauto.
      * apply IH in H as (es2 & Htr2 & Hes2).
        exists (es1 ++ es2). rewrite Htr2, Htr1, <- app_assoc. split; [done|].
        by apply Forall_app.
    + intros [= <-]. exists []. by rewrite app_nil_r.
Qed.

(** What the preparation hands to the loop. *)
Lemma prepare_schedule s lastID0 a sch :
  prepare s lastID0 a = Ok sch ->
  let once := single_shot a (sch_starttime sch) in
  sch_execute_once sch = once
  /\ sch_dt sch = (if once then 0%Q else arg_dt a)
  /\ sch_endtime sch
     = (if once then sch_starttime sch else derived_endtime a (sch_starttime sch))
  /\ now (sch_state sch) = Fin (sch_starttime sch)
  /\ trace (sch_state sch)
     = (if is_Some_b (arg_output_file a) then [OutputWrite (Fin (sch_starttime sch))]
        else [])
       ++ match arg_moviedt a with
          | Some m => if Qeq_bool m 0 then [] else [Show (Fin (sch_starttime sch))]
          | None => []
          end.
Proof.
  unfold prepare.
  intros (_ & _ & H)%bind_Ok. apply bind_Ok in H as (_ & _ & H).
  apply bind_Ok in H as (_ & _ & H). apply bind_Ok in H as (_ & _ & H).
  apply bind_Ok in H as (start & _ & H). apply bind_Ok in H as (s1 & _ & H).
  apply bind_Ok in H as (np & _ & [= <-]). simpl. done.
Qed.

(** X18.  A run that returns has written to the output file first, at
    the start time, and last, at the final time; without an output file
    nothing is ever written. *)
Theorem execute_writes_first_and_last fuel s lastID0 a st start :
  execute fuel s lastID0 a = Ok (st, start) ->
  match arg_output_file a with
  | Some _ => exists mid, trace st = OutputWrite (Fin start) :: mid ++ [OutputWrite (now st)]
  | None => Forall (fun e => is_write e = false) (trace st)
  end.
Proof.
  unfold execute. intros (sch & Hprep & H)%bind_Ok.
  apply bind_Ok in H as (st1 & Hloop & [= <- <-]).
  destruct (prepare_schedule _ _ _ _ Hprep) as (_ & _ & _ & _ & Htr0).
  apply step_loop_events in Hloop as (es & Htr & Hes).
  simpl. rewrite Htr, Htr0.
  destruct (arg_output_file a) as [o|] eqn:Hfile; simpl.
  - exists (match arg_moviedt a with
            | Some m => if Qeq_bool m 0 then [] else [Show (Fin (sch_starttime sch))]
            | None => []
            end ++ es).
    by rewrite <- !app_assoc.
  - rewrite app_nil_r. apply Forall_app. split.
    + destruct (arg_moviedt a) as [m|]; [|constructor].
      destruct (Qeq_bool m 0); by repeat constructor.
    + eapply Forall_impl; [exact Hes|]. intros e He.
      destruct e; try done. simpl in He. by rewrite Hfile in He.
Qed.









(** X21.  Each release of the loop adds the particles of the release
    template, and nothing else: with a template whose arrays have one
    length, the set gains one record per template entry, after the
    records it had, each at the release time, with the time step of the
    run and the identity [repeatpid[i]] plus the class-wide counter. *)
Theorem release_adds_the_template st t run_dt tpl :
  repeat_template (pset st) = Some tpl ->
  well_shaped (mkInit (repeatlon tpl) (repeatlat tpl) (Some (repeatdepth tpl))
                 [Some t] None (Some (repeatpid tpl))) ->
  exists st',
    release st t run_dt = Ok st'
    /\ convert_pset_to_static_list (pset st')
       = convert_pset_to_static_list (pset st)
         ++ (set_dt run_dt
               <$> records_of mindepth (lastID st)
                     (mkInit (repeatlon tpl) (repeatlat tpl) (Some (repeatdepth tpl))
                        [Some t] None (Some (repeatpid tpl))))
    /\ size (pset st') = size (pset st) + Z.of_nat (length (repeatlon tpl))
    /\ Forall (fun p => time p = Some t /\ dt p = run_dt)
         (drop (length (convert_pset_to_static_list (pset st)))
            (convert_pset_to_static_list (pset st')))
    /\ trace st' = trace st ++ [Release (Fin t)].
Proof.
  intros Htpl Hshape.
  set (a := mkInit _ _ _ _ _ _) in *.
  destruct (ParticleSet_init_exact mindepth (lastID st) a Hshape eq_refl)
    as (sizes & bs & Hinit & Hbs & Hsizes).
  destruct (records_of_lookup mindepth (lastID st) a Hshape) as [Hlen Hrec].
  pose proof (ParticleSet_init_invariant _ _ _ _ _ Hinit) as Hinv.
  set (snew := mkParticleSet _ _ _ _ _ _) in *.
  assert (convert_pset_to_static_list snew = records_of mindepth (lastID st) a)
    as Hstatic.
  { unfold convert_pset_to_static_list. simpl. apply reshape_concat.
    rewrite Hlen. destruct Hsizes as [[-> ->]|(q & r & -> & Hr & ->)]; [done|].
    rewrite sum_list_with_app, sum_list_replicate. simpl. lia. }
  unfold release. rewrite Htpl. fold a. rewrite Hinit, bind_ret.
  eexists. split; [done|]. cbn [pset trace].
  assert (convert_pset_to_static_list
            (add (pset st) (map_particles (set_dt run_dt) snew))
          = convert_pset_to_static_list (pset st)
            ++ (set_dt run_dt <$> records_of mindepth (lastID st) a)) as Hall.
  { unfold convert_pset_to_static_list in *. simpl. rewrite concat_app. f_equal.
    rewrite <- concat_map. simpl in Hstatic. by rewrite Hstatic. }
  split; [done|]. split.
  { unfold size. simpl. rewrite foldl_app, !size_foldl.
    pose proof (size_is_length snew Hinv) as Hsz. unfold size in Hsz.
    rewrite size_foldl in Hsz. unfold convert_pset_to_static_list in Hstatic.
    rewrite Hstatic, Hlen in Hsz. simpl in Hsz. lia. }
  split; [|done].
  rewrite Hall, drop_app_length. apply Forall_fmap, Forall_forall.
  intros p Hp. split; [|done]. simpl.
  unfold records_of in Hp. apply list_elem_of_omap in Hp as (i & _ & Hi).
  unfold record_of in Hi.
  destruct (pid_of (lastID st) a !! i); [|done].
  destruct (arg_lon a !! i); [|done]. destruct (arg_lat a !! i); [|done].
  destruct (depth_of mindepth a !! i); [|done].
  destruct (time_of a !! i) as [t'|] eqn:Et; [|done].
  simpl in Hi. injection Hi as <-. simpl.
  unfold time_of in Et. simpl in Et. by apply lookup_replicate in Et as [-> _].
Qed.





End Runs.

Lemma execute_writes_first_and_last_witness :
  let p := fun k => mkParticle k 0 0 0 (Some 0%Q) 0 in
  let s := mkParticleSet [[p 0; p 1]] [(0, 1, 2)] 4096 None None None in
  exists st start,
    execute idle no_input 0 100 0 exact_floordiv 5 s 2
      (mkExecute None (Some 2%Q) 1 None (Some (Fin 1)) None None) = Ok (st, start)
    /\ exists mid,
         trace st = OutputWrite (Fin start) :: mid ++ [OutputWrite (now st)].
Proof.
  intros p s. eexists _, _. split; [vm_compute; reflexivity|].
  exact (execute_writes_first_and_last idle no_input 0 100 0 exact_floordiv 5 s 2
           (mkExecute None (Some 2%Q) 1 None (Some (Fin 1)) None None) _ _
           ltac:(vm_compute; reflexivity)).
Defined.


Lemma release_adds_the_template_witness :
  let p := fun k => mkParticle k 0 0 0 (Some 0%Q) 0 in
  let s := mkParticleSet [[p 0; p 1]] [(0, 1, 2)] 4096 (Some 5%Q) (Some (Some 0%Q))
             (Some (mkRepeat [0; 1]%Q [0; 0]%Q [0; 0]%Q [0; 1])) in
  let st := mkLoop s 2 (Fin 5) (Fin 5) PosInf PosInf PosInf PosInf [] in
  let a := mkInit [0; 1]%Q [0; 0]%Q (Some [0; 0]%Q) [Some 5%Q] None (Some [0; 1]) in
  exists st',
    release 0 st 5 1 = Ok st'
    /\ convert_pset_to_static_list (pset st')
       = convert_pset_to_static_list (pset st) ++ (set_dt 1 <$> records_of 0 2 a)
    /\ size (pset st') = size (pset st) + 2
    /\ Forall (fun p => time p = Some 5%Q /\ dt p = 1%Q)
         (drop (length (convert_pset_to_static_list (pset st)))
            (convert_pset_to_static_list (pset st')))
    /\ trace st' = trace st ++ [Release (Fin 5)].
Proof.
  intros p s st a.
  apply (release_adds_the_template 0 st 5 1
           (mkRepeat [0; 1]%Q [0; 0]%Q [0; 0]%Q [0; 1])).
  - reflexivity.
  - apply (bool_decide_unpack _). vm_compute. exact I.
Defined.


(** ** C10: the shape of what [pop] returns and the number of removals *)

Lemma drop_positions_length {A} (ks : list nat) (i : nat) (l : list A) :
  length (drop_positions ks i l)
  = length (filter (fun j => j ∉ ks) (seq i (length l))).
Proof.
  revert i. induction l as [|x l IH]; intros i; simpl; [done|].
  rewrite filter_cons. destruct (decide (i ∈ ks)) as [Hin|Hout].
  - rewrite bool_decide_eq_true_2 by done. rewrite decide_False by tauto. apply IH.
  - rewrite bool_decide_eq_false_2 by done. rewrite decide_True by done.
    simpl. f_equal. apply IH.
Qed.

(** Deleting distinct positions of an array shortens it by their
    number. *)
Lemma drop_positions_distinct {A} (ks : list nat) (l : list A) :
  NoDup ks -> Forall (fun k => (k < length l)%nat) ks ->
  (length (drop_positions ks 0 l) + length ks = length l)%nat.
Proof.
  intros Hnd Hlt. rewrite drop_positions_length.
  pose proof (filter_app_complement (fun j => j ∈ ks) (seq 0 (length l))) as Hperm.
  apply Permutation_length in Hperm. rewrite length_app, length_seq in Hperm.
  assert (filter (fun j => j ∈ ks) (seq 0 (length l)) ≡ₚ ks) as Hks.
  { apply NoDup_Permutation; [apply NoDup_filter, NoDup_seq|done|].
    intros k. rewrite list_elem_of_filter, elem_of_seq. split; [tauto|].
    intros Hk. split; [done|]. rewrite Forall_forall in Hlt. specialize (Hlt k Hk). lia. }
  apply Permutation_length in Hks. lia.
Qed.

Lemma omap_norm_index (arr : list Particle) local_indices :
  Forall (in_range arr) local_indices ->
  length (omap (norm_index (length arr)) local_indices) = length local_indices
  /\ Forall (fun k => (k < length arr)%nat) (omap (norm_index (length arr)) local_indices).
Proof.
  induction 1 as [|i l Hi _ [IH1 IH2]]; simpl; [done|].
  destruct (in_range_norm arr i Hi) as (k & -> & Hk). simpl.
  split; [by f_equal|by constructor].
Qed.

(** What requests of distinct slots leave in the brackets. *)
Lemma kept_count pl lindices :
  Forall2 request_ok pl lindices -> Forall2 distinct_slots pl lindices ->
  (length (concat (zip_with kept pl lindices)) + requested_in lindices
   = length (concat pl))%nat.
Proof.
  intros Hreq. induction Hreq as [|arr o pl lindices Hreq _ IH]; intros Hd; [done|].
  apply Forall2_cons in Hd as [Hd Hds]. specialize (IH Hds).
  cbn [zip_with concat requested_in foldr]. rewrite !length_app.
  change (foldr (fun o n => (length (default [] o) + n)%nat) 0%nat lindices)
    with (requested_in lindices).
  assert (length (kept arr o) + length (default [] o) = length arr)%nat; [|lia].
  destruct o as [locs|]; simpl; [|lia].
  destruct Hreq as (_ & Hrange & _).
  destruct (omap_norm_index arr locs Hrange) as [Hlen Hlt].
  rewrite <- Hlen. by apply drop_positions_distinct.
Qed.

(** C10 (amended).  The shape of what [pop] returns follows the number
    of indices the request names, an index named twice counted twice:
    whenever [pop] returns, it returns [None] for a request that names
    none, the bare particle for one, a list of that many particles for
    several.  On a store that fits the invariant and has no empty
    bracket, when the request of every bracket names slots of the
    bracket, leaves a record in it and names no slot twice, [pop]
    returns and the set has lost as many particles as the request
    names. *)
Theorem pop_return_shape s indices :
  (forall s' v,
     pop s indices = Ok (s', v) ->
     match requested indices with
     | 0%nat => v = PopNone
     | 1%nat => exists p, v = PopParticle p
     | n => exists l, v = PopList l /\ length l = n
     end)
  /\ (forall lindices,
        store_invariant s -> nonempty_brackets s ->
        to_lindices s indices = Ok lindices ->
        Forall2 request_ok (_plist s) lindices ->
        Forall2 distinct_slots (_plist s) lindices ->
        exists s' v,
          pop s indices = Ok (s', v)
          /\ size s' = size s - Z.of_nat (requested indices)).
Proof.
  split.
  - intros s' v. unfold pop. intros (lindices & Hlind & H)%bind_Ok.
    apply to_lindices_count in Hlind. rewrite <- Hlind.
    apply bind_Ok in H as (_ & _ & H). apply bind_Ok in H as ([s1 res] & Hloop & H).
    apply bind_Ok in H as (s2 & _ & [= _ <-]).
    apply pop_loop_count in Hloop. destruct res as [l|]; simpl in *.
    + destruct Hloop as [Hlen Hpos]. specialize (Hpos eq_refl).
      rewrite <- Hlen.
      destruct l as [|p [|q l]]; simpl in *; [lia|eauto|eauto].
    + destruct Hloop as [_ ->]. done.
  - intros lindices Hinv Hne Hlind Hreq Hdist.
    destruct (pop_loop_prefix lindices [] (_plist s) Hreq [] [] s None)
      as (s1 & Hloop & Hpl1 & Hinv1 & Hne1 & Hlim); [by rewrite app_nil_r|done|done|].
    destruct (merge_loop_keeps (S (length (_plist s1))) s1 ltac:(lia) Hinv1 Hne1)
      as (s2 & Hm & Hinv2 & _ & _ & Hperm & _).
    exists s2, (pop_shape (gathered None lindices (picked_by_bracket (_plist s) lindices))).
    split.
    + unfold pop. rewrite Hlind, bind_ret.
      rewrite (Forall2_length _ _ _ Hreq), Nat.eqb_refl. simpl py_assert.
      rewrite bind_ret. rewrite app_nil_r in Hloop.
      change (Z.of_nat (length [])) with 0 in Hloop. rewrite Hloop. simpl pop_loop.
      rewrite bind_ret. unfold _merge_brackets_. rewrite Hm, bind_ret. done.
    + rewrite (size_is_length s Hinv), (size_is_length s2 Hinv2).
      apply Permutation_length in Hperm. rewrite Hperm, Hpl1. simpl.
      rewrite app_nil_r.
      pose proof (kept_count (_plist s) lindices Hreq Hdist) as Hcount.
      rewrite (to_lindices_count _ _ _ Hlind) in Hcount. lia.
Qed.

Lemma pop_return_shape_witness :
  let p := fun k => mkParticle k 0 0 0 (Some 0%Q) 0 in
  let s := mkParticleSet [[p 0; p 1]; [p 2; p 3]] [(0, 1, 2); (2, 3, 2)]
             4096 None None None in
  exists s' v, pop s (IdxArray [2; 0]) = Ok (s', v) /\ size s' = 2.
Proof.
  intros p s.
  refine (proj2 (pop_return_shape s (IdxArray [2; 0])) [Some [0]; Some [0]] _ _ _ _ _).
  - apply (bool_decide_unpack _). vm_compute. exact I.
  - apply (bool_decide_unpack _). vm_compute. exact I.
  - vm_compute. reflexivity.
  - apply (bool_decide_unpack _). vm_compute. exact I.
  - apply (bool_decide_unpack _). vm_compute. exact I.
Defined.

(** The three shapes on a set of five particles. *)
Example pop_three_shapes :
  (r ← ParticleSet_init 0 0 (line 5); r ← pop r.1 (IdxArray []); Ok r.2)
    = Ok PopNone
  /\ (r ← ParticleSet_init 0 0 (line 5); r ← pop r.1 (IdxInt 1);
      Ok (match r.2 with PopParticle p => Some (id p) | _ => None end))
     = Ok (Some 1)
  /\ (r ← ParticleSet_init 0 0 (line 5); r ← pop r.1 (IdxArray [3; 1]);
      Ok (match r.2 with PopList l => Some (id <$> l) | _ => None end))
     = Ok (Some [3; 1]).
Proof. repeat split; vm_compute; reflexivity. Qed.

(** C10 as stated fails.  On a set of five particles the request for
    the global indices 1 and 1 removes one particle, the one with
    identity 1, and four are left; yet [pop] returns a list of two
    records, that particle twice, not the bare record: the shape follows
    the two indices named, not the one removal.  The same request as the
    per-bracket list of slots [[1, 1]] does the same. *)
Lemma pop_repeated_index_returns_two :
  (r ← ParticleSet_init 0 0 (line 5); Ok (size r.1)) = Ok 5
  /\ (r ← ParticleSet_init 0 0 (line 5); v ← pop r.1 (IdxArray [1; 1]);
      Ok (match v.2 with PopList l => Some (id <$> l) | _ => None end,
          id <$> convert_pset_to_static_list v.1, size v.1))
     = Ok (Some [1; 1], [0; 2; 3; 4], 4)
  /\ (r ← ParticleSet_init 0 0 (line 5); v ← pop r.1 (IdxList [Some [1; 1]]);
      Ok (match v.2 with PopList l => Some (id <$> l) | _ => None end,
          id <$> convert_pset_to_static_list v.1, size v.1))
     = Ok (Some [1; 1], [0; 2; 3; 4], 4).
Proof. repeat split; vm_compute; reflexivity. Qed.
